(** * DarthVoice: the streaming voice transform of [main.cpp]

    A shallow embedding of the hand-rolled variant of the voice changer
    ([LowPassFilter], [PitchShifter] and the duplex device [AudioProcessor]
    of [main.cpp]) and the properties of its specification.

    The C++ type [double] is an interface here ([Double]): the program is
    written once over it and read at two instances, IEEE 754 binary64
    ([binary64], the arithmetic the compiled program runs on, through the
    kernel's primitive floats, every operation rounded once) and exact
    rational arithmetic ([exact], the arithmetic of the specification's
    formulas).  What depends on rounding is proved on binary64, from the
    rounding algorithm of [SpecFloat]. *)

From Stdlib Require Import ZArith QArith Qround List Bool Lia Lqa.
From Stdlib Require Import Floats Uint63.
From Stdlib Require Import Strings.Byte.
Import ListNotations.

Local Open Scope Z_scope.

(** ** The arithmetic of [double] *)

Declare Scope double_scope.
Delimit Scope double_scope with D.

Class Double (D : Type) : Type := {
  dadd : D -> D -> D;
  dsub : D -> D -> D;
  dmul : D -> D -> D;
  ddiv : D -> D -> D;
  (** conversion of an integer ([int], [qint16]) to [double] *)
  of_int : Z -> D;
  (** the two literals of the source text that are not integers:
      [3.14159265358979323846] and [0.8] *)
  lit_PI : D;
  lit_0_8 : D;
  (** [x < y] and [x <= y] *)
  dltb : D -> D -> bool;
  dleb : D -> D -> bool;
  (** the rational number a finite value stands for; [None] for an infinity
      or a NaN *)
  dvalue : D -> option Q
}.

Notation "x + y" := (dadd x y) : double_scope.
Notation "x - y" := (dsub x y) : double_scope.
Notation "x * y" := (dmul x y) : double_scope.
Notation "x / y" := (ddiv x y) : double_scope.
Notation "x <? y" := (dltb x y) : double_scope.
Notation "x <=? y" := (dleb x y) : double_scope.

(** *** IEEE 754 binary64 *)

Module Binary64.

(** [int] to [double]: exact for every [int] (the magnitude is below 2^53). *)
Definition of_int (z : Z) : float :=
  if z <? 0 then PrimFloat.opp (PrimFloat.of_uint63 (Uint63.of_Z (- z)))
  else PrimFloat.of_uint63 (Uint63.of_Z z).

(** The exact value of a [spec_float]: [(-1)^s * m * 2^e]. *)
Definition SFvalue (f : spec_float) : option Q :=
  match f with
  | S754_zero _ => Some (0 # 1)
  | S754_finite s m e =>
      let q := if 0 <=? e then inject_Z (Z.pos m * 2 ^ e)
               else Z.pos m # Pos.pow 2 (Z.to_pos (- e)) in
      Some (if s then Qopp q else q)
  | S754_infinity _ => None
  | S754_nan => None
  end.

Definition value (f : float) : option Q := SFvalue (Prim2SF f).

(** The sign of a [spec_float], when it has one. *)
Definition nonneg_or_nan (f : spec_float) : Prop :=
  match f with
  | S754_zero s => s = false
  | S754_infinity s => s = false
  | S754_finite s _ _ => s = false
  | S754_nan => True
  end.

End Binary64.

#[local] Set Warnings "-inexact-float".

#[export] Instance binary64 : Double float := {|
  dadd := PrimFloat.add;
  dsub := PrimFloat.sub;
  dmul := PrimFloat.mul;
  ddiv := PrimFloat.div;
  of_int := Binary64.of_int;
  lit_PI := 3.14159265358979323846%float;
  lit_0_8 := 0.8%float;
  dltb := PrimFloat.ltb;
  dleb := PrimFloat.leb;
  dvalue := Binary64.value
|}.

(** *** Exact rational arithmetic *)

#[export] Instance exact : Double Q := {|
  dadd := Qplus;
  dsub := Qminus;
  dmul := Qmult;
  ddiv := Qdiv;
  of_int := inject_Z;
  lit_PI := 314159265358979323846 # 100000000000000000000;
  lit_0_8 := 8 # 10;
  dltb := fun x y => negb (Qle_bool y x);
  dleb := Qle_bool;
  dvalue := Some
|}.

#[local] Set Warnings "+inexact-float".

(** ** Integer conversions *)

(** Two's complement wrap-around to [w] bits, signed and unsigned. *)
Definition wrap_signed (w : Z) (z : Z) : Z :=
  (z + 2 ^ (w - 1)) mod 2 ^ w - 2 ^ (w - 1).

Definition wrap_unsigned (w : Z) (z : Z) : Z := z mod 2 ^ w.

(** [qint64] to [int] (the initialisation of [sampleCount]). *)
Definition to_int (z : Z) : Z := wrap_signed 32 z.

(** The rational [q] with its fractional part discarded. *)
Definition Qtrunc (q : Q) : Z := Z.quot (Qnum q) (Z.pos (Qden q)).

Section Casts.
Context {D : Type} `{Double D}.

(** A floating value truncated toward zero, when it is finite. *)
Definition trunc (d : D) : option Z := option_map Qtrunc (dvalue d).

(** [static_cast<size_t>(d)] and [static_cast<qint16>(d)] discard the
    fractional part.  C++ defines the result only when the truncated value
    fits the destination type; outside of that the model fixes a value (the
    wrap-around of the truncated value, 0 for an infinity or a NaN), and
    the theorems that depend on the value of a conversion state that it
    fits. *)
Definition static_cast_size_t (d : D) : Z :=
  match trunc d with
  | Some z => wrap_unsigned 64 z
  | None => 0
  end.

Definition static_cast_qint16 (d : D) : Z :=
  match trunc d with
  | Some z => wrap_signed 16 z
  | None => 0
  end.
End Casts.

(** ** Constants of [main.cpp] *)

Definition PI {D : Type} `{Double D} : D := lit_PI.
Definition SAMPLE_RATE : Z := 44100.
Definition CHANNELS : Z := 1.
Definition SAMPLE_SIZE : Z := 16.

(** ** [class LowPassFilter] *)

Module LowPassFilter.
Section WithDouble.
Context {D : Type} `{Double D}.

Record t : Type := mk { alpha : D; prev : D }.

(** The constructor [LowPassFilter(cutoffFrequency, sampleRate)]. *)
Definition new (cutoffFrequency sampleRate : D) : t :=
  let RC := (of_int 1 / (of_int 2 * PI * cutoffFrequency))%D in
  {| alpha := (of_int 1 / (RC * sampleRate + of_int 1))%D;
     prev := of_int 0 |}.

(** [double process(double input)]: the returned value and the filter
    after the call. *)
Definition process (f : t) (input : D) : D * t :=
  let output := (prev f + (alpha f * (input - prev f)))%D in
  (output, {| alpha := alpha f; prev := output |}).
End WithDouble.
Arguments t D : clear implicits.
End LowPassFilter.

(** ** [class PitchShifter] *)

Module PitchShifter.
Section WithDouble.
Context {D : Type} `{Double D}.

Record t : Type := mk { factor : D; phase : D; buffer : list D }.

(** The constructor [PitchShifter(pitchFactor)]. *)
Definition new (pitchFactor : D) : t :=
  {| factor := pitchFactor; phase := of_int 0; buffer := [] |}.

(** The right-hand side of the comparison in [process]:
    [static_cast<size_t>(1.0 / factor * SAMPLE_RATE)]. *)
Definition threshold (s : t) : Z :=
  static_cast_size_t (of_int 1 / factor s * of_int SAMPLE_RATE)%D.

(** [double process(double input)]: [push_back], then either
    [front]/[erase(begin())] or silence. *)
Definition process (s : t) (input : D) : D * t :=
  let pushed := buffer s ++ [input] in
  if threshold s <? Z.of_nat (length pushed) then
    (hd (of_int 0) pushed,
     {| factor := factor s; phase := phase s; buffer := tl pushed |})
  else
    (of_int 0,
     {| factor := factor s; phase := phase s; buffer := pushed |}).
End WithDouble.
Arguments t D : clear implicits.
End PitchShifter.

(** ** [class AudioProcessor : public QIODevice] *)

(** The part of [QAudioFormat] the program sets. *)
Record QAudioFormat : Type := {
  sampleRate : Z;
  channelCount : Z;
  sampleSize : Z
}.

(** The open mode kept by the base class [QIODevice]. *)
Inductive OpenMode : Type := NotOpen | ReadWrite.

(** Sixteen-bit little-endian samples in a byte buffer. *)
Definition byte_val (b : byte) : Z := Z.of_N (Byte.to_N b).

Definition byte_of (z : Z) : byte :=
  match Byte.of_N (Z.to_N (z mod 256)) with
  | Some b => b
  | None => x00
  end.

(** [samples[i]] for [samples = reinterpret_cast<const qint16*>(data)]. *)
Definition read_qint16 (data : list byte) (i : nat) : Z :=
  wrap_signed 16
    (byte_val (nth (2 * i) data x00) + 256 * byte_val (nth (2 * i + 1) data x00)).

(** The two bytes at [reinterpret_cast<char*>(&outputSample)]. *)
Definition qint16_bytes (z : Z) : list byte :=
  [byte_of z; byte_of (wrap_unsigned 16 z / 256)].

Module AudioProcessor.
Section WithDouble.
Context {D : Type} `{Double D}.

Record t : Type := mk {
  openMode : OpenMode;
  format : QAudioFormat;
  filter : LowPassFilter.t D;
  shifter : PitchShifter.t D;
  outputBuffer : list byte
}.

(** [QIODevice::open(QIODevice::ReadWrite)] and [QIODevice::close()] of
    the Qt base class, which this class does not override: they set the
    open mode of the base object (and reset the base class's own position
    and buffers, which this program does not use) and touch no member of
    the derived class. *)
Definition open (s : t) : t :=
  {| openMode := ReadWrite; format := format s; filter := filter s;
     shifter := shifter s; outputBuffer := outputBuffer s |}.

Definition close (s : t) : t :=
  {| openMode := NotOpen; format := format s; filter := filter s;
     shifter := shifter s; outputBuffer := outputBuffer s |}.

(** The constructor: [filter(300.0, SAMPLE_RATE)], [shifter(0.8)], an
    empty [outputBuffer], then [open(QIODevice::ReadWrite)]. *)
Definition new (fmt : QAudioFormat) : t :=
  open {| openMode := NotOpen; format := fmt;
          filter := LowPassFilter.new (of_int 300) (of_int SAMPLE_RATE);
          shifter := PitchShifter.new lit_0_8;
          outputBuffer := [] |}.

Definition startProcessing (s : t) : t := open s.

Definition stopProcessing (s : t) : t := close s.

(** [qint64 readData(char* data, qint64 maxlen)]: the returned count, the
    bytes copied to [data], and the device after the call.  [QIODevice::read]
    calls it with [maxlen >= 0] only; for a negative [maxlen] the [memcpy] of
    the source is undefined and the model copies nothing. *)
Definition readData (s : t) (maxlen : Z) : Z * list byte * t :=
  match outputBuffer s with
  | [] => (0, [], s)
  | _ :: _ =>
      let bytesToRead := Z.min maxlen (Z.of_nat (length (outputBuffer s))) in
      (bytesToRead,
       firstn (Z.to_nat bytesToRead) (outputBuffer s),
       {| openMode := openMode s; format := format s; filter := filter s;
          shifter := shifter s;
          outputBuffer := skipn (Z.to_nat bytesToRead) (outputBuffer s) |})
  end.

(** The body of the [for] loop of [writeData], for the [n] iterations
    that remain from index [i] on. *)
Fixpoint writeData_loop (n i : nat) (data : list byte)
    (flt : LowPassFilter.t D) (shf : PitchShifter.t D)
    (processedData : list byte)
    : LowPassFilter.t D * PitchShifter.t D * list byte :=
  match n with
  | O => (flt, shf, processedData)
  | S n' =>
      let sample := (of_int (read_qint16 data i) / of_int 32768)%D in
      let '(pitchedSample, shf') := PitchShifter.process shf sample in
      let '(filteredSample, flt') := LowPassFilter.process flt pitchedSample in
      let outputSample :=
        static_cast_qint16 (filteredSample * of_int 32767)%D in
      writeData_loop n' (S i) data flt' shf'
        (processedData ++ qint16_bytes outputSample)
  end.

(** [qint64 writeData(const char* data, qint64 len)], for a buffer [data]
    of [len] bytes on a little-endian machine: the returned count and the
    device after the call. *)
Definition writeData (s : t) (data : list byte) : Z * t :=
  let len := Z.of_nat (length data) in
  let sampleCount := to_int (Z.quot len 2) in
  let '(flt, shf, processedData) :=
    writeData_loop (Z.to_nat sampleCount) 0 data (filter s) (shifter s) [] in
  (len,
   {| openMode := openMode s; format := format s; filter := flt;
      shifter := shf; outputBuffer := outputBuffer s ++ processedData |}).

(** [qint64 bytesAvailable() const]:
    [QIODevice::bytesAvailable() + outputBuffer.size()], for the count
    [base] the Qt base class reports. *)
Definition bytesAvailable (base : Z) (s : t) : Z :=
  base + Z.of_nat (length (outputBuffer s)).
End WithDouble.
Arguments t D : clear implicits.
End AudioProcessor.

(** The format [VoiceChanger] asks for. *)
Definition default_format : QAudioFormat :=
  {| sampleRate := SAMPLE_RATE; channelCount := CHANNELS;
     sampleSize := SAMPLE_SIZE |}.

(** ** The specification's description of the transform *)

(** The samples of a block: consecutive little-endian byte pairs (a trailing
    single byte holds no sample). *)
Fixpoint decode (data : list byte) : list Z :=
  match data with
  | lo :: hi :: rest =>
      wrap_signed 16 (byte_val lo + 256 * byte_val hi) :: decode rest
  | _ => []
  end.

(** [round]: to the nearest integer, halves away from zero. *)
Definition Qround (q : Q) : Z :=
  if Qle_bool 0 q then Qfloor (q + (1 # 2)) else - Qfloor (- q + (1 # 2)).

Definition clamp16 (z : Z) : Z := Z.max (-32768) (Z.min 32767 z).

Section Pipeline.
Context {D : Type} `{Double D}.

(** One sample through the pipeline: normalise, [PitchShifter], then
    [LowPassFilter], then back to an integer with [quantize]. *)
Definition pipeline_step (quantize : D -> Z)
    (flt : LowPassFilter.t D) (shf : PitchShifter.t D) (z : Z)
    : Z * LowPassFilter.t D * PitchShifter.t D :=
  let '(pitched, shf') :=
    PitchShifter.process shf (of_int z / of_int 32768)%D in
  let '(filtered, flt') := LowPassFilter.process flt pitched in
  (quantize filtered, flt', shf').

Fixpoint pipeline (quantize : D -> Z)
    (flt : LowPassFilter.t D) (shf : PitchShifter.t D) (zs : list Z)
    : list Z * LowPassFilter.t D * PitchShifter.t D :=
  match zs with
  | [] => ([], flt, shf)
  | z :: zs' =>
      let '(o, flt', shf') := pipeline_step quantize flt shf z in
      let '(os, flt'', shf'') := pipeline quantize flt' shf' zs' in
      (o :: os, flt'', shf'')
  end.

(** The conversion back to an integer sample as the specification words it:
    [round(value * 32767.0)], clamped to the 16-bit signed range. *)
Definition quantize_round_clamp (v : D) : Z :=
  match dvalue (v * of_int 32767)%D with
  | Some q => clamp16 (Qround q)
  | None => 0
  end.

(** The conversion of the program: [static_cast<qint16>(value * 32767.0)]. *)
Definition quantize_truncate (v : D) : Z :=
  static_cast_qint16 (v * of_int 32767)%D.

(** The device after a block went through [pipeline] with [quantize]. *)
Definition consumed (quantize : D -> Z) (s : AudioProcessor.t D)
    (data : list byte) : AudioProcessor.t D :=
  let '(os, flt, shf) :=
    pipeline quantize (AudioProcessor.filter s) (AudioProcessor.shifter s)
      (decode data) in
  {| AudioProcessor.openMode := AudioProcessor.openMode s;
     AudioProcessor.format := AudioProcessor.format s;
     AudioProcessor.filter := flt;
     AudioProcessor.shifter := shf;
     AudioProcessor.outputBuffer :=
       AudioProcessor.outputBuffer s ++ flat_map qint16_bytes os |}.

(** The recurrence of the specification for the low-pass filter:
    [prev_0 = 0], [prev_i = prev_(i-1) + alpha * (x_i - prev_(i-1))]. *)
Fixpoint recurrence (a : D) (xs : list D) (i : nat) : D :=
  match i with
  | O => of_int 0
  | S j =>
      let p := recurrence a xs j in
      (p + a * (nth j xs (of_int 0) - p))%D
  end.

(** A filter driven by a sequence of inputs: the outputs in order and the
    filter at the end. *)
Fixpoint filter_run (f : LowPassFilter.t D) (xs : list D)
    : list D * LowPassFilter.t D :=
  match xs with
  | [] => ([], f)
  | x :: xs' =>
      let '(o, f') := LowPassFilter.process f x in
      let '(os, f'') := filter_run f' xs' in
      (o :: os, f'')
  end.

(** A shifter driven by a sequence of inputs. *)
Fixpoint shifter_run (s : PitchShifter.t D) (xs : list D)
    : list D * PitchShifter.t D :=
  match xs with
  | [] => ([], s)
  | x :: xs' =>
      let '(o, s') := PitchShifter.process s x in
      let '(os, s'') := shifter_run s' xs' in
      (o :: os, s'')
  end.
End Pipeline.

(** The normalised range of a sample, [-1, 1], by the comparisons of the
    arithmetic (a NaN is not in it). *)
Definition in_unit_range {D : Type} `{Double D} (x : D) : Prop :=
  (of_int (-1) <=? x)%D = true /\ (x <=? of_int 1)%D = true.

(** The normalisation of [writeData]: [samples[i] / 32768.0]. *)
Definition normalise {D : Type} `{Double D} (z : Z) : D :=
  (of_int z / of_int 32768)%D.

(** The range of a [qint16]. *)
Definition is_qint16 (z : Z) : Prop := -32768 <= z <= 32767.

(** The states of the processor in which every double is in [-1, 1] and
    the filter coefficient in (0, 1]. *)
Definition well_ranged {D : Type} `{Double D} (s : AudioProcessor.t D)
    : Prop :=
  (of_int 0 <? LowPassFilter.alpha (AudioProcessor.filter s))%D = true
  /\ (LowPassFilter.alpha (AudioProcessor.filter s) <=? of_int 1)%D = true
  /\ in_unit_range (LowPassFilter.prev (AudioProcessor.filter s))
  /\ Forall in_unit_range (PitchShifter.buffer (AudioProcessor.shifter s)).

(** ** Sessions: interleaved calls of the two callbacks *)

Inductive call : Type :=
| Consume (data : list byte)
| Produce (maxlen : Z).

Section Session.
Context {D : Type} `{Double D}.

(** The bytes one [writeData] call appends to [outputBuffer]. *)
Definition appended_by (s : AudioProcessor.t D) (data : list byte)
    : list byte :=
  let sampleCount := to_int (Z.quot (Z.of_nat (length data)) 2) in
  snd (AudioProcessor.writeData_loop (Z.to_nat sampleCount) 0 data
         (AudioProcessor.filter s) (AudioProcessor.shifter s) []).

(** A sequence of calls: all the bytes the reads handed out, all the bytes
    the writes appended (both in call order), and the device at the end. *)
Fixpoint session (s : AudioProcessor.t D) (calls : list call)
    : list byte * list byte * AudioProcessor.t D :=
  match calls with
  | [] => ([], [], s)
  | Consume data :: rest =>
      let '(produced, appended, s') :=
        session (snd (AudioProcessor.writeData s data)) rest in
      (produced, appended_by s data ++ appended, s')
  | Produce maxlen :: rest =>
      let '(_, out, s1) := AudioProcessor.readData s maxlen in
      let '(produced, appended, s') := session s1 rest in
      (out ++ produced, appended, s')
  end.
End Session.

(** The samples a sequence of calls feeds in, block after block (a
    trailing single byte of a block holds no sample). *)
Fixpoint samples_of (calls : list call) : list Z :=
  match calls with
  | [] => []
  | Consume data :: rest => decode data ++ samples_of rest
  | Produce _ :: rest => samples_of rest
  end.

(** Every block of the sequence has a sample count that fits an [int]. *)
Definition blocks_fit (calls : list call) : Prop :=
  Forall (fun c => match c with
                   | Consume data => Z.of_nat (length data) / 2 < 2 ^ 31
                   | Produce _ => True
                   end) calls.

(** ** Rounding in binary64

    The definitions the proofs about [SpecFloat]'s rounding use: the record
    of an exact mantissa after [n] right shifts, rounding to nearest with
    ties to even on integers, and the value of a [spec_float] as an integer
    number of units of [2^-K]. *)

Module Rounding.

(** The shift register of [SpecFloat] after [n] steps from an exact
    mantissa. *)
Definition shifted (m : Z) (n : nat) : shr_record :=
  Nat.iter n shr_1 {| shr_m := m; shr_r := false; shr_s := false |}.

(** [m / 2^n] rounded to the nearest integer, ties to even. *)
Definition rne (m n : Z) : Z :=
  let q := m / 2 ^ n in
  let rem := m mod 2 ^ n in
  let half := 2 ^ (n - 1) in
  if rem <? half then q
  else if half <? rem then q + 1
  else if Z.even q then q else q + 1.

(** The exponent binary64 gives a mantissa [p] at exponent [ex]. *)
Definition round_exp (p : positive) (ex : Z) : Z :=
  fexp prec emax (Z.pos (digits2_pos p) + ex).

(** The magnitude of a float in units of [2^-K]. *)
Definition mag (K : Z) (f : spec_float) : Z :=
  match f with
  | S754_finite _ m e => Z.pos m * 2 ^ (e + K)
  | _ => 0
  end.

(** Zero or finite, with sign [s] and an exponent binary64 has. *)
Definition finite_signed (s : bool) (f : spec_float) : Prop :=
  match f with
  | S754_zero s' => s' = s
  | S754_finite s' _ e => s' = s /\ -1074 <= e
  | _ => False
  end.

(** The signed value of a float in units of [2^-1074], the smallest
    positive double. *)
Definition sval (f : spec_float) : Z :=
  match f with
  | S754_finite s m e => (if s then -1 else 1) * (Z.pos m * 2 ^ (e + 1074))
  | _ => 0
  end.

Definition is_fin (f : spec_float) : Prop :=
  match f with
  | S754_zero _ => True
  | S754_finite _ _ e => -1074 <= e
  | _ => False
  end.

(** Zero, or finite with the mantissa binary64 gives its exponent. *)
Definition vfin (f : spec_float) : Prop :=
  match f with
  | S754_zero _ => True
  | S754_finite _ m e => canonical_mantissa prec emax m e = true
  | _ => False
  end.

(** 1.0 and half a unit in the last place of 1.0, in units of [2^-1074]. *)
Definition One : Z := 2 ^ 1074.

Definition Half_ulp : Z := 2 ^ 1021.

(** The floats 1.0 and -1.0. *)
Definition SFone : spec_float := S754_finite false 4503599627370496 (-52).

Definition SFmone : spec_float := S754_finite true 4503599627370496 (-52).

(** The truncation toward zero of a float, by shifting its mantissa. *)
Definition SFtrunc (f : spec_float) : option Z :=
  match f with
  | S754_zero _ => Some 0
  | S754_finite s m e =>
      let a := if 0 <=? e then Z.shiftl (Z.pos m) e
               else Z.shiftr (Z.pos m) (- e) in
      Some (if s then - a else a)
  | _ => None
  end.

(** Zero or finite: neither an infinity nor a NaN. *)
Definition SFfinite (f : spec_float) : Prop :=
  match f with
  | S754_zero _ | S754_finite _ _ _ => True
  | _ => False
  end.

(** Two floats that stand for the same number: the same float, or two
    zeros (of either sign). *)
Definition same_number (p x : spec_float) : Prop :=
  p = x \/ exists s1 s2, p = S754_zero s1 /\ x = S754_zero s2.

End Rounding.

(** ** Checks over all 16-bit samples *)

(** [f] holds on all of [lo, lo + 2^k), checked by halving the range. *)
Fixpoint all_in (k : nat) (lo : Z) (f : Z -> bool) : bool :=
  match k with
  | O => f lo
  | S k' => all_in k' lo f && all_in k' (lo + 2 ^ Z.of_nat k') f
  end.

(** In binary64, [z / 32768.0] is in [-1, 1]. *)
Definition unit_normalised (z : Z) : bool :=
  ((of_int (-1) <=? (normalise z : float))%D
   && ((normalise z : float) <=? of_int 1)%D)%bool.

(** In binary64, [z / 32768.0 * 32767.0] truncates to [z] moved one step
    toward zero. *)
Definition loses_one_step (z : Z) : bool :=
  match Rounding.SFtrunc
          (Prim2SF ((normalise z : float) * of_int 32767)%D) with
  | Some t => t =? z - Z.sgn z
  | None => false
  end.

(** * Properties *)

(** ** Integer conversions *)

Lemma wrap_signed_id (w z : Z) :
  0 < w -> - 2 ^ (w - 1) <= z < 2 ^ (w - 1) -> wrap_signed w z = z.
Proof.
  intros Hw Hz. unfold wrap_signed.
  assert (E : 2 ^ w = 2 * 2 ^ (w - 1)).
  { replace w with (Z.succ (w - 1)) at 1 by lia. apply Z.pow_succ_r. lia. }
  rewrite Z.mod_small; lia.
Qed.

Lemma to_int_id (z : Z) : - 2 ^ 31 <= z < 2 ^ 31 -> to_int z = z.
Proof. intros Hz. apply wrap_signed_id; [lia | exact Hz]. Qed.

(** The number of iterations of the loop of [writeData]: half the byte
    count, as long as that fits an [int]. *)
Lemma sampleCount_half (data : list byte) :
  Z.of_nat (length data) / 2 < 2 ^ 31 ->
  Z.to_nat (to_int (Z.quot (Z.of_nat (length data)) 2)) = Nat.div2 (length data).
Proof.
  intros Hfit.
  rewrite Z.quot_div_nonneg by lia.
  rewrite to_int_id.
  - rewrite Nat.div2_div. apply Nat2Z.inj.
    rewrite Nat2Z.inj_div, Z2Nat.id; [reflexivity|].
    apply Z.div_pos; lia.
  - split; [|exact Hfit].
    assert (0 <= Z.of_nat (length data) / 2) by (apply Z.div_pos; lia). lia.
Qed.

(** ** Decoding *)

(** Induction over a byte buffer two bytes at a time. *)
Lemma pairs_ind (A : Type) (P : list A -> Prop) :
  P [] -> (forall a, P [a]) -> (forall a b l, P l -> P (a :: b :: l)) ->
  forall l, P l.
Proof.
  intros H0 H1 H2 l.
  assert (Both : P l /\ forall a, P (a :: l)).
  { induction l as [|x l [IHl IHxl]]; split; auto. }
  exact (proj1 Both).
Qed.

Lemma decode_length (data : list byte) :
  length (decode data) = Nat.div2 (length data).
Proof.
  induction data as [|a|lo hi rest IH] using pairs_ind;
    [reflexivity | reflexivity |].
  simpl. f_equal. exact IH.
Qed.

Lemma decode_read (data : list byte) :
  forall k : nat, (k < length (decode data))%nat ->
    read_qint16 data k = nth k (decode data) 0.
Proof.
  induction data as [|a|lo hi rest IH] using pairs_ind;
    simpl; try (intros; lia).
  intros [|k] Hk; [reflexivity|].
  rewrite <- IH by lia.
  unfold read_qint16.
  replace (2 * S k)%nat with (S (S (2 * k))) by lia.
  replace (S (S (2 * k)) + 1)%nat with (S (S (2 * k + 1))) by lia.
  reflexivity.
Qed.

(** An odd trailing byte holds no sample. *)
Lemma decode_trailing_byte (data : list byte) (b : byte) :
  Nat.Even (length data) -> decode (data ++ [b]) = decode data.
Proof.
  induction data as [|a|lo hi rest IH] using pairs_ind; intros Hev.
  - reflexivity.
  - destruct Hev as [k Hk]. simpl in Hk. lia.
  - simpl. f_equal. apply IH.
    destruct Hev as [k Hk]. simpl in Hk. exists (k - 1)%nat. lia.
Qed.

(** ** The write path *)

Section WritePath.
Context {D : Type} `{Double D}.

(** The [for] loop of [writeData] is [pipeline] over the samples it reads. *)
Lemma writeData_loop_pipeline (data : list byte) (zs : list Z) :
  forall (i : nat) flt shf acc,
    (forall k, (k < length zs)%nat -> read_qint16 data (i + k) = nth k zs 0) ->
    AudioProcessor.writeData_loop (length zs) i data flt shf acc =
    let '(os, flt', shf') := pipeline quantize_truncate flt shf zs in
    (flt', shf', acc ++ flat_map qint16_bytes os).
Proof.
  induction zs as [|z zs IH]; intros i flt shf acc Hread.
  - simpl. rewrite app_nil_r. reflexivity.
  - cbn [length AudioProcessor.writeData_loop pipeline].
    pose proof (Hread 0%nat ltac:(simpl; lia)) as H0.
    rewrite Nat.add_0_r in H0. cbn [nth] in H0. rewrite H0.
    unfold pipeline_step.
    destruct (PitchShifter.process shf (of_int z / of_int 32768)%D)
      as [pitched shf'].
    destruct (LowPassFilter.process flt pitched) as [filtered flt'].
    rewrite IH.
    + fold (quantize_truncate filtered).
      destruct (pipeline quantize_truncate flt' shf' zs) as [[os flt''] shf''].
      cbn [flat_map]. rewrite <- app_assoc. reflexivity.
    + intros k Hk. specialize (Hread (S k) ltac:(simpl; lia)).
      rewrite Nat.add_succ_r in Hread. exact Hread.
Qed.

Lemma writeData_consumed (s : AudioProcessor.t D) (data : list byte) :
  Z.of_nat (length data) / 2 < 2 ^ 31 ->
  AudioProcessor.writeData s data =
  (Z.of_nat (length data), consumed quantize_truncate s data).
Proof.
  intros Hfit. unfold AudioProcessor.writeData, consumed.
  rewrite (sampleCount_half data Hfit), <- decode_length.
  rewrite (writeData_loop_pipeline data (decode data)).
  - destruct (pipeline quantize_truncate _ _ (decode data)) as [[os flt] shf].
    reflexivity.
  - intros k Hk. apply decode_read. exact Hk.
Qed.

Lemma appended_by_pipeline (s : AudioProcessor.t D) (data : list byte) :
  Z.of_nat (length data) / 2 < 2 ^ 31 ->
  appended_by s data =
  flat_map qint16_bytes
    (fst (fst (pipeline quantize_truncate (AudioProcessor.filter s)
                 (AudioProcessor.shifter s) (decode data)))).
Proof.
  intros Hfit. unfold appended_by.
  rewrite (sampleCount_half data Hfit), <- decode_length.
  rewrite (writeData_loop_pipeline data (decode data)).
  - destruct (pipeline quantize_truncate _ _ (decode data)) as [[os flt] shf].
    reflexivity.
  - intros k Hk. apply decode_read. exact Hk.
Qed.

Lemma writeData_outputBuffer (s : AudioProcessor.t D) (data : list byte) :
  AudioProcessor.outputBuffer (snd (AudioProcessor.writeData s data)) =
  AudioProcessor.outputBuffer s ++ appended_by s data.
Proof.
  unfold AudioProcessor.writeData, appended_by.
  destruct (AudioProcessor.writeData_loop _ _ _ _ _ _) as [[flt shf] out].
  reflexivity.
Qed.

(** Inside the 16-bit range the conversion of the program is the
    truncation toward zero. *)
Lemma quantize_truncate_fits (v : D) (z : Z) :
  trunc (v * of_int 32767)%D = Some z -> -32768 <= z <= 32767 ->
  quantize_truncate v = z.
Proof.
  intros Ht Hz. unfold quantize_truncate, static_cast_qint16.
  rewrite Ht. apply wrap_signed_id; simpl; lia.
Qed.
End WritePath.

(** ** The low-pass filter over a sequence of inputs *)

Section FilterRun.
Context {D : Type} `{Double D}.

Lemma filter_run_snoc (xs : list D) (x : D) :
  forall f : LowPassFilter.t D,
    snd (filter_run f (xs ++ [x])) =
    snd (LowPassFilter.process (snd (filter_run f xs)) x).
Proof.
  induction xs as [|y xs IH]; intros f; simpl.
  - reflexivity.
  - specialize (IH (snd (LowPassFilter.process f y))).
    unfold LowPassFilter.process in *. simpl in *.
    destruct (filter_run _ (xs ++ [x])) as [os1 f1].
    destruct (filter_run _ xs) as [os2 f2]. exact IH.
Qed.

Lemma filter_run_nth (xs : list D) :
  forall (f : LowPassFilter.t D) (i : nat) (d : D),
    (i < length xs)%nat ->
    nth i (fst (filter_run f xs)) d =
    fst (LowPassFilter.process (snd (filter_run f (firstn i xs))) (nth i xs d)).
Proof.
  induction xs as [|y xs IH]; intros f i d Hi; simpl in Hi; [lia|].
  destruct i as [|i].
  - simpl. unfold LowPassFilter.process. simpl.
    destruct (filter_run _ xs) as [os f']. reflexivity.
  - specialize (IH (snd (LowPassFilter.process f y)) i d ltac:(lia)).
    cbn [firstn nth filter_run].
    unfold LowPassFilter.process in *. simpl in *.
    destruct (filter_run _ xs) as [os1 f1].
    destruct (filter_run _ (firstn i xs)) as [os2 f2]. exact IH.
Qed.

Lemma firstn_succ_snoc (xs : list D) (d : D) :
  forall i : nat, (i < length xs)%nat ->
    firstn (S i) xs = firstn i xs ++ [nth i xs d].
Proof.
  induction xs as [|y xs IH]; intros i Hi; simpl in Hi; [lia|].
  destruct i as [|i]; [reflexivity|].
  cbn [firstn nth app]. f_equal. apply IH. lia.
Qed.

(** The filter after [i] inputs holds [recurrence] at [i]. *)
Lemma filter_run_state (f : LowPassFilter.t D) (xs : list D) :
  LowPassFilter.prev f = of_int 0 ->
  forall i : nat, (i <= length xs)%nat ->
    snd (filter_run f (firstn i xs)) =
    {| LowPassFilter.alpha := LowPassFilter.alpha f;
       LowPassFilter.prev := recurrence (LowPassFilter.alpha f) xs i |}.
Proof.
  intros Hprev i. induction i as [|i IH]; intros Hi.
  - simpl. destruct f as [a p]. simpl in *. subst p. reflexivity.
  - rewrite (firstn_succ_snoc xs (of_int 0)) by lia.
    rewrite filter_run_snoc, IH by lia. reflexivity.
Qed.
End FilterRun.

(** C4. For every sequence of inputs [x_1 .. x_n] fed to a filter whose
    [prev] is 0 (a freshly constructed one), the value [process] returns at
    step [i] is [prev_i], where [prev_0 = 0] and
    [prev_i = prev_(i-1) + alpha * (x_i - prev_(i-1))], and the [prev] the
    filter stores after step [i] is [prev_i] as well. *)
Theorem LowPassFilter_process_recurrence
    {D : Type} `{Double D} (f : LowPassFilter.t D) (xs : list D) (i : nat) :
  LowPassFilter.prev f = of_int 0 ->
  (1 <= i <= length xs)%nat ->
  nth (i - 1) (fst (filter_run f xs)) (of_int 0) =
    recurrence (LowPassFilter.alpha f) xs i
  /\ LowPassFilter.prev (snd (filter_run f (firstn i xs))) =
    recurrence (LowPassFilter.alpha f) xs i.
Proof.
  intros Hprev Hi. split.
  - rewrite filter_run_nth by lia.
    rewrite (filter_run_state f xs Hprev) by lia.
    destruct i as [|j]; [lia|].
    replace (S j - 1)%nat with j by lia. reflexivity.
  - rewrite (filter_run_state f xs Hprev) by lia. reflexivity.
Qed.

Lemma LowPassFilter_process_recurrence_witness :
  let f : LowPassFilter.t float :=
    LowPassFilter.new (of_int 300) (of_int SAMPLE_RATE) in
  let xs : list float := [of_int 1; (of_int 1 / of_int 2)%D] in
  nth 1 (fst (filter_run f xs)) (of_int 0) =
    recurrence (LowPassFilter.alpha f) xs 2
  /\ LowPassFilter.prev (snd (filter_run f (firstn 2 xs))) =
    recurrence (LowPassFilter.alpha f) xs 2.
Proof.
  intros f xs.
  apply (LowPassFilter_process_recurrence (D := float) f xs 2).
  - reflexivity.
  - simpl. lia.
Defined.

(** ** The read path and sessions *)

Section ReadPath.
Context {D : Type} `{Double D}.

Lemma readData_split (s : AudioProcessor.t D) (maxlen : Z) :
  snd (fst (AudioProcessor.readData s maxlen)) ++
    AudioProcessor.outputBuffer (snd (AudioProcessor.readData s maxlen)) =
  AudioProcessor.outputBuffer s.
Proof.
  unfold AudioProcessor.readData.
  destruct (AudioProcessor.outputBuffer s) as [|b q] eqn:E; simpl.
  - exact E.
  - apply firstn_skipn.
Qed.

(** What the reads handed out, followed by what is still queued, is what
    was queued at the start followed by what the writes appended. *)
Lemma session_fifo (calls : list call) :
  forall s : AudioProcessor.t D,
    fst (fst (session s calls)) ++
      AudioProcessor.outputBuffer (snd (session s calls)) =
    AudioProcessor.outputBuffer s ++ snd (fst (session s calls)).
Proof.
  induction calls as [|[data|maxlen] calls IH]; intros s.
  - simpl. rewrite app_nil_r. reflexivity.
  - cbn [session].
    specialize (IH (snd (AudioProcessor.writeData s data))).
    destruct (session _ calls) as [[produced appended] s'].
    simpl in *. rewrite IH, writeData_outputBuffer, app_assoc. reflexivity.
  - cbn [session].
    pose proof (readData_split s maxlen) as Hsplit.
    destruct (AudioProcessor.readData s maxlen) as [[n out] s1].
    specialize (IH s1).
    destruct (session s1 calls) as [[produced appended] s'].
    simpl in *. rewrite <- app_assoc, IH, app_assoc, Hsplit. reflexivity.
Qed.
(** ** Counted reads *)

Lemma firstn_plus (A : Type) (n m : nat) :
  forall l : list A, firstn (n + m) l = firstn n l ++ firstn m (skipn n l).
Proof.
  induction n as [|n IH]; intros l; [reflexivity|].
  destruct l as [|a l]; cbn [Nat.add firstn skipn app].
  - rewrite firstn_nil. reflexivity.
  - rewrite IH. reflexivity.
Qed.

(** One read for [maxlen >= 0]: the count is the smaller of [maxlen] and
    the queue's length, and that many bytes leave the head of the queue. *)
Lemma readData_take (s : AudioProcessor.t D) (maxlen : Z) :
  0 <= maxlen ->
  let n := Z.min maxlen (Z.of_nat (length (AudioProcessor.outputBuffer s))) in
  fst (fst (AudioProcessor.readData s maxlen)) = n
  /\ snd (fst (AudioProcessor.readData s maxlen)) =
     firstn (Z.to_nat n) (AudioProcessor.outputBuffer s)
  /\ AudioProcessor.outputBuffer (snd (AudioProcessor.readData s maxlen)) =
     skipn (Z.to_nat n) (AudioProcessor.outputBuffer s)
  /\ AudioProcessor.filter (snd (AudioProcessor.readData s maxlen)) =
     AudioProcessor.filter s
  /\ AudioProcessor.shifter (snd (AudioProcessor.readData s maxlen)) =
     AudioProcessor.shifter s.
Proof.
  intros Hmax n. unfold AudioProcessor.readData.
  destruct (AudioProcessor.outputBuffer s) as [|b q] eqn:E.
  - cbn [fst snd]. rewrite E. subst n. cbn [length].
    rewrite Z.min_r by lia. repeat split.
  - cbn [fst snd AudioProcessor.outputBuffer AudioProcessor.filter
         AudioProcessor.shifter]. repeat split.
Qed.

Lemma sum_nonneg (ms : list Z) :
  Forall (fun m => 0 <= m) ms -> 0 <= fold_right Z.add 0 ms.
Proof.
  induction 1 as [|m ms Hm Hms IH]; cbn [fold_right]; lia.
Qed.

(** Reads in a row hand out the head of the queue, as many bytes as their
    counts add up to (all of it when that is at least its length). *)
Lemma session_reads (maxlens : list Z) :
  Forall (fun m => 0 <= m) maxlens ->
  forall s : AudioProcessor.t D,
    let total := fold_right Z.add 0 maxlens in
    fst (fst (session s (map Produce maxlens))) =
      firstn (Z.to_nat total) (AudioProcessor.outputBuffer s)
    /\ snd (fst (session s (map Produce maxlens))) = []
    /\ AudioProcessor.outputBuffer (snd (session s (map Produce maxlens))) =
       skipn (Z.to_nat total) (AudioProcessor.outputBuffer s).
Proof.
  induction 1 as [|m ms Hm Hms IH]; intros s total.
  - cbn [map session fst snd]. subst total. cbn [fold_right].
    repeat split.
  - cbn [map session].
    destruct (readData_take s m Hm) as (En & Eout & Ebuf & _).
    destruct (AudioProcessor.readData s m) as [[n out] s1].
    cbn [fst snd] in En, Eout, Ebuf.
    destruct (IH s1) as (Ep & Ea & Eb).
    destruct (session s1 (map Produce ms)) as [[produced appended] s'].
    cbn [fst snd] in *. cbn zeta in Ep, Eb.
    pose proof (sum_nonneg ms Hms) as Hsum.
    subst total. cbn [fold_right].
    rewrite Ep, Eb, Ebuf, Eout, <- firstn_plus, skipn_skipn.
    clear Ep Eb Ebuf Eout En.
    set (R := fold_right Z.add 0 ms) in *.
    set (buf := AudioProcessor.outputBuffer s) in *.
    set (L := Z.of_nat (length buf)) in *.
    split; [|split; [exact Ea|]].
    + destruct (Z_le_gt_dec m L) as [Hle|Hgt].
      * rewrite Z.min_l by lia. rewrite Z2Nat.inj_add by lia. reflexivity.
      * rewrite Z.min_r by lia.
        rewrite !firstn_all2 by (unfold L in *; lia). reflexivity.
    + destruct (Z_le_gt_dec m L) as [Hle|Hgt].
      * rewrite Z.min_l by lia. rewrite Z2Nat.inj_add by lia.
        f_equal. lia.
      * rewrite Z.min_r by lia.
        rewrite !skipn_all2 by (unfold L in *; lia). reflexivity.
Qed.
End ReadPath.

(** C5. For every [maxlen >= 0] and every state of the output queue,
    [readData] returns [min(maxlen, length of the queue)] bytes, so at most
    [maxlen], taken from the head of the queue and removed from it, and
    leaves the filter and the shifter alone; it returns zero bytes and
    changes nothing when the queue is empty; a read of at least the queue's
    length drains it; reads in a row hand out the head of the queue, as
    many bytes as their counts add up to, and all of it once the counts
    add up to its length; and over every interleaving of reads and writes
    the bytes the reads returned, followed by the bytes still queued, are
    exactly the bytes queued at the start followed by the bytes [writeData]
    appended, in the same order. *)
Theorem readData_fifo {D : Type} `{Double D} (s : AudioProcessor.t D) :
  (forall maxlen : Z, 0 <= maxlen ->
     let '(n, out, s') := AudioProcessor.readData s maxlen in
     n <= maxlen
     /\ Z.of_nat (length out) = n
     /\ out ++ AudioProcessor.outputBuffer s' = AudioProcessor.outputBuffer s
     /\ (AudioProcessor.outputBuffer s = [] -> n = 0 /\ out = [] /\ s' = s)
     /\ (Z.of_nat (length (AudioProcessor.outputBuffer s)) <= maxlen ->
         out = AudioProcessor.outputBuffer s
         /\ AudioProcessor.outputBuffer s' = [])
     /\ n = Z.min maxlen (Z.of_nat (length (AudioProcessor.outputBuffer s)))
     /\ out = firstn (Z.to_nat n) (AudioProcessor.outputBuffer s)
     /\ AudioProcessor.outputBuffer s' =
        skipn (Z.to_nat n) (AudioProcessor.outputBuffer s)
     /\ AudioProcessor.filter s' = AudioProcessor.filter s
     /\ AudioProcessor.shifter s' = AudioProcessor.shifter s)
  /\ (forall calls : list call,
        let '(produced, appended, s') := session s calls in
        produced ++ AudioProcessor.outputBuffer s' =
        AudioProcessor.outputBuffer s ++ appended)
  /\ (forall maxlens : list Z,
        Forall (fun m => 0 <= m) maxlens ->
        let '(produced, appended, s') := session s (map Produce maxlens) in
        let total := fold_right Z.add 0 maxlens in
        produced = firstn (Z.to_nat total) (AudioProcessor.outputBuffer s)
        /\ appended = []
        /\ AudioProcessor.outputBuffer s' =
           skipn (Z.to_nat total) (AudioProcessor.outputBuffer s)
        /\ (Z.of_nat (length (AudioProcessor.outputBuffer s)) <= total ->
            produced = AudioProcessor.outputBuffer s
            /\ AudioProcessor.outputBuffer s' = [])).
Proof.
  split; [|split].
  - intros maxlen Hmax.
    pose proof (readData_split s maxlen) as Hsplit.
    destruct (readData_take s maxlen Hmax) as (En & Eout & Ebuf & Ef & Es).
    assert (Hempty : AudioProcessor.outputBuffer s = [] ->
                     snd (AudioProcessor.readData s maxlen) = s).
    { intros E. unfold AudioProcessor.readData. rewrite E. reflexivity. }
    destruct (AudioProcessor.readData s maxlen) as [[n out] s'].
    cbn [fst snd] in *. subst n.
    set (buf := AudioProcessor.outputBuffer s) in *.
    assert (Hlen : Z.of_nat (length out) =
                   Z.min maxlen (Z.of_nat (length buf))).
    { rewrite Eout, length_firstn. lia. }
    split; [lia|]. split; [exact Hlen|]. split; [exact Hsplit|].
    split; [|split].
    + intros E. rewrite E in *. cbn [length] in *.
      split; [lia|]. split; [|apply Hempty; reflexivity].
      rewrite Eout. apply firstn_nil.
    + intros Hall. rewrite Eout, Ebuf. rewrite Z.min_r by lia.
      rewrite Nat2Z.id. split; [apply firstn_all | apply skipn_all].
    + split; [reflexivity|]. split; [exact Eout|]. split; [exact Ebuf|].
      split; [exact Ef | exact Es].
  - intros calls. pose proof (session_fifo calls s) as Hfifo.
    destruct (session s calls) as [[produced appended] s']. exact Hfifo.
  - intros maxlens Hms.
    destruct (session_reads maxlens Hms s) as (Ep & Ea & Eb).
    destruct (session s (map Produce maxlens)) as [[produced appended] s'].
    cbn [fst snd] in *. cbn zeta.
    split; [exact Ep|]. split; [exact Ea|]. split; [exact Eb|].
    intros Hall. rewrite Ep, Eb.
    split; [apply firstn_all2 | apply skipn_all2]; lia.
Qed.

Lemma readData_fifo_witness :
  let s : AudioProcessor.t float :=
    snd (AudioProcessor.writeData (AudioProcessor.new default_format)
           [x01; x02; x03; x04]) in
  let '(n, out, s') := AudioProcessor.readData s 3 in
  n <= 3
  /\ Z.of_nat (length out) = n
  /\ out ++ AudioProcessor.outputBuffer s' = AudioProcessor.outputBuffer s
  /\ (AudioProcessor.outputBuffer s = [] -> n = 0 /\ out = [] /\ s' = s)
  /\ (Z.of_nat (length (AudioProcessor.outputBuffer s)) <= 3 ->
      out = AudioProcessor.outputBuffer s
      /\ AudioProcessor.outputBuffer s' = [])
  /\ n = Z.min 3 (Z.of_nat (length (AudioProcessor.outputBuffer s)))
  /\ out = firstn (Z.to_nat n) (AudioProcessor.outputBuffer s)
  /\ AudioProcessor.outputBuffer s' =
     skipn (Z.to_nat n) (AudioProcessor.outputBuffer s)
  /\ AudioProcessor.filter s' = AudioProcessor.filter s
  /\ AudioProcessor.shifter s' = AudioProcessor.shifter s.
Proof.
  intros s. apply (proj1 (readData_fifo s) 3). lia.
Defined.

(** ** Facts of binary64 arithmetic *)

Module Binary64Facts.

(** Rounding keeps the sign it is given. *)
Lemma binary_round_aux_nonneg (mx ex : Z) (lx : location) :
  Binary64.nonneg_or_nan (binary_round_aux prec emax false mx ex lx).
Proof.
  unfold binary_round_aux.
  destruct (shr_fexp prec emax mx ex lx) as [mrs' e'].
  destruct (shr_fexp prec emax _ e' loc_Exact) as [mrs'' e''].
  destruct (shr_m mrs'') as [|m|m]; simpl; auto.
  destruct (e'' <=? 971); reflexivity.
Qed.

Lemma SFdiv_nonneg (x y : spec_float) :
  Binary64.nonneg_or_nan x -> Binary64.nonneg_or_nan y -> Binary64.nonneg_or_nan (SF64div x y).
Proof.
  unfold SF64div, SFdiv.
  destruct x as [sx|sx| |sx mx ex], y as [sy|sy| |sy my ey];
    simpl; intros Hx Hy; subst; simpl; auto.
  destruct (SFdiv_core_binary prec emax (Z.pos mx) ex (Z.pos my) ey)
    as [[mz ez] lz].
  apply binary_round_aux_nonneg.
Qed.

Lemma SFmul_nonneg (x y : spec_float) :
  Binary64.nonneg_or_nan x -> Binary64.nonneg_or_nan y -> Binary64.nonneg_or_nan (SF64mul x y).
Proof.
  unfold SF64mul, SFmul.
  destruct x as [sx|sx| |sx mx ex], y as [sy|sy| |sy my ey];
    simpl; intros Hx Hy; subst; simpl; auto.
  apply binary_round_aux_nonneg.
Qed.

(** A float above zero has the sign bit clear. *)
Lemma SFltb_zero_nonneg (x : spec_float) :
  SFltb (S754_zero false) x = true -> Binary64.nonneg_or_nan x.
Proof.
  unfold SFltb, SFcompare.
  destruct x as [sx|[|]| |[|] mx ex]; simpl; intros Hlt;
    try discriminate; reflexivity.
Qed.

Lemma SFvalue_nonneg (x : spec_float) (q : Q) :
  Binary64.nonneg_or_nan x -> Binary64.SFvalue x = Some q -> (0 <= q)%Q.
Proof.
  destruct x as [sx|sx| |sx mx ex];
    cbn [Binary64.SFvalue Binary64.nonneg_or_nan]; intros Hs Hv;
    try discriminate; injection Hv as <-.
  - apply Qle_refl.
  - subst sx. destruct (0 <=? ex) eqn:E.
    + apply Z.leb_le in E.
      assert (Hpow : 0 < 2 ^ ex) by (apply Z.pow_pos_nonneg; lia).
      unfold Qle, inject_Z. cbn [Qnum Qden].
      destruct (2 ^ ex); lia.
    + unfold Qle. cbn [Qnum Qden]. lia.
Qed.

(** [1.0 / factor * SAMPLE_RATE] is not negative when [factor] is above
    zero. *)
Lemma ratio_samples_nonneg (factor : float) (q : Q) :
  (of_int 0 <? factor)%D = true ->
  dvalue (of_int 1 / factor * of_int SAMPLE_RATE)%D = Some q ->
  (0 <= q)%Q.
Proof.
  cbn [dltb dvalue ddiv dmul of_int binary64]. intros Hpos Hval.
  unfold Binary64.value in Hval.
  apply (SFvalue_nonneg _ q) in Hval; [exact Hval|].
  rewrite FloatAxioms.mul_spec. apply SFmul_nonneg; [|vm_compute; reflexivity].
  rewrite FloatAxioms.div_spec. apply SFdiv_nonneg; [vm_compute; reflexivity|].
  rewrite FloatAxioms.ltb_spec in Hpos. apply SFltb_zero_nonneg. exact Hpos.
Qed.

End Binary64Facts.

(** ** Rounding to nearest in binary64

    What [SpecFloat]'s [binary_round_aux] computes on an exact mantissa, and
    from it the three facts the low-pass filter needs: a rounded value does
    not cross a float, it is within half a unit in the last place, and up to
    [1 + 2^-53] it is at most 1. *)

Module RoundingFacts.
Import Rounding.

Lemma digits2_pos_size (p : positive) : digits2_pos p = Pos.size p.
Proof. induction p; simpl; congruence. Qed.

Lemma digits2_pos_bounds (p : positive) :
  2 ^ (Z.pos (digits2_pos p) - 1) <= Z.pos p < 2 ^ Z.pos (digits2_pos p).
Proof.
  induction p as [p IH|p IH|]; cbn [digits2_pos].
  - rewrite Pos2Z.inj_succ.
    replace (Z.succ (Z.pos (digits2_pos p)) - 1) with (Z.succ (Z.pos (digits2_pos p) - 1)) by lia.
    rewrite !Z.pow_succ_r by lia. lia.
  - rewrite Pos2Z.inj_succ.
    replace (Z.succ (Z.pos (digits2_pos p)) - 1) with (Z.succ (Z.pos (digits2_pos p) - 1)) by lia.
    rewrite !Z.pow_succ_r by lia. lia.
  - simpl. lia.
Qed.

Lemma iter_pos_nat (A : Type) (f : A -> A) (p : positive) :
  forall x : A, iter_pos f p x = Nat.iter (Pos.to_nat p) f x.
Proof.
  induction p as [p IH|p IH|]; intros x; cbn [iter_pos].
  - rewrite !IH. rewrite Pos2Nat.inj_xI.
    replace (S (2 * Pos.to_nat p)) with (Pos.to_nat p + (Pos.to_nat p + 1))%nat by lia.
    rewrite !Nat.iter_add. reflexivity.
  - rewrite !IH. rewrite Pos2Nat.inj_xO.
    replace (2 * Pos.to_nat p)%nat with (Pos.to_nat p + Pos.to_nat p)%nat by lia.
    rewrite Nat.iter_add. reflexivity.
  - reflexivity.
Qed.

Lemma shifted_succ (m : Z) (n : nat) : shifted m (S n) = shr_1 (shifted m n).
Proof. reflexivity. Qed.

Lemma shr_1_m (mrs : shr_record) : 0 <= shr_m mrs -> shr_m (shr_1 mrs) = shr_m mrs / 2.
Proof.
  destruct mrs as [m r s]. cbn [shr_m]. intros Hm.
  destruct m as [|[p|p|]|p]; cbn [shr_1 shr_m].
  - reflexivity.
  - apply Z.div_unique with 1; lia.
  - apply Z.div_unique with 0; lia.
  - reflexivity.
  - lia.
Qed.

Lemma shr_1_r (mrs : shr_record) : 0 <= shr_m mrs -> shr_r (shr_1 mrs) = Z.odd (shr_m mrs).
Proof.
  destruct mrs as [m r s]. cbn [shr_m]. intros Hm.
  destruct m as [|[p|p|]|p]; cbn [shr_1 shr_r]; try reflexivity. lia.
Qed.

Lemma shr_1_s (mrs : shr_record) : shr_s (shr_1 mrs) = shr_r mrs || shr_s mrs.
Proof.
  destruct mrs as [m r s].
  destruct m as [|[p|p|]|[p|p|]]; reflexivity.
Qed.

Lemma mod_pow2_succ (m n : Z) :
  0 <= n -> m mod 2 ^ (n + 1) = m mod 2 ^ n + 2 ^ n * ((m / 2 ^ n) mod 2).
Proof.
  intros Hn. rewrite Z.pow_add_r by lia. change (2 ^ 1) with 2.
  assert (0 < 2 ^ n) by (apply Z.pow_pos_nonneg; lia).
  apply Z.rem_mul_r; lia.
Qed.

Lemma shifted_m (m : Z) (n : nat) :
  0 <= m -> shr_m (shifted m n) = m / 2 ^ Z.of_nat n.
Proof.
  intros Hm. induction n as [|n IH].
  - change (2 ^ Z.of_nat 0) with 1. rewrite Z.div_1_r. reflexivity.
  - rewrite shifted_succ, shr_1_m by (rewrite IH; apply Z.div_pos; lia).
    rewrite IH, Z.div_div by lia.
    rewrite Nat2Z.inj_succ, Z.pow_succ_r by lia. f_equal. lia.
Qed.

Lemma shifted_r (m : Z) (n : nat) :
  0 <= m -> shr_r (shifted m (S n)) = Z.odd (m / 2 ^ Z.of_nat n).
Proof.
  intros Hm. rewrite shifted_succ, shr_1_r, shifted_m by
    (try rewrite shifted_m by lia; try apply Z.div_pos; lia).
  reflexivity.
Qed.

Lemma shifted_rs (m : Z) (n : nat) :
  0 <= m ->
  shr_r (shifted m n) || shr_s (shifted m n) = negb (m mod 2 ^ Z.of_nat n =? 0).
Proof.
  intros Hm. induction n as [|n IH].
  - change (2 ^ Z.of_nat 0) with 1. rewrite Z.mod_1_r. reflexivity.
  - rewrite shifted_r by lia. rewrite shifted_succ, shr_1_s, IH.
    rewrite Nat2Z.inj_succ. unfold Z.succ.
    rewrite (mod_pow2_succ m (Z.of_nat n)) by lia.
    assert (Hp : 0 < 2 ^ Z.of_nat n) by (apply Z.pow_pos_nonneg; lia).
    pose proof (Z.mod_pos_bound m (2 ^ Z.of_nat n) ltac:(lia)) as B.
    rewrite Zmod_odd.
    destruct (Z.odd (m / 2 ^ Z.of_nat n));
      destruct (m mod 2 ^ Z.of_nat n =? 0) eqn:E0; cbn [orb negb];
      symmetry; rewrite ?negb_true_iff, ?negb_false_iff, ?Z.eqb_eq, ?Z.eqb_neq in *;
      lia.
Qed.

Lemma shifted_s (m : Z) (n : nat) :
  0 <= m -> shr_s (shifted m (S n)) = negb (m mod 2 ^ Z.of_nat n =? 0).
Proof.
  intros Hm. rewrite shifted_succ, shr_1_s. apply shifted_rs. exact Hm.
Qed.

Lemma shifted_round (m : Z) (k : nat) :
  0 <= m ->
  round_nearest_even (shr_m (shifted m (S k))) (loc_of_shr_record (shifted m (S k)))
  = rne m (Z.of_nat (S k)).
Proof.
  intros Hm.
  pose proof (shifted_m m (S k) Hm) as Hq.
  pose proof (shifted_r m k Hm) as Hr.
  pose proof (shifted_s m k Hm) as Hs.
  destruct (shifted m (S k)) as [q r s]. cbn [shr_m shr_r shr_s] in *.
  unfold rne. rewrite <- Hq.
  replace (Z.of_nat (S k) - 1) with (Z.of_nat k) by lia.
  rewrite Nat2Z.inj_succ. unfold Z.succ.
  rewrite (mod_pow2_succ m (Z.of_nat k)) by lia.
  assert (Hp : 0 < 2 ^ Z.of_nat k) by (apply Z.pow_pos_nonneg; lia).
  pose proof (Z.mod_pos_bound m (2 ^ Z.of_nat k) ltac:(lia)) as B.
  rewrite Zmod_odd, <- Hr.
  destruct r, s; cbn [loc_of_shr_record round_nearest_even];
    symmetry in Hs; rewrite ?negb_true_iff, ?negb_false_iff, ?Z.eqb_eq, ?Z.eqb_neq in Hs.
  - (* Gt *)
    destruct (_ <? _) eqn:E1; [apply Z.ltb_lt in E1; lia|].
    destruct (2 ^ Z.of_nat k <? _) eqn:E2; [reflexivity|apply Z.ltb_ge in E2; lia].
  - (* Eq *)
    destruct (_ <? _) eqn:E1; [apply Z.ltb_lt in E1; lia|].
    destruct (2 ^ Z.of_nat k <? _) eqn:E2; [apply Z.ltb_lt in E2; lia|reflexivity].
  - (* Lt *)
    destruct (_ <? _) eqn:E1; [reflexivity|apply Z.ltb_ge in E1; lia].
  - destruct (_ <? _) eqn:E1; [reflexivity|apply Z.ltb_ge in E1; lia].
Qed.

Lemma rne_bounds (m n : Z) :
  0 <= m -> 0 < n ->
  m / 2 ^ n <= rne m n <= m / 2 ^ n + 1
  /\ 2 * (rne m n * 2 ^ n) <= 2 * m + 2 ^ n
  /\ 2 * m <= 2 * (rne m n * 2 ^ n) + 2 ^ n
  /\ (m mod 2 ^ n = 0 -> rne m n = m / 2 ^ n)
  /\ (2 * (m mod 2 ^ n) = 2 ^ n -> Z.even (m / 2 ^ n) = true -> rne m n = m / 2 ^ n)
  /\ (2 * (m mod 2 ^ n) < 2 ^ n -> rne m n = m / 2 ^ n).
Proof.
  intros Hm Hn. unfold rne.
  assert (Hp : 0 < 2 ^ (n - 1)) by (apply Z.pow_pos_nonneg; lia).
  assert (P2 : 2 ^ n = 2 * 2 ^ (n - 1)).
  { replace n with (Z.succ (n - 1)) at 1 by lia. apply Z.pow_succ_r. lia. }
  pose proof (Z.div_mod m (2 ^ n) ltac:(lia)) as Dm.
  pose proof (Z.mod_pos_bound m (2 ^ n) ltac:(lia)) as B.
  set (q := m / 2 ^ n) in *. set (rem := m mod 2 ^ n) in *.
  destruct (rem <? 2 ^ (n - 1)) eqn:E1;
    [apply Z.ltb_lt in E1 | apply Z.ltb_ge in E1].
  - repeat split; try lia; try nia.
  - destruct (2 ^ (n - 1) <? rem) eqn:E2;
      [apply Z.ltb_lt in E2 | apply Z.ltb_ge in E2].
    + repeat split; try lia; try nia.
    + destruct (Z.even q) eqn:Ev; repeat split; try lia; try nia; try congruence.
Qed.

(** Rounding does not cross a multiple of the grid. *)

Lemma rne_le_multiple (m n k : Z) :
  0 <= m -> 0 < n -> m <= k * 2 ^ n -> rne m n <= k.
Proof.
  intros Hm Hn Hk.
  destruct (rne_bounds m n Hm Hn) as (Hb & _ & _ & Hex & _).
  assert (Hp : 0 < 2 ^ n) by (apply Z.pow_pos_nonneg; lia).
  pose proof (Z.div_mod m (2 ^ n) ltac:(lia)) as Dm.
  pose proof (Z.mod_pos_bound m (2 ^ n) ltac:(lia)) as B.
  destruct (Z.eq_dec (m mod 2 ^ n) 0) as [E|E].
  - rewrite (Hex E). nia.
  - assert (m / 2 ^ n < k) by nia. lia.
Qed.

Lemma fexp_unfold (e : Z) : fexp prec emax e = Z.max (e - 53) (-1074).
Proof. reflexivity. Qed.

Lemma shr_fexp_exact (m ex : Z) :
  0 <= m ->
  shr_fexp prec emax m ex loc_Exact =
  let n := fexp prec emax (Zdigits2 m + ex) - ex in
  if 0 <? n then (shifted m (Z.to_nat n), ex + n)
  else ({| shr_m := m; shr_r := false; shr_s := false |}, ex).
Proof.
  intros Hm. unfold shr_fexp, shr. cbn [shr_record_of_loc].
  destruct (fexp prec emax (Zdigits2 m + ex) - ex) as [|pn|pn] eqn:En; cbn zeta.
  - reflexivity.
  - rewrite iter_pos_nat. reflexivity.
  - reflexivity.
Qed.

Lemma pow2_lt_inv (a b : Z) : 0 <= b -> 2 ^ a < 2 ^ b -> a < b.
Proof.
  intros Hb H. destruct (Z_lt_le_dec a b) as [L|L]; [exact L|].
  exfalso. assert (2 ^ b <= 2 ^ a) by (apply Z.pow_le_mono_r; lia). lia.
Qed.

Lemma digits_le (p : positive) (k : Z) :
  0 <= k -> Z.pos p < 2 ^ k -> Z.pos (digits2_pos p) <= k.
Proof.
  intros Hk H. pose proof (digits2_pos_bounds p) as [L _].
  assert (2 ^ (Z.pos (digits2_pos p) - 1) < 2 ^ k) by lia.
  apply pow2_lt_inv in H0; lia.
Qed.

(** The value of a rounded exact mantissa. *)

Lemma round_aux_mag_below (K B : Z) (sx : bool) (p : positive) (ex : Z) :
  0 <= K -> - K <= ex -> 0 <= B <= 972 ->
  Z.pos p * 2 ^ (ex + K) < 2 ^ (K + B) ->
  let r := binary_round_aux prec emax sx (Z.pos p) ex loc_Exact in
  finite_signed sx r
  /\ mag K r =
     if 0 <? round_exp p ex - ex
     then rne (Z.pos p) (round_exp p ex - ex) * 2 ^ (round_exp p ex + K)
     else Z.pos p * 2 ^ (ex + K).
Proof.
  intros HK0 HK HB Hval r. subst r.
  pose proof (digits2_pos_bounds p) as [DL DU].
  set (d := Z.pos (digits2_pos p)) in *.
  assert (Hd : d + ex <= B).
  { assert (Hlt : 2 ^ (d - 1 + (ex + K)) < 2 ^ (K + B)).
    { rewrite Z.pow_add_r by lia.
      assert (0 < 2 ^ (ex + K)) by (apply Z.pow_pos_nonneg; lia). nia. }
    apply pow2_lt_inv in Hlt; lia. }
  unfold binary_round_aux. rewrite shr_fexp_exact by lia.
  change (Zdigits2 (Z.pos p)) with d. fold (round_exp p ex).
  unfold round_exp. fold d. rewrite fexp_unfold.
  set (fe := Z.max (d + ex - 53) (-1074)).
  cbn zeta.
  destruct (0 <? fe - ex) eqn:En; [apply Z.ltb_lt in En | apply Z.ltb_ge in En].
  - (* shift *)
    replace (ex + (fe - ex)) with fe by lia.
    destruct (Z.to_nat (fe - ex)) as [|k] eqn:Ek; [lia|].
    rewrite shifted_round by lia. rewrite <- Ek, Z2Nat.id by lia.
    set (n := fe - ex) in *.
    destruct (rne_bounds (Z.pos p) n ltac:(lia) ltac:(lia)) as (Hb & _).
    set (m1 := rne (Z.pos p) n) in *.
    assert (Hq : 0 <= Z.pos p / 2 ^ n) by (apply Z.div_pos; [lia|apply Z.pow_pos_nonneg; lia]).
    assert (Hq53 : Z.pos p / 2 ^ n < 2 ^ 53).
    { apply Z.div_lt_upper_bound; [apply Z.pow_pos_nonneg; lia|].
      rewrite <- Z.pow_add_r by lia.
      apply Z.lt_le_trans with (2 ^ d); [lia|].
      apply Z.pow_le_mono_r; lia. }
    rewrite shr_fexp_exact by lia. rewrite fexp_unfold. cbn zeta.
    destruct (Z.eq_dec m1 (2 ^ 53)) as [E53|N53].
    + rewrite E53. change (Zdigits2 (2 ^ 53)) with 54.
      replace (Z.max (54 + fe - 53) (-1074) - fe) with 1 by lia.
      cbn [Z.ltb Z.compare Z.to_nat Pos.to_nat Pos.iter_op].
      change (shr_m (shifted (2 ^ 53) (Pos.to_nat 1)))
        with (Z.pos (2 ^ 52)%positive).
      cbn iota.
      destruct (fe + 1 <=? emax - prec) eqn:Eo;
        [|apply Z.leb_gt in Eo; change (emax - prec) with 971 in Eo; lia].
      split; [split; [reflexivity|lia]|].
      cbn [mag]. change (Z.pos (2 ^ 52)%positive) with (2 ^ 52).
      replace (fe + 1 + K) with (1 + (fe + K)) by lia.
      rewrite (Z.pow_add_r 2 1) by lia. change (2 ^ 1) with 2. change (2^53) with (2 * 2^52). lia.
    + assert (Hm1 : 0 <= m1 < 2 ^ 53) by lia.
      assert (Hn2 : Z.max (Zdigits2 m1 + fe - 53) (-1074) - fe <= 0).
      { destruct m1 as [|q|q]; [cbn [Zdigits2]; lia| |lia].
        cbn [Zdigits2]. pose proof (digits_le q 53 ltac:(lia) ltac:(lia)). lia. }
      destruct (0 <? _) eqn:E2; [apply Z.ltb_lt in E2; lia|].
      cbn [shr_m].
      destruct m1 as [|q|q]; [| |lia].
      * split; [reflexivity|]. cbn [mag]. lia.
      * destruct (fe <=? emax - prec) eqn:Eo;
          [|apply Z.leb_gt in Eo; change (emax - prec) with 971 in Eo; lia].
        split; [split; [reflexivity|lia]|]. reflexivity.
  - (* no shift *)
    cbn [shr_m shr_r shr_s loc_of_shr_record round_nearest_even].
    rewrite shr_fexp_exact by lia.
    change (Zdigits2 (Z.pos p)) with d. rewrite fexp_unfold. fold fe. cbn zeta.
    destruct (0 <? fe - ex) eqn:E2; [apply Z.ltb_lt in E2; lia|].
    cbn [shr_m].
    destruct (ex <=? emax - prec) eqn:Eo;
      [|apply Z.leb_gt in Eo; change (emax - prec) with 971 in Eo; lia].
    split; [split; [reflexivity|lia]|reflexivity].
Qed.

Lemma round_aux_mag (K : Z) (sx : bool) (p : positive) (ex : Z) :
  0 <= K -> - K <= ex ->
  Z.pos p * 2 ^ (ex + K) < 2 ^ (K + 2) ->
  let r := binary_round_aux prec emax sx (Z.pos p) ex loc_Exact in
  finite_signed sx r
  /\ mag K r =
     if 0 <? round_exp p ex - ex
     then rne (Z.pos p) (round_exp p ex - ex) * 2 ^ (round_exp p ex + K)
     else Z.pos p * 2 ^ (ex + K).
Proof.
  intros HK0 HK Hval. apply (round_aux_mag_below K 2); try assumption. lia.
Qed.

Lemma canonical_exp (m : positive) (e : Z) :
  canonical_mantissa prec emax m e = true ->
  e = Z.max (Z.pos (digits2_pos m) + e - 53) (-1074).
Proof.
  unfold canonical_mantissa. rewrite fexp_unfold. intros H.
  apply Z.eqb_eq in H. lia.
Qed.

Lemma pow2_split (a b : Z) : 0 <= a -> 0 <= b -> 2 ^ (a + b) = 2 ^ a * 2 ^ b.
Proof. intros. apply Z.pow_add_r; lia. Qed.

(** Rounding does not cross a float. *)

Lemma rounded_le_float_below (K B : Z) (sx : bool) (p : positive) (ex : Z)
    (mu : positive) (eu : Z) :
  1074 <= K -> - K <= ex -> 0 <= B <= 972 ->
  Z.pos p * 2 ^ (ex + K) < 2 ^ (K + B) ->
  canonical_mantissa prec emax mu eu = true ->
  Z.pos p * 2 ^ (ex + K) <= Z.pos mu * 2 ^ (eu + K) ->
  mag K (binary_round_aux prec emax sx (Z.pos p) ex loc_Exact) <=
    Z.pos mu * 2 ^ (eu + K).
Proof.
  intros HK Hex HB Hval Hcan HVU.
  destruct (round_aux_mag_below K B sx p ex ltac:(lia) Hex HB Hval)
    as [_ Hmag].
  rewrite Hmag. clear Hmag.
  destruct (0 <? round_exp p ex - ex) eqn:En;
    [apply Z.ltb_lt in En | exact HVU].
  unfold round_exp in *. rewrite fexp_unfold in *.
  pose proof (canonical_exp mu eu Hcan) as Heu.
  pose proof (digits2_pos_bounds p) as [DL DU].
  pose proof (digits2_pos_bounds mu) as [UL UU].
  set (d := Z.pos (digits2_pos p)) in *.
  set (du := Z.pos (digits2_pos mu)) in *.
  set (fe := Z.max (d + ex - 53) (-1074)) in *.
  assert (HeuK : - K <= eu) by lia.
  assert (Hdd : d + ex <= du + eu).
  { assert (Hlt : 2 ^ (d - 1 + (ex + K)) < 2 ^ (du + (eu + K))).
    { rewrite (pow2_split (d - 1) (ex + K)), (pow2_split du (eu + K))
        by (unfold d, du; lia).
      assert (0 < 2 ^ (ex + K)) by (apply Z.pow_pos_nonneg; lia).
      assert (0 < 2 ^ (eu + K)) by (apply Z.pow_pos_nonneg; lia).
      assert (2 ^ (d - 1) * 2 ^ (ex + K) <= Z.pos p * 2 ^ (ex + K))
        by (apply Z.mul_le_mono_nonneg_r; lia).
      assert (Z.pos mu * 2 ^ (eu + K) < 2 ^ du * 2 ^ (eu + K))
        by (apply Z.mul_lt_mono_pos_r; lia).
      lia. }
    apply pow2_lt_inv in Hlt; lia. }
  assert (Hfe : fe <= eu) by lia.
  set (n := fe - ex) in *.
  assert (E1 : 2 ^ (fe + K) = 2 ^ n * 2 ^ (ex + K)).
  { rewrite <- pow2_split by lia. f_equal. lia. }
  assert (E2 : 2 ^ (eu + K) = 2 ^ (eu - fe) * 2 ^ (fe + K)).
  { rewrite <- pow2_split by lia. f_equal. lia. }
  assert (Hp1 : 0 < 2 ^ (ex + K)) by (apply Z.pow_pos_nonneg; lia).
  assert (Hp2 : 0 < 2 ^ n) by (apply Z.pow_pos_nonneg; lia).
  assert (Hp3 : 0 < 2 ^ (eu - fe)) by (apply Z.pow_pos_nonneg; lia).
  assert (Hk : rne (Z.pos p) n <= Z.pos mu * 2 ^ (eu - fe)).
  { apply rne_le_multiple; [lia | lia |].
    rewrite E2, E1 in HVU.
    apply (Z.mul_le_mono_pos_r _ _ (2 ^ (ex + K))); [lia|]. lia. }
  rewrite E2, Z.mul_assoc.
  apply Z.mul_le_mono_nonneg_r; [|exact Hk].
  apply Z.pow_nonneg. lia.
Qed.

Section Rounded.

Variables (K : Z) (sx : bool) (p : positive) (ex : Z).

Hypothesis HK : 1074 <= K.

Hypothesis Hex : - K <= ex.

Hypothesis Hval : Z.pos p * 2 ^ (ex + K) < 2 ^ (K + 2).

Let r := binary_round_aux prec emax sx (Z.pos p) ex loc_Exact.

Let V := Z.pos p * 2 ^ (ex + K).

Lemma rounded_signed : finite_signed sx r.
Proof. apply (round_aux_mag K sx p ex); lia. Qed.

Lemma rounded_le_float (mu : positive) (eu : Z) :
  canonical_mantissa prec emax mu eu = true ->
  V <= Z.pos mu * 2 ^ (eu + K) ->
  mag K r <= Z.pos mu * 2 ^ (eu + K).
Proof.
  intros Hcan HVU.
  apply (rounded_le_float_below K 2); try assumption. lia.
Qed.

(** Below 2 the rounding error is at most [2^-53]. *)

Lemma rounded_error :
  V < 2 ^ (K + 1) ->
  mag K r - 2 ^ (K - 53) <= V <= mag K r + 2 ^ (K - 53).
Proof.
  intros HV2.
  destruct (round_aux_mag K sx p ex ltac:(lia) Hex Hval) as [_ Hmag].
  fold r in Hmag. rewrite Hmag. clear Hmag.
  destruct (0 <? round_exp p ex - ex) eqn:En;
    [apply Z.ltb_lt in En |
     fold V; assert (0 < 2 ^ (K - 53)) by (apply Z.pow_pos_nonneg; lia); lia].
  unfold round_exp in *. rewrite fexp_unfold in *.
  pose proof (digits2_pos_bounds p) as [DL DU].
  set (d := Z.pos (digits2_pos p)) in *.
  set (fe := Z.max (d + ex - 53) (-1074)) in *.
  assert (Hp1 : 0 < 2 ^ (ex + K)) by (apply Z.pow_pos_nonneg; lia).
  assert (Hd : d + ex <= 1).
  { assert (Hlt : 2 ^ (d - 1 + (ex + K)) < 2 ^ (K + 1)).
    { rewrite (pow2_split (d - 1) (ex + K)) by (unfold d; lia).
      unfold V in HV2.
      assert (2 ^ (d - 1) * 2 ^ (ex + K) <= Z.pos p * 2 ^ (ex + K))
        by (apply Z.mul_le_mono_nonneg_r; lia).
      lia. }
    apply pow2_lt_inv in Hlt; lia. }
  assert (Hfe : fe <= -52) by lia.
  set (n := fe - ex) in *.
  assert (E1 : 2 ^ (fe + K) = 2 ^ n * 2 ^ (ex + K)).
  { rewrite <- pow2_split by lia. f_equal. lia. }
  assert (E3 : 2 * 2 ^ (K - 53) = 2 ^ (-52 - fe) * 2 ^ (fe + K)).
  { rewrite <- pow2_split by lia. replace (-52 - fe + (fe + K)) with (Z.succ (K - 53)) by lia.
    rewrite Z.pow_succ_r by lia. reflexivity. }
  assert (Hp4 : 0 < 2 ^ (-52 - fe)) by (apply Z.pow_pos_nonneg; lia).
  assert (Hp5 : 0 < 2 ^ (fe + K)) by (apply Z.pow_pos_nonneg; lia).
  destruct (rne_bounds (Z.pos p) n ltac:(lia) ltac:(lia)) as (_ & B1 & B2 & _).
  fold V. unfold V. rewrite E1 in *.
  set (R := rne (Z.pos p) n) in *.
  set (N := 2 ^ n) in *. set (A := 2 ^ (ex + K)) in *.
  set (G := 2 ^ (-52 - fe)) in *. set (H := 2 ^ (K - 53)) in *.
  assert (1 <= G) by lia.
  assert (N * A <= 2 * H) by nia.
  split; nia.
Qed.

End Rounded.

(** Up to [1 + 2^-53] the rounded value is at most 1. *)

Lemma rounded_le_one (K : Z) (sx : bool) (p : positive) (ex : Z) :
  1074 <= K -> - K <= ex ->
  Z.pos p * 2 ^ (ex + K) <= 2 ^ K + 2 ^ (K - 53) ->
  mag K (binary_round_aux prec emax sx (Z.pos p) ex loc_Exact) <= 2 ^ K.
Proof.
  intros HK Hex HV.
  assert (PK : 2 ^ K = 2 ^ 53 * 2 ^ (K - 53)).
  { rewrite <- pow2_split by lia. f_equal. lia. }
  assert (PK1 : 2 ^ (K + 1) = 2 * 2 ^ K).
  { replace (K + 1) with (Z.succ K) by lia. apply Z.pow_succ_r. lia. }
  assert (PK2 : 2 ^ (K + 2) = 2 * 2 ^ (K + 1)).
  { replace (K + 2) with (Z.succ (K + 1)) by lia. apply Z.pow_succ_r. lia. }
  assert (PH : 0 < 2 ^ (K - 53)) by (apply Z.pow_pos_nonneg; lia).
  change (2 ^ 53) with 9007199254740992 in PK.
  assert (Hval : Z.pos p * 2 ^ (ex + K) < 2 ^ (K + 2)) by lia.
  destruct (Z_le_gt_dec (Z.pos p * 2 ^ (ex + K)) (2 ^ K)) as [Hle|Hgt].
  - (* at most 1: the float 1.0 bounds it *)
    replace (2 ^ K) with (Z.pos (2 ^ 52)%positive * 2 ^ (-52 + K)).
    + apply rounded_le_float; try assumption; [reflexivity|].
      replace (Z.pos (2 ^ 52)%positive * 2 ^ (-52 + K)) with (2 ^ K); [exact Hle|].
      change (Z.pos (2 ^ 52)%positive) with (2 ^ 52).
      rewrite <- pow2_split by lia. f_equal. lia.
    + change (Z.pos (2 ^ 52)%positive) with (2 ^ 52).
      rewrite <- pow2_split by lia. f_equal. lia.
  - (* strictly between 1 and 1 + 2^-53 *)
    destruct (round_aux_mag K sx p ex ltac:(lia) Hex Hval) as [_ Hmag].
    rewrite Hmag. clear Hmag.
    unfold round_exp. rewrite fexp_unfold.
    pose proof (digits2_pos_bounds p) as [DL DU].
    set (d := Z.pos (digits2_pos p)) in *.
    assert (Hp1 : 0 < 2 ^ (ex + K)) by (apply Z.pow_pos_nonneg; lia).
    assert (Hd1 : d + ex <= 1).
    { assert (Hlt : 2 ^ (d - 1 + (ex + K)) < 2 ^ (K + 1)).
      { rewrite (pow2_split (d - 1) (ex + K)) by (unfold d; lia).
        assert (2 ^ (d - 1) * 2 ^ (ex + K) <= Z.pos p * 2 ^ (ex + K))
          by (apply Z.mul_le_mono_nonneg_r; lia).
        lia. }
      apply pow2_lt_inv in Hlt; lia. }
    assert (Hd2 : 1 <= d + ex).
    { assert (Hlt : 2 ^ K < 2 ^ (d + (ex + K))).
      { rewrite (pow2_split d (ex + K)) by (unfold d; lia).
        assert (Z.pos p * 2 ^ (ex + K) < 2 ^ d * 2 ^ (ex + K))
          by (apply Z.mul_lt_mono_pos_r; lia).
        lia. }
      apply pow2_lt_inv in Hlt; lia. }
    replace (Z.max (d + ex - 53) (-1074)) with (-52) by lia.
    assert (E52 : 2 ^ K = 2 ^ 52 * 2 ^ (-52 + K)).
    { rewrite <- pow2_split by lia. f_equal. lia. }
    assert (EH : 2 ^ (-52 + K) = 2 * 2 ^ (K - 53)).
    { replace (-52 + K) with (Z.succ (K - 53)) by lia. apply Z.pow_succ_r. lia. }
    change (2 ^ 52) with 4503599627370496 in E52.
    destruct (0 <? -52 - ex) eqn:En;
      [apply Z.ltb_lt in En | apply Z.ltb_ge in En].
    + set (n := -52 - ex) in *.
      assert (E1 : 2 ^ (-52 + K) = 2 ^ n * 2 ^ (ex + K)).
      { rewrite <- pow2_split by lia. f_equal. lia. }
      assert (Hp2 : 0 < 2 ^ n) by (apply Z.pow_pos_nonneg; lia).
      pose proof (Z.div_mod (Z.pos p) (2 ^ n) ltac:(lia)) as Dm.
      pose proof (Z.mod_pos_bound (Z.pos p) (2 ^ n) ltac:(lia)) as B.
      destruct (rne_bounds (Z.pos p) n ltac:(lia) ltac:(lia))
        as (_ & _ & _ & _ & Htie & Hlow).
      set (q := Z.pos p / 2 ^ n) in *. set (rem := Z.pos p mod 2 ^ n) in *.
      set (N := 2 ^ n) in *. set (A := 2 ^ (ex + K)) in *.
      set (H := 2 ^ (K - 53)) in *.
      (* p * A > 2^52 * N * A and 2 * p * A <= (2^53 + 1) * N * A *)
      assert (L1 : 4503599627370496 * N < Z.pos p).
      { apply (Z.mul_lt_mono_pos_r A); [exact Hp1|].
        replace (4503599627370496 * N * A)
          with (4503599627370496 * (N * A)) by ring. lia. }
      assert (L2 : 2 * Z.pos p <= 9007199254740993 * N).
      { apply (Z.mul_le_mono_pos_r _ _ A); [exact Hp1|].
        replace (9007199254740993 * N * A)
          with (9007199254740993 * (N * A)) by ring.
        replace (2 * Z.pos p * A) with (2 * (Z.pos p * A)) by ring. lia. }
      assert (Hq : q = 4503599627370496).
      { assert (Hlo : 4503599627370496 < q + 1).
        { apply (Z.mul_lt_mono_pos_l N); [exact Hp2|]. lia. }
        assert (Hhi : 2 * q < 9007199254740994).
        { apply (Z.mul_lt_mono_pos_l N); [exact Hp2|]. lia. }
        lia. }
      assert (Hrem : 2 * rem <= N) by lia.
      assert (Hrne : rne (Z.pos p) n = q).
      { destruct (Z.eq_dec (2 * rem) N) as [Et|Nt].
        - apply Htie; [exact Et|]. rewrite Hq. reflexivity.
        - apply Hlow. lia. }
      rewrite Hrne, Hq. lia.
    + exfalso.
      (* the value is a multiple of 2^(K-52) strictly between 1 and 1 + 2^-52 *)
      assert (E1 : 2 ^ (ex + K) = 2 ^ (ex + 52) * 2 ^ (-52 + K)).
      { rewrite <- pow2_split by lia. f_equal. lia. }
      assert (Hp2 : 0 < 2 ^ (ex + 52)) by (apply Z.pow_pos_nonneg; lia).
      set (G := 2 ^ (-52 + K)) in *. set (M := 2 ^ (ex + 52)) in *.
      set (H := 2 ^ (K - 53)) in *.
      rewrite E1 in *.
      assert (4503599627370496 < Z.pos p * M) by nia.
      assert (Z.pos p * M < 4503599627370497) by nia.
      lia.
Qed.

Lemma iter_xO (p d : positive) : Z.pos (Pos.iter xO p d) = Z.pos p * 2 ^ Z.pos d.
Proof.
  induction d as [|d IH] using Pos.peano_ind.
  - cbn [Pos.iter]. lia.
  - rewrite Pos.iter_succ, Pos2Z.inj_xO, IH, Pos2Z.inj_succ, Z.pow_succ_r by lia.
    lia.
Qed.

Lemma shl_align_value (m : positive) (e e' k : Z) :
  - k <= e -> - k <= e' ->
  Z.pos (fst (shl_align m e e')) * 2 ^ (snd (shl_align m e e') + k)
  = Z.pos m * 2 ^ (e + k)
  /\ snd (shl_align m e e') = Z.min e e'.
Proof.
  intros He He'. unfold shl_align.
  destruct (e' - e) as [|d|d] eqn:Ed; cbn [fst snd];
    try pose proof (Pos2Z.is_pos d); try pose proof (Pos2Z.neg_is_neg d).
  - split. reflexivity. lia.
  - split. reflexivity. lia.
  - rewrite iter_xO. split. 2: lia.
    replace (e + k) with (Z.pos d + (e' + k)) by lia.
    rewrite (pow2_split (Z.pos d) (e' + k)) by lia. lia.
Qed.

Lemma mag_sval_pos (m : positive) (e : Z) (s : bool) :
  mag 1074 (S754_finite s m e) = Z.pos m * 2 ^ (e + 1074).
Proof. reflexivity. Qed.

Lemma sval_mag (s : bool) (r : spec_float) :
  finite_signed s r ->
  sval r = (if s then -1 else 1) * mag 1074 r /\ is_fin r /\ 0 <= mag 1074 r.
Proof.
  destruct r as [s'| | |s' m e]; cbn [finite_signed sval mag is_fin];
    try contradiction.
  - intros _. destruct s; repeat split; lia.
  - intros [-> He]. repeat split; lia.
Qed.

(** [binary_round] of an exact positive mantissa. *)

Lemma round_spec (s : bool) (pm : positive) (e : Z) :
  -1074 <= e ->
  Z.pos pm * 2 ^ (e + 1074) < 4 * One ->
  let r := binary_round prec emax s pm e in
  let V := Z.pos pm * 2 ^ (e + 1074) in
  finite_signed s r
  /\ (V <= 2 * One -> mag 1074 r <= V + Half_ulp)
  /\ (V <= One + Half_ulp -> mag 1074 r <= One).
Proof.
  intros He HV r V.
  assert (HH : 0 < Half_ulp) by reflexivity.
  assert (HO : 0 < One) by reflexivity.
  subst r. unfold binary_round.
  set (e' := fexp prec emax (Z.pos (digits2_pos pm) + e)).
  assert (He' : -1074 <= e') by (unfold e'; rewrite fexp_unfold; lia).
  destruct (shl_align_value pm e e' 1074 ltac:(lia) ltac:(lia)) as [Hv He2].
  destruct (shl_align pm e e') as [mz ez]. cbn [fst snd] in Hv, He2.
  assert (Hez : -1074 <= ez) by lia.
  assert (HV' : Z.pos mz * 2 ^ (ez + 1074) < 2 ^ (1074 + 2))
    by (rewrite Hv; exact HV).
  pose proof (rounded_signed 1074 s mz ez ltac:(lia) ltac:(lia) HV') as Hs.
  pose proof (rounded_error 1074 s mz ez ltac:(lia) ltac:(lia) HV') as Herr.
  pose proof (rounded_le_one 1074 s mz ez ltac:(lia) ltac:(lia)) as Hone.
  pose proof (rounded_le_float 1074 s mz ez ltac:(lia) ltac:(lia) HV'
                (2 ^ 52)%positive (-51) eq_refl) as Htwo.
  rewrite Hv in Herr, Hone, Htwo. fold V in Herr, Hone, Htwo.
  change (2 ^ (1074 - 53)) with Half_ulp in *.
  change (2 ^ 1074) with One in *.
  change (Z.pos (2 ^ 52) * 2 ^ (-51 + 1074)) with (2 * One) in Htwo.
  change (2 ^ (1074 + 1)) with (2 * One) in *.
  split; [exact Hs|]. split.
  - intros HV2. destruct (Z.eq_dec V (2 * One)) as [E|N].
    + specialize (Htwo ltac:(lia)). lia.
    + specialize (Herr ltac:(lia)). lia.
  - exact Hone.
Qed.

(** [binary_normalize] of an exact integer mantissa [m] at exponent [e]. *)

Lemma normalize_spec (m e : Z) :
  -1074 <= e ->
  Z.abs m * 2 ^ (e + 1074) < 4 * One ->
  let r := binary_normalize prec emax m e false in
  let V := Z.abs m * 2 ^ (e + 1074) in
  is_fin r
  /\ (0 <= m -> 0 <= sval r) /\ (m <= 0 -> sval r <= 0)
  /\ (V <= 2 * One -> Z.abs (sval r) <= V + Half_ulp)
  /\ (V <= One + Half_ulp -> Z.abs (sval r) <= One).
Proof.
  intros He HV r V.
  assert (HH : 0 < Half_ulp) by reflexivity.
  assert (HO : 0 < One) by reflexivity.
  destruct m as [|pm|pm].
  - subst r V. cbn. repeat split; lia.
  - destruct (round_spec false pm e He HV) as (Hs & H2 & H1).
    destruct (sval_mag false _ Hs) as (Hsv & Hfin & Hpos).
    subst r. cbn [binary_normalize]. rewrite Hsv.
    change (Z.abs (Z.pos pm)) with (Z.pos pm) in *. fold V in H2, H1.
    pose proof (Pos2Z.is_pos pm).
    repeat split; try assumption; intros; try specialize (H2 ltac:(assumption));
      try specialize (H1 ltac:(assumption)); lia.
  - destruct (round_spec true pm e He HV) as (Hs & H2 & H1).
    destruct (sval_mag true _ Hs) as (Hsv & Hfin & Hpos).
    subst r. cbn [binary_normalize]. rewrite Hsv.
    change (Z.abs (Z.neg pm)) with (Z.pos pm) in *. fold V in H2, H1.
    pose proof (Pos2Z.neg_is_neg pm).
    repeat split; try assumption; intros; try specialize (H2 ltac:(assumption));
      try specialize (H1 ltac:(assumption)); lia.
Qed.

Lemma vfin_of_valid (f : spec_float) :
  valid_binary f = true -> is_fin f -> vfin f.
Proof.
  destruct f as [s| | |s m e]; cbn [valid_binary is_fin vfin]; auto.
  unfold bounded. intros H _. apply andb_prop in H. apply H.
Qed.

Lemma vfin_exp (s : bool) (m : positive) (e : Z) :
  vfin (S754_finite s m e) ->
  -1074 <= e /\ Z.pos m < 2 ^ 53 /\ (-1074 < e -> 2 ^ 52 <= Z.pos m).
Proof.
  cbn [vfin]. intros H. apply canonical_exp in H.
  pose proof (digits2_pos_bounds m) as [DL DU].
  set (d := Z.pos (digits2_pos m)) in *.
  assert (Hd : d <= 53) by lia.
  split; [lia|]. split.
  - apply Z.lt_le_trans with (2 ^ d); [lia|]. apply Z.pow_le_mono_r; lia.
  - intros He. assert (d = 53) by lia. subst d. rewrite H0 in DL. exact DL.
Qed.

(** Comparison with 1.0. *)

Lemma SFleb_one (x : spec_float) :
  vfin x -> (SFleb x SFone = true <-> sval x <= One).
Proof.
  destruct x as [s| | |s m e]; cbn [vfin]; try contradiction; intros Hv.
  - cbn. split; [intros _; unfold One; lia|reflexivity].
  - destruct (vfin_exp s m e Hv) as (He & Hm53 & Hm52).
    unfold SFleb, SFcompare, SFone. cbn [sval].
    assert (HO : One = 2 ^ 52 * 2 ^ 1022) by reflexivity.
    destruct s.
    + split; [intros _|reflexivity].
      assert (0 <= 2 ^ (e + 1074)) by (apply Z.pow_nonneg; lia).
      pose proof (Pos2Z.is_pos m). unfold One. nia.
    + rewrite Z.mul_1_l.
      destruct (Z.compare_spec e (-52)) as [E|L|G].
      * subst e. change (2 ^ (-52 + 1074)) with (2 ^ 1022). rewrite HO.
        rewrite Pos.compare_cont_spec. cbn [Pos.switch_Eq].
        rewrite Pos2Z.inj_compare.
        change (2 ^ 52) with 4503599627370496.
        assert (0 < 2 ^ 1022) by reflexivity.
        destruct (Z.compare_spec (Z.pos m) 4503599627370496); split; intros;
          try reflexivity; try discriminate; nia.
      * split; [intros _|reflexivity].
        assert (2 ^ (e + 1074) <= 2 ^ 1021) by (apply Z.pow_le_mono_r; lia).
        assert (0 < 2 ^ (e + 1074)) by (apply Z.pow_pos_nonneg; lia).
        change One with (2 ^ 53 * 2 ^ 1021). nia.
      * split; [discriminate|]. intros Hle. exfalso.
        specialize (Hm52 ltac:(lia)).
        assert (2 ^ 1023 <= 2 ^ (e + 1074)) by (apply Z.pow_le_mono_r; lia).
        change One with (2 ^ 51 * 2 ^ 1023) in Hle.
        assert (0 < 2 ^ 1023) by reflexivity. nia.
Qed.

(** Comparison with -1.0. *)

Lemma SFleb_mone (x : spec_float) :
  vfin x -> (SFleb SFmone x = true <-> - One <= sval x).
Proof.
  destruct x as [s| | |s m e]; cbn [vfin]; try contradiction; intros Hv.
  - cbn. split; [intros _; unfold One; lia|reflexivity].
  - destruct (vfin_exp s m e Hv) as (He & Hm53 & Hm52).
    unfold SFleb, SFcompare, SFmone. cbn [sval].
    assert (HO : One = 2 ^ 52 * 2 ^ 1022) by reflexivity.
    destruct s.
    + destruct (Z.compare_spec (-52) e) as [E|L|G].
      * subst e. change (2 ^ (-52 + 1074)) with (2 ^ 1022). rewrite HO.
        rewrite Pos.compare_cont_spec. cbn [Pos.switch_Eq].
        rewrite Pos2Z.inj_compare.
        change (2 ^ 52) with 4503599627370496.
        assert (0 < 2 ^ 1022) by reflexivity.
        destruct (Z.compare_spec 4503599627370496 (Z.pos m)); cbn [CompOpp];
          split; intros; try reflexivity; try discriminate; nia.
      * split; [discriminate|]. intros Hle. exfalso.
        specialize (Hm52 ltac:(lia)).
        assert (2 ^ 1023 <= 2 ^ (e + 1074)) by (apply Z.pow_le_mono_r; lia).
        change One with (2 ^ 51 * 2 ^ 1023) in Hle.
        assert (0 < 2 ^ 1023) by reflexivity. nia.
      * split; [intros _|reflexivity].
        assert (2 ^ (e + 1074) <= 2 ^ 1021) by (apply Z.pow_le_mono_r; lia).
        assert (0 < 2 ^ (e + 1074)) by (apply Z.pow_pos_nonneg; lia).
        change One with (2 ^ 53 * 2 ^ 1021). nia.
    + split; [intros _|reflexivity].
      assert (0 <= 2 ^ (e + 1074)) by (apply Z.pow_nonneg; lia).
      pose proof (Pos2Z.is_pos m). unfold One. nia.
Qed.

(** What the comparisons say about a float that may be anything. *)

Lemma SFleb_one_inv (x : spec_float) :
  valid_binary x = true ->
  SFleb SFmone x = true -> SFleb x SFone = true ->
  vfin x /\ - One <= sval x <= One.
Proof.
  intros Hvalid Hlo Hhi.
  assert (Hfin : is_fin x).
  { destruct x as [s|s| |s m e]; cbn [is_fin]; auto.
    - destruct s; cbn in Hlo, Hhi; discriminate.
    - cbn in Hlo. discriminate.
    - cbn [valid_binary] in Hvalid. unfold bounded in Hvalid.
      apply andb_prop in Hvalid. destruct Hvalid as [Hc _].
      apply canonical_exp in Hc. lia. }
  pose proof (vfin_of_valid x Hvalid Hfin) as Hv.
  split; [exact Hv|]. split.
  - apply SFleb_mone; assumption.
  - apply SFleb_one; assumption.
Qed.

Lemma SFltb_zero_inv (a : spec_float) :
  valid_binary a = true ->
  SFltb (S754_zero false) a = true -> SFleb a SFone = true ->
  exists m e, a = S754_finite false m e /\ vfin a /\ 0 < sval a <= One.
Proof.
  intros Hvalid Hlo Hhi.
  destruct a as [s|s| |s m e]; try (cbn in Hlo; discriminate).
  - destruct s; cbn in Hlo, Hhi; discriminate.
  - destruct s; [cbn in Hlo; discriminate|].
    assert (Hv : vfin (S754_finite false m e)).
    { apply vfin_of_valid; [exact Hvalid|].
      cbn [valid_binary] in Hvalid. unfold bounded in Hvalid.
      apply andb_prop in Hvalid. destruct Hvalid as [Hc _].
      apply canonical_exp in Hc. cbn [is_fin]. lia. }
    exists m, e. split; [reflexivity|]. split; [exact Hv|]. split.
    + destruct (vfin_exp false m e Hv) as (He & _).
      cbn [sval]. assert (0 < 2 ^ (e + 1074)) by (apply Z.pow_pos_nonneg; lia).
      pose proof (Pos2Z.is_pos m). nia.
    + apply SFleb_one; assumption.
Qed.

Lemma cond_Zopp_sval (s : bool) (m : positive) (e ez : Z) :
  -1074 <= e -> -1074 <= ez -> ez <= e ->
  cond_Zopp s (Z.pos (fst (shl_align m e ez))) * 2 ^ (ez + 1074)
  = sval (S754_finite s m e).
Proof.
  intros He Hez Hle.
  destruct (shl_align_value m e ez 1074 ltac:(lia) ltac:(lia)) as [Hv Hs].
  rewrite Hs, Z.min_r in Hv by lia.
  cbn [sval]. destruct s; cbn [cond_Zopp]; lia.
Qed.

(** No float lies strictly between 1 and [1 + 2^-53]. *)

Lemma vfin_le_one (f : spec_float) :
  vfin f -> Z.abs (sval f) <= One + Half_ulp -> Z.abs (sval f) <= One.
Proof.
  destruct f as [s| | |s m e]; cbn [vfin]; try contradiction; intros Hv Hle.
  - cbn. unfold One. lia.
  - destruct (vfin_exp s m e Hv) as (He & Hm53 & Hm52).
    assert (Habs : Z.abs (sval (S754_finite s m e)) = Z.pos m * 2 ^ (e + 1074)).
    { cbn [sval]. assert (0 < 2 ^ (e + 1074)) by (apply Z.pow_pos_nonneg; lia).
      pose proof (Pos2Z.is_pos m). destruct s; nia. }
    rewrite Habs in *.
    destruct (Z_le_gt_dec e (-53)) as [L|G].
    + assert (2 ^ (e + 1074) <= 2 ^ 1021) by (apply Z.pow_le_mono_r; lia).
      assert (0 < 2 ^ (e + 1074)) by (apply Z.pow_pos_nonneg; lia).
      change One with (2 ^ 53 * 2 ^ 1021). nia.
    + specialize (Hm52 ltac:(lia)).
      destruct (Z.eq_dec e (-52)) as [E|N].
      * subst e. change (2 ^ (-52 + 1074)) with (2 ^ 1022) in *.
        change One with (2 ^ 52 * 2 ^ 1022) in *.
        change Half_ulp with (2 ^ 1021) in Hle.
        assert (2 ^ 1022 = 2 * 2 ^ 1021) by reflexivity.
        assert (0 < 2 ^ 1021) by reflexivity. nia.
      * exfalso.
        assert (2 ^ 1023 <= 2 ^ (e + 1074)) by (apply Z.pow_le_mono_r; lia).
        change One with (2 ^ 51 * 2 ^ 1023) in Hle.
        change Half_ulp with (2 ^ 1021) in Hle.
        assert (2 ^ 1023 = 4 * 2 ^ 1021) by reflexivity.
        assert (0 < 2 ^ 1021) by reflexivity. nia.
Qed.

Lemma vfin_is_fin (f : spec_float) : vfin f -> is_fin f.
Proof.
  destruct f as [s| | |s m e]; cbn [vfin is_fin]; auto.
  intros H. apply canonical_exp in H. lia.
Qed.

(** Subtraction of two floats of [-1, 1]. *)

Lemma SFsub_spec (x y : spec_float) :
  vfin x -> vfin y ->
  Z.abs (sval x) <= One -> Z.abs (sval y) <= One ->
  let d := SF64sub x y in
  is_fin d
  /\ (0 <= sval x - sval y -> 0 <= sval d <= sval x - sval y + Half_ulp)
  /\ (sval x - sval y <= 0 -> sval x - sval y - Half_ulp <= sval d <= 0).
Proof.
  intros Hx Hy Bx By d. subst d.
  assert (HH : 0 < Half_ulp) by reflexivity.
  assert (HO : 0 < One) by reflexivity.
  pose proof (vfin_is_fin x Hx) as Fx. pose proof (vfin_is_fin y Hy) as Fy.
  unfold SF64sub, SFsub.
  destruct x as [sx| | |sx mx ex]; try contradiction;
    destruct y as [sy| | |sy my ey]; try contradiction.
  - (* 0 - 0 *)
    destruct sx, sy; cbn; repeat split; lia.
  - (* 0 - y *)
    cbn [is_fin] in *. split; [exact Fy|].
    change (sval (S754_zero sx)) with 0.
    assert (sval (S754_finite (negb sy) my ey) = - sval (S754_finite sy my ey))
      by (cbn [sval]; destruct sy; cbn [negb]; lia).
    lia.
  - (* x - 0 *)
    split; [exact Fx|]. change (sval (S754_zero sy)) with 0. lia.
  - (* finite *)
    cbn [is_fin] in Fx, Fy. cbn zeta.
    set (ez := Z.min ex ey).
    pose proof (cond_Zopp_sval sx mx ex ez ltac:(lia) ltac:(lia) ltac:(lia)) as Vx.
    pose proof (cond_Zopp_sval sy my ey ez ltac:(lia) ltac:(lia) ltac:(lia)) as Vy.
    set (m := cond_Zopp sx (Z.pos (fst (shl_align mx ex ez)))
              - cond_Zopp sy (Z.pos (fst (shl_align my ey ez)))) in *.
    assert (Hm : m * 2 ^ (ez + 1074) =
                 sval (S754_finite sx mx ex) - sval (S754_finite sy my ey)).
    { unfold m. rewrite Z.mul_sub_distr_r, Vx, Vy. reflexivity. }
    assert (Hp : 0 < 2 ^ (ez + 1074)) by (apply Z.pow_pos_nonneg; lia).
    assert (Habs : Z.abs m * 2 ^ (ez + 1074) =
                   Z.abs (sval (S754_finite sx mx ex) - sval (S754_finite sy my ey))).
    { rewrite <- Hm, Z.abs_mul. rewrite (Z.abs_eq (2 ^ _)) by lia. reflexivity. }
    destruct (normalize_spec m ez ltac:(lia) ltac:(rewrite Habs; lia))
      as (Hfin & Hpos & Hneg & Herr & _).
    rewrite Habs in Herr.
    split; [exact Hfin|]. split.
    + intros Hge. assert (0 <= m) by nia. specialize (Hpos H).
      specialize (Herr ltac:(lia)). lia.
    + intros Hle. assert (m <= 0) by nia. specialize (Hneg H).
      specialize (Herr ltac:(lia)). lia.
Qed.

(** Addition of two floats whose exact sum is within [1 + 2^-53]. *)

Lemma SFadd_spec (x y : spec_float) :
  vfin x -> vfin y ->
  Z.abs (sval x + sval y) <= One + Half_ulp ->
  let o := SF64add x y in
  is_fin o /\ Z.abs (sval o) <= One.
Proof.
  intros Hx Hy Hsum o. subst o.
  assert (HH : 0 < Half_ulp) by reflexivity.
  assert (HO : 0 < One) by reflexivity.
  pose proof (vfin_is_fin x Hx) as Fx. pose proof (vfin_is_fin y Hy) as Fy.
  unfold SF64add, SFadd.
  destruct x as [sx| | |sx mx ex]; try contradiction;
    destruct y as [sy| | |sy my ey]; try contradiction.
  - destruct sx, sy; cbn; split; lia.
  - split; [exact Fy|]. apply vfin_le_one; [exact Hy|].
    change (sval (S754_zero sx)) with 0 in Hsum. rewrite Z.add_0_l in Hsum. exact Hsum.
  - split; [exact Fx|]. apply vfin_le_one; [exact Hx|].
    change (sval (S754_zero sy)) with 0 in Hsum. rewrite Z.add_0_r in Hsum. exact Hsum.
  - cbn [is_fin] in Fx, Fy. cbn zeta.
    set (ez := Z.min ex ey).
    pose proof (cond_Zopp_sval sx mx ex ez ltac:(lia) ltac:(lia) ltac:(lia)) as Vx.
    pose proof (cond_Zopp_sval sy my ey ez ltac:(lia) ltac:(lia) ltac:(lia)) as Vy.
    set (m := cond_Zopp sx (Z.pos (fst (shl_align mx ex ez)))
              + cond_Zopp sy (Z.pos (fst (shl_align my ey ez)))) in *.
    assert (Hm : m * 2 ^ (ez + 1074) =
                 sval (S754_finite sx mx ex) + sval (S754_finite sy my ey)).
    { unfold m. rewrite Z.mul_add_distr_r, Vx, Vy. reflexivity. }
    assert (Hp : 0 < 2 ^ (ez + 1074)) by (apply Z.pow_pos_nonneg; lia).
    assert (Habs : Z.abs m * 2 ^ (ez + 1074) =
                   Z.abs (sval (S754_finite sx mx ex) + sval (S754_finite sy my ey))).
    { rewrite <- Hm, Z.abs_mul. rewrite (Z.abs_eq (2 ^ _)) by lia. reflexivity. }
    assert (Half_ulp < One) by reflexivity.
    destruct (normalize_spec m ez ltac:(lia) ltac:(rewrite Habs; lia))
      as (Hfin & _ & _ & _ & Hone).
    rewrite Habs in Hone. split; [exact Hfin|]. apply Hone. exact Hsum.
Qed.

(** Multiplication by a factor of (0, 1] does not grow the magnitude and
    keeps the sign. *)

Lemma SFmul_spec (a d : spec_float) (ma : positive) (ea : Z) :
  a = S754_finite false ma ea -> vfin a -> vfin d ->
  0 < sval a <= One -> Z.abs (sval d) < 4 * One ->
  let t := SF64mul a d in
  is_fin t
  /\ Z.abs (sval t) <= Z.abs (sval d)
  /\ (0 <= sval d -> 0 <= sval t) /\ (sval d <= 0 -> sval t <= 0).
Proof.
  intros -> Ha Hd Ba Bd t. subst t.
  pose proof (vfin_is_fin _ Ha) as Fa. pose proof (vfin_is_fin _ Hd) as Fd.
  unfold SF64mul, SFmul.
  destruct d as [sd| | |sd md ed]; try contradiction.
  - cbn. repeat split; lia.
  - cbn [is_fin vfin] in *. cbn [xorb].
    assert (HO : 0 < One) by (apply Z.pow_pos_nonneg; lia).
    assert (PA : 0 < 2 ^ (ea + 1074)) by (apply Z.pow_pos_nonneg; lia).
    assert (PD : 0 < 2 ^ (ed + 1074)) by (apply Z.pow_pos_nonneg; lia).
    pose proof (Pos2Z.is_pos ma) as Pma. pose proof (Pos2Z.is_pos md) as Pmd.
    cbn [sval] in Ba. rewrite Z.mul_1_l in Ba.
    assert (AbsD : Z.abs (sval (S754_finite sd md ed)) =
                   Z.pos md * 2 ^ (ed + 1074)).
    { cbn [sval].
      assert (0 <= Z.pos md * 2 ^ (ed + 1074))
        by (apply Z.mul_nonneg_nonneg; lia).
      destruct sd; lia. }
    rewrite AbsD in *.
    set (A := Z.pos ma * 2 ^ (ea + 1074)) in *.
    set (Dm := Z.pos md * 2 ^ (ed + 1074)) in *.
    assert (HD : 0 < Dm) by (apply Z.mul_pos_pos; lia).
    (* the exact product at scale 2^-2148, the scale kept as a variable *)
    remember 2148 as K eqn:EK.
    assert (E : Z.pos (ma * md) * 2 ^ (ea + ed + K) = A * Dm).
    { replace (ea + ed + K) with ((ea + 1074) + (ed + 1074)) by lia.
      rewrite pow2_split by lia. rewrite Pos2Z.inj_mul. unfold A, Dm. ring. }
    assert (ED : Z.pos md * 2 ^ (ed + K) = One * Dm).
    { replace (ed + K) with (1074 + (ed + 1074)) by lia.
      rewrite pow2_split by lia. unfold One, Dm. ring. }
    assert (E4 : 2 ^ (K + 2) = One * (4 * One)).
    { replace (K + 2) with (1074 + (2 + 1074)) by lia.
      rewrite !pow2_split by lia. reflexivity. }
    assert (HV : Z.pos (ma * md) * 2 ^ (ea + ed + K) < 2 ^ (K + 2)).
    { rewrite E, E4.
      apply Z.le_lt_trans with (One * Dm).
      - apply Z.mul_le_mono_nonneg_r; lia.
      - apply Z.mul_lt_mono_pos_l; lia. }
    assert (HVU : Z.pos (ma * md) * 2 ^ (ea + ed + K) <= Z.pos md * 2 ^ (ed + K)).
    { rewrite E, ED. apply Z.mul_le_mono_nonneg_r; lia. }
    pose proof (rounded_signed K sd (ma * md) (ea + ed)
                  ltac:(lia) ltac:(lia) HV) as Hs.
    pose proof (rounded_le_float K sd (ma * md) (ea + ed)
                  ltac:(lia) ltac:(lia) HV md ed Hd HVU) as Hle.
    rewrite ED in Hle. clear HV HVU E ED E4.
    destruct (binary_round_aux prec emax sd (Z.pos (ma * md)) (ea + ed) loc_Exact)
      as [s| | |s m e]; cbn [finite_signed] in Hs; try contradiction.
    + cbn [is_fin sval]. repeat split; lia.
    + destruct Hs as [-> He]. cbn [is_fin]. split; [exact He|].
      cbn [mag] in Hle.
      assert (PM : 0 < 2 ^ (e + 1074)) by (apply Z.pow_pos_nonneg; lia).
      pose proof (Pos2Z.is_pos m) as Pm.
      assert (EM : Z.pos m * 2 ^ (e + K) = One * (Z.pos m * 2 ^ (e + 1074))).
      { replace (e + K) with (1074 + (e + 1074)) by lia.
        rewrite pow2_split by lia. unfold One. ring. }
      rewrite EM in Hle. clear EM.
      set (T := Z.pos m * 2 ^ (e + 1074)) in *.
      assert (HT : 0 < T) by (apply Z.mul_pos_pos; lia).
      assert (Hmag : T <= Dm).
      { apply (Z.mul_le_mono_pos_l _ _ One); [exact HO | exact Hle]. }
      cbn [sval]. fold T.
      destruct sd; repeat split; lia.
Qed.

(** One step of the filter on valid floats: [p + a * (x - p)]. *)

Lemma SF_filter_step (a p x : spec_float) (ma : positive) (ea : Z) :
  a = S754_finite false ma ea -> vfin a -> vfin p -> vfin x ->
  0 < sval a <= One ->
  - One <= sval p <= One -> - One <= sval x <= One ->
  valid_binary (SF64sub x p) = true ->
  valid_binary (SF64mul a (SF64sub x p)) = true ->
  let o := SF64add p (SF64mul a (SF64sub x p)) in
  is_fin o /\ - One <= sval o <= One.
Proof.
  intros Ea Ha Hp Hx Ba Bp Bx Vsub Vmul o. subst o.
  assert (HH : 0 < Half_ulp) by reflexivity.
  assert (HO : Half_ulp < One) by reflexivity.
  destruct (SFsub_spec x p Hx Hp ltac:(lia) ltac:(lia)) as (Fd & Dpos & Dneg).
  set (d := SF64sub x p) in *.
  pose proof (vfin_of_valid d Vsub Fd) as Hd.
  assert (Bd : Z.abs (sval d) < 4 * One).
  { destruct (Z_le_gt_dec 0 (sval x - sval p)) as [G|L].
    - specialize (Dpos G). lia.
    - specialize (Dneg ltac:(lia)). lia. }
  destruct (SFmul_spec a d ma ea Ea Ha Hd Ba Bd) as (Ft & Tabs & Tpos & Tneg).
  set (t := SF64mul a d) in *.
  pose proof (vfin_of_valid t Vmul Ft) as Ht.
  assert (Hsum : Z.abs (sval p + sval t) <= One + Half_ulp).
  { destruct (Z_le_gt_dec 0 (sval x - sval p)) as [G|L].
    - specialize (Dpos G). specialize (Tpos ltac:(lia)). lia.
    - specialize (Dneg ltac:(lia)). specialize (Tneg ltac:(lia)). lia. }
  destruct (SFadd_spec p t Hp Ht Hsum) as (Fo & Bo).
  split; [exact Fo|]. lia.
Qed.

Lemma float_filter_step (a p x : float) :
  (0 <? a)%float = true -> (a <=? 1)%float = true ->
  (-1 <=? p)%float = true -> (p <=? 1)%float = true ->
  (-1 <=? x)%float = true -> (x <=? 1)%float = true ->
  let o := (p + a * (x - p))%float in
  (-1 <=? o)%float = true /\ (o <=? 1)%float = true.
Proof.
  intros Ha0 Ha1 Hp0 Hp1 Hx0 Hx1 o.
  rewrite FloatAxioms.ltb_spec in Ha0.
  rewrite FloatAxioms.leb_spec in Ha1, Hp0, Hp1, Hx0, Hx1.
  rewrite !FloatAxioms.leb_spec.
  change (Prim2SF 1) with SFone in *. change (Prim2SF (-1)) with SFmone in *.
  change (Prim2SF 0) with (S754_zero false) in *.
  destruct (SFltb_zero_inv _ (Prim2SF_valid a) Ha0 Ha1) as (ma & ea & Ea & Va & Ba).
  destruct (SFleb_one_inv _ (Prim2SF_valid p) Hp0 Hp1) as (Vp & Bp).
  destruct (SFleb_one_inv _ (Prim2SF_valid x) Hx0 Hx1) as (Vx & Bx).
  assert (Eo : Prim2SF o =
               SF64add (Prim2SF p) (SF64mul (Prim2SF a) (SF64sub (Prim2SF x) (Prim2SF p)))).
  { unfold o. rewrite FloatAxioms.add_spec, FloatAxioms.mul_spec, FloatAxioms.sub_spec.
    reflexivity. }
  assert (Vs : valid_binary (SF64sub (Prim2SF x) (Prim2SF p)) = true)
    by (rewrite <- FloatAxioms.sub_spec; apply Prim2SF_valid).
  assert (Vm : valid_binary (SF64mul (Prim2SF a) (SF64sub (Prim2SF x) (Prim2SF p))) = true)
    by (rewrite <- FloatAxioms.sub_spec, <- FloatAxioms.mul_spec; apply Prim2SF_valid).
  destruct (SF_filter_step _ _ _ ma ea Ea Va Vp Vx Ba Bp Bx Vs Vm) as (Fo & Bo).
  rewrite <- Eo in Fo, Bo.
  pose proof (vfin_of_valid _ (Prim2SF_valid o) Fo) as Vo.
  split; [apply SFleb_mone | apply SFleb_one]; try assumption; lia.
Qed.

End RoundingFacts.

(** The truncation toward zero of a rational that is not negative is its
    floor, and a floor is at most the ceiling. *)
Lemma Qtrunc_floor (q : Q) : (0 <= q)%Q -> Qtrunc q = Qfloor q.
Proof.
  destruct q as [n d]. unfold Qle, Qtrunc, Qfloor. simpl. intros Hn.
  apply Z.quot_div_nonneg; lia.
Qed.

Lemma Qfloor_le_ceiling (q : Q) : Qfloor q <= Qceiling q.
Proof.
  rewrite Zle_Qle.
  apply Qle_trans with q; [apply Qfloor_le | apply Qle_ceiling].
Qed.

(** ** The pitch shifter *)

Section ShifterRun.
Context {D : Type} `{Double D}.

Lemma process_factor (s : PitchShifter.t D) (x : D) :
  PitchShifter.factor (snd (PitchShifter.process s x)) = PitchShifter.factor s.
Proof.
  unfold PitchShifter.process.
  destruct (PitchShifter.threshold s <? _); reflexivity.
Qed.

Lemma process_threshold (s : PitchShifter.t D) (x : D) :
  PitchShifter.threshold (snd (PitchShifter.process s x)) =
  PitchShifter.threshold s.
Proof.
  unfold PitchShifter.threshold. rewrite process_factor. reflexivity.
Qed.

(** One call: the queue grows by the pushed sample and, when it is then
    longer than the threshold, shrinks by the erased head. *)
Lemma process_length (s : PitchShifter.t D) (x : D) :
  Z.of_nat (length (PitchShifter.buffer (snd (PitchShifter.process s x)))) =
  if PitchShifter.threshold s <? Z.of_nat (length (PitchShifter.buffer s)) + 1
  then Z.of_nat (length (PitchShifter.buffer s))
  else Z.of_nat (length (PitchShifter.buffer s)) + 1.
Proof.
  unfold PitchShifter.process.
  rewrite length_app. cbn [length].
  replace (Z.of_nat (length (PitchShifter.buffer s) + 1))
    with (Z.of_nat (length (PitchShifter.buffer s)) + 1) by lia.
  destruct (PitchShifter.threshold s <? _); cbn [snd PitchShifter.buffer].
  - destruct (PitchShifter.buffer s) as [|h rest]; [reflexivity|].
    cbn [app tl length]. rewrite length_app. cbn [length]. lia.
  - rewrite length_app. cbn [length]. lia.
Qed.

Lemma shifter_run_snoc (xs : list D) (x : D) :
  forall s : PitchShifter.t D,
    snd (shifter_run s (xs ++ [x])) =
    snd (PitchShifter.process (snd (shifter_run s xs)) x).
Proof.
  induction xs as [|y xs IH]; intros s; cbn [app shifter_run snd].
  - destruct (PitchShifter.process s x) as [o s']. reflexivity.
  - destruct (PitchShifter.process s y) as [o s'].
    specialize (IH s').
    destruct (shifter_run s' (xs ++ [x])) as [os1 s1].
    destruct (shifter_run s' xs) as [os2 s2]. exact IH.
Qed.

Lemma shifter_run_threshold (xs : list D) :
  forall s : PitchShifter.t D,
    PitchShifter.threshold (snd (shifter_run s xs)) = PitchShifter.threshold s.
Proof.
  induction xs as [|y xs IH]; intros s; cbn [shifter_run]; [reflexivity|].
  pose proof (process_threshold s y) as Hstep.
  destruct (PitchShifter.process s y) as [o s'].
  specialize (IH s').
  destruct (shifter_run s' xs) as [os s'']. simpl in *. congruence.
Qed.

(** A queue that is not longer than the threshold stays so between calls. *)
Lemma shifter_run_bounded (xs : list D) :
  forall s : PitchShifter.t D,
    Z.of_nat (length (PitchShifter.buffer s)) <= PitchShifter.threshold s ->
    Z.of_nat (length (PitchShifter.buffer (snd (shifter_run s xs)))) <=
    PitchShifter.threshold s.
Proof.
  induction xs as [|y xs IH]; intros s Hlen; cbn [shifter_run];
    [exact Hlen|].
  pose proof (process_threshold s y) as Hthr.
  pose proof (process_length s y) as Hstep.
  destruct (PitchShifter.process s y) as [o s'].
  specialize (IH s').
  destruct (shifter_run s' xs) as [os s'']. cbn [snd] in *.
  rewrite Hthr in IH. apply IH. rewrite Hstep.
  destruct (PitchShifter.threshold s <? _) eqn:E; [exact Hlen|].
  apply Z.ltb_ge in E. exact E.
Qed.
End ShifterRun.

(** In binary64, for a factor above zero whose quotient is finite and fits
    [size_t], the threshold of the comparison is the floor of
    [1.0 / factor * SAMPLE_RATE]. *)
Lemma threshold_floor (s : PitchShifter.t float) (y : Q) :
  (of_int 0 <? PitchShifter.factor s)%D = true ->
  dvalue (of_int 1 / PitchShifter.factor s * of_int SAMPLE_RATE)%D = Some y ->
  Qfloor y < 2 ^ 64 ->
  PitchShifter.threshold s = Qfloor y.
Proof.
  intros Hpos Hval Hfit.
  pose proof (Binary64Facts.ratio_samples_nonneg _ y Hpos Hval) as Hy.
  unfold PitchShifter.threshold, static_cast_size_t, trunc.
  rewrite Hval. cbn [option_map]. rewrite (Qtrunc_floor y Hy).
  unfold wrap_unsigned. apply Z.mod_small. split; [|exact Hfit].
  change 0 with (Qfloor 0). apply Qfloor_resp_le. exact Hy.
Qed.

(** C3. For every input sample and every shifter state with a factor above
    zero (whose quotient [1.0 / factor * SAMPLE_RATE] is finite and whose
    floor fits [size_t]), [process] appends the input to the tail of the
    pending queue, takes [threshold = floor((1 / factor) * SAMPLE_RATE)],
    and either removes and returns the head, the oldest element, when the
    queue is then longer than the threshold, or returns 0.0 and keeps the
    queue. *)
Theorem PitchShifter_process_spec
    (s : PitchShifter.t float) (input : float) (y : Q) :
  (of_int 0 <? PitchShifter.factor s)%D = true ->
  dvalue (of_int 1 / PitchShifter.factor s * of_int SAMPLE_RATE)%D = Some y ->
  Qfloor y < 2 ^ 64 ->
  let pending := PitchShifter.buffer s ++ [input] in
  PitchShifter.process s input =
    (if Qfloor y <? Z.of_nat (length pending)
     then (hd (of_int 0) pending,
           {| PitchShifter.factor := PitchShifter.factor s;
              PitchShifter.phase := PitchShifter.phase s;
              PitchShifter.buffer := tl pending |})
     else (of_int 0,
           {| PitchShifter.factor := PitchShifter.factor s;
              PitchShifter.phase := PitchShifter.phase s;
              PitchShifter.buffer := pending |}))
  /\ (forall h rest, PitchShifter.buffer s = h :: rest ->
        hd (of_int 0) pending = h /\ tl pending = rest ++ [input])
  /\ (PitchShifter.buffer s = [] ->
        hd (of_int 0) pending = input /\ tl pending = []).
Proof.
  intros Hpos Hval Hfit pending. split; [|split].
  - unfold PitchShifter.process. fold pending.
    rewrite (threshold_floor s y Hpos Hval Hfit). reflexivity.
  - intros h rest E. unfold pending. rewrite E. split; reflexivity.
  - intros E. unfold pending. rewrite E. split; reflexivity.
Qed.

Lemma PitchShifter_process_spec_witness :
  let s : PitchShifter.t float := PitchShifter.new lit_0_8 in
  (of_int 0 <? PitchShifter.factor s)%D = true
  /\ dvalue (of_int 1 / PitchShifter.factor s * of_int SAMPLE_RATE)%D =
       Some (7576322310144000 # 137438953472)
  /\ PitchShifter.process s (of_int 1) =
       (of_int 0,
        {| PitchShifter.factor := lit_0_8; PitchShifter.phase := of_int 0;
           PitchShifter.buffer := [of_int 1] |}).
Proof.
  intros s.
  assert (Hpos : (of_int 0 <? PitchShifter.factor s)%D = true)
    by (vm_compute; reflexivity).
  assert (Hval : dvalue (of_int 1 / PitchShifter.factor s *
                         of_int SAMPLE_RATE)%D = Some (7576322310144000 # 137438953472))
    by (vm_compute; reflexivity).
  assert (Hfit : Qfloor (7576322310144000 # 137438953472) < 2 ^ 64) by (vm_compute; reflexivity).
  split; [exact Hpos | split; [exact Hval|]].
  exact (proj1 (PitchShifter_process_spec s (of_int 1) (7576322310144000 # 137438953472)
                  Hpos Hval Hfit)).
Defined.

(** C8. For every sequence of [process] calls that starts from an empty
    pending queue, with a fixed factor above zero (whose quotient
    [1.0 / factor * SAMPLE_RATE] is finite and whose floor fits [size_t]),
    the pending queue never holds more than
    [ceil((1 / factor) * SAMPLE_RATE) + 1] entries, neither between calls
    nor right after the push inside a call: each call grows it by one, and
    shrinks it by one whenever its length then exceeds the threshold. *)
Theorem PitchShifter_pending_bound
    (s : PitchShifter.t float) (xs : list float) (y : Q) :
  PitchShifter.buffer s = [] ->
  (of_int 0 <? PitchShifter.factor s)%D = true ->
  dvalue (of_int 1 / PitchShifter.factor s * of_int SAMPLE_RATE)%D = Some y ->
  Qfloor y < 2 ^ 64 ->
  let s' := snd (shifter_run s xs) in
  Z.of_nat (length (PitchShifter.buffer s')) <= Qceiling y + 1
  /\ (forall x : float,
        Z.of_nat (length (PitchShifter.buffer s' ++ [x])) <= Qceiling y + 1
        /\ Z.of_nat (length (PitchShifter.buffer
                               (snd (PitchShifter.process s' x)))) =
           if Qfloor y <? Z.of_nat (length (PitchShifter.buffer s' ++ [x]))
           then Z.of_nat (length (PitchShifter.buffer s' ++ [x])) - 1
           else Z.of_nat (length (PitchShifter.buffer s' ++ [x]))).
Proof.
  intros Hempty Hpos Hval Hfit s'.
  pose proof (threshold_floor s y Hpos Hval Hfit) as Hthr.
  pose proof (Qfloor_le_ceiling y) as Hceil.
  assert (Hlen : Z.of_nat (length (PitchShifter.buffer s')) <= Qfloor y).
  { rewrite <- Hthr. apply shifter_run_bounded.
    rewrite Hempty, Hthr. cbn [length].
    pose proof (Binary64Facts.ratio_samples_nonneg _ y Hpos Hval) as Hy.
    change (Z.of_nat 0) with (Qfloor 0). apply Qfloor_resp_le. exact Hy. }
  split; [lia|]. intros x. rewrite length_app. cbn [length]. split; [lia|].
  rewrite process_length. unfold s' at 1 3.
  rewrite shifter_run_threshold, Hthr. fold s'.
  replace (Z.of_nat (length (PitchShifter.buffer s') + 1))
    with (Z.of_nat (length (PitchShifter.buffer s')) + 1) by lia.
  destruct (Qfloor y <? _); lia.
Qed.

Lemma PitchShifter_pending_bound_witness :
  let s : PitchShifter.t float := PitchShifter.new lit_0_8 in
  let s' := snd (shifter_run s [of_int 1; of_int 0]) in
  Z.of_nat (length (PitchShifter.buffer s')) <= Qceiling (7576322310144000 # 137438953472) + 1.
Proof.
  intros s s'.
  assert (Hpos : (of_int 0 <? PitchShifter.factor s)%D = true)
    by (vm_compute; reflexivity).
  assert (Hval : dvalue (of_int 1 / PitchShifter.factor s *
                         of_int SAMPLE_RATE)%D = Some (7576322310144000 # 137438953472))
    by (vm_compute; reflexivity).
  assert (Hfit : Qfloor (7576322310144000 # 137438953472) < 2 ^ 64) by (vm_compute; reflexivity).
  exact (proj1 (PitchShifter_pending_bound s [of_int 1; of_int 0] (7576322310144000 # 137438953472)
                  eq_refl Hpos Hval Hfit)).
Defined.

(** ** Blocks through the write path *)

(** C9. For every state of the transform, [writeData] with a zero-length
    block returns 0, the count it was given, and changes nothing: the output
    queue, the low-pass filter and the pending queue of the pitch shifter
    are as before. *)
Theorem writeData_empty_block {D : Type} `{Double D} (s : AudioProcessor.t D) :
  AudioProcessor.writeData s [] = (0, s).
Proof.
  unfold AudioProcessor.writeData. cbn.
  rewrite app_nil_r. destruct s; reflexivity.
Qed.

(** C1 (amended). For every input block handed to [writeData] whose sample
    count fits an [int], the call returns the byte count, and each decoded
    16-bit sample is normalised as [sample / 32768.0], passed through
    [PitchShifter.process] then [LowPassFilter.process] in that order, and
    converted back by [static_cast<qint16>(value * 32767.0)] before its two
    bytes are appended to the output queue: the product truncated toward
    zero whenever that lies in the 16-bit signed range, with no rounding and
    no clamping. *)
Theorem writeData_pipeline_truncates
    {D : Type} `{Double D} (s : AudioProcessor.t D) (data : list byte) :
  Z.of_nat (length data) / 2 < 2 ^ 31 ->
  AudioProcessor.writeData s data =
    (Z.of_nat (length data), consumed quantize_truncate s data)
  /\ (forall (v : D) (z : Z),
        trunc (v * of_int 32767)%D = Some z -> -32768 <= z <= 32767 ->
        quantize_truncate v = z).
Proof.
  intros Hfit. split.
  - apply writeData_consumed. exact Hfit.
  - intros v z. apply quantize_truncate_fits.
Qed.

Lemma writeData_pipeline_truncates_witness :
  let s : AudioProcessor.t float := AudioProcessor.new default_format in
  AudioProcessor.writeData s [x01; x02] =
    (2, consumed quantize_truncate s [x01; x02]).
Proof.
  intros s.
  apply (proj1 (writeData_pipeline_truncates s [x01; x02] eq_refl)).
Defined.

(** C2 (amended). For every byte count that is not a multiple of 2 (a block
    of complete samples followed by one more byte, the sample count fitting
    an [int]), [writeData] does not reject the call: it returns the byte
    count it was given and leaves the transform in the state the block
    without its last byte leaves it in; the trailing byte is ignored. *)
Theorem writeData_odd_length
    {D : Type} `{Double D} (s : AudioProcessor.t D) (data : list byte)
    (b : byte) :
  Nat.Even (length data) ->
  Z.of_nat (length data) / 2 < 2 ^ 31 ->
  AudioProcessor.writeData s (data ++ [b]) =
    (Z.of_nat (length data) + 1, snd (AudioProcessor.writeData s data)).
Proof.
  intros Hev Hfit.
  assert (Hhalf : Z.of_nat (length (data ++ [b])) / 2 =
                  Z.of_nat (length data) / 2).
  { rewrite length_app. cbn [length]. destruct Hev as [k Hk]. rewrite Hk.
    replace (Z.of_nat (2 * k + 1)) with (1 + Z.of_nat k * 2) by lia.
    replace (Z.of_nat (2 * k)) with (0 + Z.of_nat k * 2) by lia.
    rewrite !Z.div_add by lia. reflexivity. }
  rewrite writeData_consumed by (rewrite Hhalf; exact Hfit).
  rewrite (writeData_consumed s data Hfit). cbn [snd].
  unfold consumed. rewrite (decode_trailing_byte data b Hev).
  f_equal. rewrite length_app. cbn [length]. lia.
Qed.

Lemma writeData_odd_length_witness :
  let s : AudioProcessor.t float := AudioProcessor.new default_format in
  AudioProcessor.writeData s ([x01; x02] ++ [x03]) =
    (2 + 1, snd (AudioProcessor.writeData s [x01; x02])).
Proof.
  intros s.
  apply (writeData_odd_length s [x01; x02] x03).
  - exists 1%nat. reflexivity.
  - reflexivity.
Defined.

(** C2 fails as stated: on a freshly constructed processor a block of three
    bytes is accepted (the call returns 3), two bytes are appended to the
    empty output queue and one sample enters the pending queue. *)
Lemma writeData_odd_length_counterexample :
  let s : AudioProcessor.t float := AudioProcessor.new default_format in
  let r := AudioProcessor.writeData s [x01; x02; x03] in
  fst r = 3
  /\ AudioProcessor.outputBuffer s = []
  /\ AudioProcessor.outputBuffer (snd r) = [x00; x00]
  /\ PitchShifter.buffer (AudioProcessor.shifter s) = []
  /\ length (PitchShifter.buffer (AudioProcessor.shifter (snd r))) = 1%nat
  /\ snd r <> s.
Proof.
  vm_compute. repeat split. discriminate.
Qed.

(** ** The first sample the shifter lets through *)

Section Startup.
Context {D : Type} `{Double D}.

Lemma pipeline_app (quantize : D -> Z) (zs1 zs2 : list Z) :
  forall flt shf,
    pipeline quantize flt shf (zs1 ++ zs2) =
    let '(os1, flt1, shf1) := pipeline quantize flt shf zs1 in
    let '(os2, flt2, shf2) := pipeline quantize flt1 shf1 zs2 in
    (os1 ++ os2, flt2, shf2).
Proof.
  induction zs1 as [|z zs1 IH]; intros flt shf; cbn [app pipeline].
  - destruct (pipeline quantize flt shf zs2) as [[os2 flt2] shf2].
    reflexivity.
  - destruct (pipeline_step quantize flt shf z) as [[o flt'] shf'].
    rewrite IH.
    destruct (pipeline quantize flt' shf' zs1) as [[os1 flt1] shf1].
    destruct (pipeline quantize flt1 shf1 zs2) as [[os2 flt2] shf2].
    reflexivity.
Qed.

(** While the queue is not longer than the threshold, [process] keeps the
    sample and returns silence. *)
Lemma process_fill (s : PitchShifter.t D) (x : D) :
  Z.of_nat (length (PitchShifter.buffer s)) + 1 <= PitchShifter.threshold s ->
  PitchShifter.process s x =
  (of_int 0,
   {| PitchShifter.factor := PitchShifter.factor s;
      PitchShifter.phase := PitchShifter.phase s;
      PitchShifter.buffer := PitchShifter.buffer s ++ [x] |}).
Proof.
  intros Hlen. unfold PitchShifter.process.
  rewrite length_app. cbn [length].
  destruct (PitchShifter.threshold s <? _) eqn:E; [|reflexivity].
  apply Z.ltb_lt in E. lia.
Qed.

(** Once it is, [process] hands out the oldest sample. *)
Lemma process_emit (s : PitchShifter.t D) (x h : D) (rest : list D) :
  PitchShifter.buffer s = h :: rest ->
  PitchShifter.threshold s < Z.of_nat (length (PitchShifter.buffer s)) + 1 ->
  PitchShifter.process s x =
  (h,
   {| PitchShifter.factor := PitchShifter.factor s;
      PitchShifter.phase := PitchShifter.phase s;
      PitchShifter.buffer := rest ++ [x] |}).
Proof.
  intros Hbuf Hlen. unfold PitchShifter.process.
  rewrite length_app. cbn [length].
  destruct (PitchShifter.threshold s <? _) eqn:E.
  - rewrite Hbuf. reflexivity.
  - apply Z.ltb_ge in E. lia.
Qed.

(** The startup silence: as long as the queue only fills, a filter at
    rest stays at rest and every output sample is the conversion of 0.0. *)
Lemma pipeline_fill (quantize : D -> Z) (flt : LowPassFilter.t D) :
  LowPassFilter.process flt (of_int 0) = (of_int 0, flt) ->
  forall (zs : list Z) (shf : PitchShifter.t D),
    Z.of_nat (length (PitchShifter.buffer shf) + length zs) <=
      PitchShifter.threshold shf ->
    pipeline quantize flt shf zs =
    (repeat (quantize (of_int 0)) (length zs), flt,
     {| PitchShifter.factor := PitchShifter.factor shf;
        PitchShifter.phase := PitchShifter.phase shf;
        PitchShifter.buffer :=
          PitchShifter.buffer shf ++
          map (fun z => (of_int z / of_int 32768)%D) zs |}).
Proof.
  intros Hrest zs. induction zs as [|z zs IH]; intros shf Hlen.
  - cbn. rewrite app_nil_r. destruct shf; reflexivity.
  - cbn [pipeline length repeat map]. unfold pipeline_step.
    cbn [length] in Hlen.
    rewrite process_fill by lia. rewrite Hrest.
    rewrite IH.
    + cbn [PitchShifter.factor PitchShifter.phase PitchShifter.buffer].
      rewrite <- app_assoc. reflexivity.
    + unfold PitchShifter.threshold in *.
      cbn [PitchShifter.factor PitchShifter.buffer].
      rewrite length_app. cbn [length]. lia.
Qed.

(** A block that fills the empty queue up to the threshold and then
    brings one more sample: the first sample of the block is the one that
    comes out last. *)
Lemma pipeline_first_emission (quantize : D -> Z)
    (flt : LowPassFilter.t D) (shf : PitchShifter.t D) (z : Z) (n : nat) :
  LowPassFilter.process flt (of_int 0) = (of_int 0, flt) ->
  PitchShifter.buffer shf = [] ->
  PitchShifter.threshold shf = Z.of_nat (S n) ->
  fst (fst (pipeline quantize flt shf ((z :: repeat 0 n) ++ [0]))) =
  repeat (quantize (of_int 0)) (S n) ++
  [quantize
     (fst (LowPassFilter.process flt (of_int z / of_int 32768)%D))].
Proof.
  intros Hrest Hempty Hthr.
  rewrite pipeline_app.
  rewrite (pipeline_fill quantize flt Hrest)
    by (rewrite Hempty, Hthr; cbn [length]; rewrite repeat_length; lia).
  cbn [pipeline length]. unfold pipeline_step. rewrite repeat_length.
  rewrite Hempty. cbn [app map].
  rewrite (process_emit _ _ (of_int z / of_int 32768)%D
             (map (fun z0 => (of_int z0 / of_int 32768)%D) (repeat 0 n))).
  - destruct (LowPassFilter.process flt (of_int z / of_int 32768)%D)
      as [filtered flt'].
    reflexivity.
  - reflexivity.
  - unfold PitchShifter.threshold in *.
    cbn [PitchShifter.factor PitchShifter.buffer length].
    rewrite length_map, repeat_length. lia.
Qed.
End Startup.

Lemma decode_zero_bytes (n : nat) : decode (repeat x00 (2 * n)) = repeat 0 n.
Proof.
  induction n as [|n IH]; [reflexivity|].
  replace (2 * S n)%nat with (S (S (2 * n))) by lia.
  cbn [repeat decode]. rewrite IH. reflexivity.
Qed.

Lemma flat_map_zero_samples (n : nat) :
  flat_map qint16_bytes (repeat 0 n) = repeat x00 (2 * n).
Proof.
  induction n as [|n IH]; [reflexivity|].
  replace (2 * S n)%nat with (S (S (2 * n))) by lia.
  cbn [repeat flat_map]. rewrite IH. reflexivity.
Qed.

(** The program's own session (cutoff 300 Hz, 44100 Hz, factor 0.8): a
    block of 55126 samples, the first one 16 and the others 0, whatever the
    conversion back to integers, as long as it takes 0.0 to 0. *)
Lemma first_emission_output (quantize : float -> Z) :
  quantize (of_int 0) = 0 ->
  let s : AudioProcessor.t float := AudioProcessor.new default_format in
  let block := [x10; x00] ++ repeat x00 (2 * Z.to_nat 55125) in
  AudioProcessor.outputBuffer (consumed quantize s block) =
  repeat x00 (2 * Z.to_nat 55125) ++
  qint16_bytes
    (quantize (fst (LowPassFilter.process (AudioProcessor.filter s)
                      (of_int 16 / of_int 32768)%D))).
Proof.
  intros Hzero s block. unfold consumed.
  assert (Hdecode : decode block = (16 :: repeat 0 (Z.to_nat 55124)) ++ [0]).
  { unfold block. cbn [app decode]. rewrite decode_zero_bytes.
    replace (Z.to_nat 55125) with (S (Z.to_nat 55124)) by lia.
    rewrite <- repeat_cons. reflexivity. }
  rewrite Hdecode.
  pose proof (pipeline_first_emission quantize (AudioProcessor.filter s)
                (AudioProcessor.shifter s) 16 (Z.to_nat 55124)) as Hfirst.
  destruct (pipeline quantize _ _ _) as [[os flt] shf].
  cbn [fst AudioProcessor.outputBuffer] in *.
  rewrite Hfirst.
  - rewrite Hzero, flat_map_app, flat_map_zero_samples.
    replace (S (Z.to_nat 55124)) with (Z.to_nat 55125) by lia.
    cbn [flat_map]. rewrite app_nil_r. reflexivity.
  - vm_compute. reflexivity.
  - reflexivity.
  - vm_compute. reflexivity.
Qed.

(** C1 fails as stated: in the program's own session, a block of 55126
    samples (the first one 16, the others 0) makes the first sample come out
    of the shifter last; the filter turns it into about 0.0000200, which
    times 32767 is about 0.656.  The program truncates it to the sample 0,
    where rounding gives the sample 1. *)
Lemma writeData_rounding_counterexample :
  let s : AudioProcessor.t float := AudioProcessor.new default_format in
  let block := [x10; x00] ++ repeat x00 (2 * Z.to_nat 55125) in
  AudioProcessor.outputBuffer (snd (AudioProcessor.writeData s block)) =
    repeat x00 (2 * Z.to_nat 55125) ++ [x00; x00]
  /\ AudioProcessor.outputBuffer (consumed quantize_round_clamp s block) =
    repeat x00 (2 * Z.to_nat 55125) ++ [x01; x00].
Proof.
  intros s block. split.
  - rewrite writeData_consumed.
    + cbn [snd]. unfold s, block.
      rewrite (first_emission_output quantize_truncate)
        by (vm_compute; reflexivity).
      f_equal.
    + unfold block. vm_compute. reflexivity.
  - unfold s, block.
    rewrite (first_emission_output quantize_round_clamp)
      by (vm_compute; reflexivity).
    f_equal.
Qed.

(** ** Opening, closing and construction *)

(** C7 (amended). A freshly constructed processor is open and fresh: the
    output queue and the pending queue of the shifter are empty and the
    filter's [prev] is 0.  [startProcessing] (open), also as a re-open after
    [stopProcessing] (close), only sets the open mode of the device: the
    output queue, the shifter with its pending queue and the filter with its
    [prev] are kept as they were, so they persist across sessions of one
    processor. *)
Theorem open_close_keep_state
    {D : Type} `{Double D} (fmt : QAudioFormat) (s : AudioProcessor.t D) :
  (AudioProcessor.openMode (AudioProcessor.new fmt) = ReadWrite
   /\ AudioProcessor.outputBuffer (AudioProcessor.new fmt) = []
   /\ PitchShifter.buffer (AudioProcessor.shifter (AudioProcessor.new fmt)) = []
   /\ LowPassFilter.prev (AudioProcessor.filter (AudioProcessor.new fmt)) =
      of_int 0)
  /\ (AudioProcessor.openMode (AudioProcessor.stopProcessing s) = NotOpen
      /\ AudioProcessor.filter (AudioProcessor.stopProcessing s) =
         AudioProcessor.filter s
      /\ AudioProcessor.shifter (AudioProcessor.stopProcessing s) =
         AudioProcessor.shifter s
      /\ AudioProcessor.outputBuffer (AudioProcessor.stopProcessing s) =
         AudioProcessor.outputBuffer s)
  /\ (AudioProcessor.openMode (AudioProcessor.startProcessing s) = ReadWrite
      /\ AudioProcessor.filter (AudioProcessor.startProcessing s) =
         AudioProcessor.filter s
      /\ AudioProcessor.shifter (AudioProcessor.startProcessing s) =
         AudioProcessor.shifter s
      /\ AudioProcessor.outputBuffer (AudioProcessor.startProcessing s) =
         AudioProcessor.outputBuffer s)
  /\ AudioProcessor.startProcessing (AudioProcessor.stopProcessing s) =
     AudioProcessor.startProcessing s.
Proof.
  repeat split.
Qed.

(** C7 fails as stated: construct the processor, write one sample, close
    and open again.  After the re-open the output queue still holds the two
    bytes the write appended and the pending queue still holds the sample. *)
Lemma reopen_keeps_queues_counterexample :
  let s0 : AudioProcessor.t float := AudioProcessor.new default_format in
  let s1 := snd (AudioProcessor.writeData s0 [x01; x02]) in
  let s2 := AudioProcessor.startProcessing (AudioProcessor.stopProcessing s1) in
  AudioProcessor.openMode s2 = ReadWrite
  /\ AudioProcessor.outputBuffer s2 = [x00; x00]
  /\ PitchShifter.buffer (AudioProcessor.shifter s2) =
     [(of_int 513 / of_int 32768)%D]
  /\ AudioProcessor.outputBuffer s2 <> []
  /\ PitchShifter.buffer (AudioProcessor.shifter s2) <> [].
Proof.
  vm_compute. repeat split; discriminate.
Qed.

(** C6 (amended). Construction never fails and validates nothing: for
    every cutoff frequency and sample rate, the non-positive ones included,
    the filter is constructed with [alpha = 1 / (RC * sampleRate + 1)],
    [RC = 1 / (2 * PI * cutoffFrequency)], and [prev = 0]; for every pitch
    factor the shifter is constructed with that factor and an empty queue.
    The one configuration the program constructs (cutoff 300, rate 44100,
    factor 0.8) is positive and has [alpha] in (0, 1]. *)
Theorem constructors_validate_nothing
    (cutoffFrequency sampleRate pitchFactor : float) (fmt : QAudioFormat) :
  LowPassFilter.new cutoffFrequency sampleRate =
    {| LowPassFilter.alpha :=
         (of_int 1 /
            (of_int 1 / (of_int 2 * PI * cutoffFrequency) * sampleRate +
             of_int 1))%D;
       LowPassFilter.prev := of_int 0 |}
  /\ PitchShifter.new pitchFactor =
    {| PitchShifter.factor := pitchFactor; PitchShifter.phase := of_int 0;
       PitchShifter.buffer := [] |}
  /\ (let p : AudioProcessor.t float := AudioProcessor.new fmt in
      AudioProcessor.filter p = LowPassFilter.new (of_int 300) (of_int 44100)
      /\ AudioProcessor.shifter p = PitchShifter.new lit_0_8
      /\ (of_int 0 <? LowPassFilter.alpha (AudioProcessor.filter p))%D = true
      /\ (LowPassFilter.alpha (AudioProcessor.filter p) <=? of_int 1)%D = true
      /\ (of_int 0 <? PitchShifter.factor (AudioProcessor.shifter p))%D
         = true).
Proof.
  repeat split.
Qed.

(** C6 fails as stated: a cutoff of 0 is accepted and gives a filter with
    [alpha = 0]; a cutoff of -300 and a sample rate of -44100 are accepted
    and give a negative [alpha]; a sample rate of 0 is accepted and gives
    [alpha = 1]; pitch factors of 0 and -1 are accepted and stored. *)
Lemma constructors_accept_nonpositive_counterexample :
  (LowPassFilter.new (of_int 0) (of_int SAMPLE_RATE) : LowPassFilter.t float) =
    {| LowPassFilter.alpha := of_int 0; LowPassFilter.prev := of_int 0 |}
  /\ (LowPassFilter.new (of_int 300) (of_int 0) : LowPassFilter.t float) =
    {| LowPassFilter.alpha := of_int 1; LowPassFilter.prev := of_int 0 |}
  /\ (LowPassFilter.alpha
        (LowPassFilter.new (of_int (-300)) (of_int SAMPLE_RATE)
           : LowPassFilter.t float) <? of_int 0)%D = true
  /\ (LowPassFilter.alpha
        (LowPassFilter.new (of_int 300) (of_int (-44100))
           : LowPassFilter.t float) <? of_int 0)%D = true
  /\ (PitchShifter.new (of_int 0) : PitchShifter.t float) =
    {| PitchShifter.factor := of_int 0; PitchShifter.phase := of_int 0;
       PitchShifter.buffer := [] |}
  /\ (PitchShifter.new (of_int (-1)) : PitchShifter.t float) =
    {| PitchShifter.factor := of_int (-1); PitchShifter.phase := of_int 0;
       PitchShifter.buffer := [] |}.
Proof.
  vm_compute. repeat split.
Qed.

(** ** The range of the low-pass filter *)

Lemma Forall_prefix (A : Type) (P : A -> Prop) (l : list A) :
  Forall P l -> forall i : nat, Forall P (firstn i l).
Proof.
  induction 1 as [|a l Ha Hl IH]; intros [|i]; cbn [firstn]; auto.
Qed.

(** A property that one filter step keeps is kept along a run. *)
Lemma filter_run_invariant {D : Type} `{Double D} (P : D -> Prop) (a : D) :
  (forall p x : D, P p -> P x -> P (p + a * (x - p))%D) ->
  forall (xs : list D) (f : LowPassFilter.t D),
    LowPassFilter.alpha f = a -> P (LowPassFilter.prev f) -> Forall P xs ->
    Forall P (fst (filter_run f xs))
    /\ P (LowPassFilter.prev (snd (filter_run f xs))).
Proof.
  intros Hstep xs. induction xs as [|x xs IH]; intros f Ha Hp Hxs.
  - split; [constructor | exact Hp].
  - inversion Hxs as [|x' xs' Hx Hrest]; subst.
    cbn [filter_run]. unfold LowPassFilter.process.
    specialize (Hstep _ _ Hp Hx).
    set (o := (LowPassFilter.prev f +
               LowPassFilter.alpha f * (x - LowPassFilter.prev f))%D) in *.
    destruct (IH {| LowPassFilter.alpha := LowPassFilter.alpha f;
                    LowPassFilter.prev := o |} eq_refl Hstep Hrest)
      as [Houts Hlast].
    destruct (filter_run _ xs) as [os f''].
    split; [constructor; assumption | exact Hlast].
Qed.

(** One step in binary64: with [alpha] in (0, 1], [prev] and the input in
    [-1, 1], the three roundings of [prev + alpha * (input - prev)] leave
    the result in [-1, 1]. *)
Lemma process_in_unit_range_binary64 (a p x : float) :
  (of_int 0 <? a)%D = true -> (a <=? of_int 1)%D = true ->
  in_unit_range p -> in_unit_range x ->
  in_unit_range (p + a * (x - p))%D.
Proof.
  intros Ha0 Ha1 [Hp0 Hp1] [Hx0 Hx1].
  exact (RoundingFacts.float_filter_step a p x Ha0 Ha1 Hp0 Hp1 Hx0 Hx1).
Qed.

(** One step in exact arithmetic: the output is the convex combination
    [(1 - alpha) * prev + alpha * input]. *)
Lemma process_in_unit_range_exact (a p x : Q) :
  (of_int 0 <? a)%D = true -> (a <=? of_int 1)%D = true ->
  in_unit_range p -> in_unit_range x ->
  in_unit_range (p + a * (x - p))%D
  /\ (p + a * (x - p) == (1 - a) * p + a * x)%Q.
Proof.
  unfold in_unit_range. cbn [dltb dleb dadd dsub dmul of_int exact].
  intros Ha0 Ha1 [Hp0 Hp1] [Hx0 Hx1].
  apply negb_true_iff in Ha0.
  assert (Ha0' : (0 < a)%Q).
  { apply Qnot_le_lt. intros Hle. apply Qle_bool_iff in Hle.
    change (inject_Z 0) with 0%Q in Ha0. congruence. }
  apply Qle_bool_iff in Ha1, Hp0, Hp1, Hx0, Hx1.
  change (inject_Z 1) with 1%Q in *. change (inject_Z (-1)) with (-1)%Q in *.
  split; [split; apply Qle_bool_iff; nra | ring].
Qed.

(** The range in exact arithmetic, along a run. *)
Lemma filter_run_in_unit_range_exact (f : LowPassFilter.t Q) (xs : list Q) :
  (of_int 0 <? LowPassFilter.alpha f)%D = true ->
  (LowPassFilter.alpha f <=? of_int 1)%D = true ->
  in_unit_range (LowPassFilter.prev f) -> Forall in_unit_range xs ->
  Forall in_unit_range (fst (filter_run f xs))
  /\ in_unit_range (LowPassFilter.prev (snd (filter_run f xs))).
Proof.
  intros Ha0 Ha1 Hp Hxs.
  apply (filter_run_invariant in_unit_range (LowPassFilter.alpha f));
    try assumption; [|reflexivity].
  intros p x Hp' Hx'.
  apply (process_in_unit_range_exact _ p x Ha0 Ha1 Hp' Hx').
Qed.

(** C10. In binary64, the arithmetic of the program, for every [alpha] in
    (0, 1] and every [prev] in [-1, 1], if every input sample passed to
    [process] is in [-1, 1], then every returned output and every updated
    [prev] is in [-1, 1]: [prev + alpha * (input - prev)] is the rounded
    convex combination of the previous output and the input, and its three
    roundings do not leave the range. *)
Theorem LowPassFilter_output_in_unit_range
    (f : LowPassFilter.t float) (xs : list float) :
  (of_int 0 <? LowPassFilter.alpha f)%D = true ->
  (LowPassFilter.alpha f <=? of_int 1)%D = true ->
  in_unit_range (LowPassFilter.prev f) ->
  Forall in_unit_range xs ->
  Forall in_unit_range (fst (filter_run f xs))
  /\ (forall i : nat,
        in_unit_range (LowPassFilter.prev (snd (filter_run f (firstn i xs)))))
  /\ (forall x : float, in_unit_range x ->
        in_unit_range (fst (LowPassFilter.process f x))
        /\ LowPassFilter.prev (snd (LowPassFilter.process f x)) =
           fst (LowPassFilter.process f x)).
Proof.
  intros Ha0 Ha1 Hp Hxs.
  assert (Hstep : forall p x : float, in_unit_range p -> in_unit_range x ->
            in_unit_range (p + LowPassFilter.alpha f * (x - p))%D).
  { intros p x Hp' Hx'.
    apply (process_in_unit_range_binary64 _ p x Ha0 Ha1 Hp' Hx'). }
  split; [|split].
  - apply (filter_run_invariant in_unit_range (LowPassFilter.alpha f) Hstep
             xs f eq_refl Hp Hxs).
  - intros i.
    apply (filter_run_invariant in_unit_range (LowPassFilter.alpha f) Hstep
             (firstn i xs) f eq_refl Hp).
    apply Forall_prefix. exact Hxs.
  - intros x Hx. split; [|reflexivity].
    apply (Hstep _ _ Hp Hx).
Qed.

Lemma LowPassFilter_output_in_unit_range_witness :
  let f : LowPassFilter.t float :=
    LowPassFilter.new (of_int 300) (of_int SAMPLE_RATE) in
  Forall in_unit_range
    (fst (filter_run f [of_int 1; of_int (-1); (of_int 1 / of_int 2)%D])).
Proof.
  intros f.
  refine (proj1 (LowPassFilter_output_in_unit_range f _ _ _ _ _)).
  - vm_compute. reflexivity.
  - vm_compute. reflexivity.
  - split; vm_compute; reflexivity.
  - repeat constructor; vm_compute; reflexivity.
Defined.

(** * Further properties of [main.cpp]

    What the code shows beyond the claims of the specification: the byte
    layout of a sample, how blocks and reads compose, the shifter as a
    delay line, the program's own session as a delay of 55125 samples
    followed by the filter, and the ranges the conversions keep. *)

(** ** Sixteen-bit samples and their two bytes *)

Lemma byte_val_range (b : byte) : 0 <= byte_val b < 256.
Proof.
  unfold byte_val. pose proof (Byte.to_N_bounded b) as Hb.
  lia.
Qed.

Lemma byte_val_of (z : Z) : byte_val (byte_of z) = z mod 256.
Proof.
  unfold byte_val, byte_of.
  pose proof (Z.mod_pos_bound z 256 ltac:(lia)) as Hm.
  destruct (Byte.of_N (Z.to_N (z mod 256))) as [b|] eqn:E.
  - apply Byte.to_of_N in E. rewrite E. lia.
  - apply Byte.of_N_None_iff in E. lia.
Qed.

Lemma byte_of_val (b : byte) : byte_of (byte_val b) = b.
Proof.
  unfold byte_of. rewrite Z.mod_small by apply byte_val_range.
  unfold byte_val. rewrite N2Z.id, Byte.of_to_N. reflexivity.
Qed.

Lemma mod_byte_of_word (z : Z) : (z mod 65536) mod 256 = z mod 256.
Proof.
  apply Z.mod_mod_divide. exists 256. reflexivity.
Qed.

Lemma wrap_signed_mod (z : Z) : wrap_signed 16 z mod 65536 = z mod 65536.
Proof.
  unfold wrap_signed.
  change (2 ^ 16) with 65536. change (2 ^ (16 - 1)) with 32768.
  rewrite Zminus_mod, Zmod_mod, <- Zminus_mod. f_equal. lia.
Qed.

Lemma wrap_signed_qint16 (z : Z) : is_qint16 (wrap_signed 16 z).
Proof.
  unfold is_qint16, wrap_signed.
  change (2 ^ 16) with 65536. change (2 ^ (16 - 1)) with 32768.
  pose proof (Z.mod_pos_bound (z + 32768) 65536 ltac:(lia)). lia.
Qed.

Lemma read_qint16_range (data : list byte) (i : nat) :
  is_qint16 (read_qint16 data i).
Proof. apply wrap_signed_qint16. Qed.

(** The two bytes of a sample read back as the sample, wrapped to 16
    bits. *)
Lemma decode_qint16_bytes (z : Z) (rest : list byte) :
  decode (qint16_bytes z ++ rest) = wrap_signed 16 z :: decode rest.
Proof.
  unfold qint16_bytes. cbn [app decode]. f_equal.
  rewrite !byte_val_of. unfold wrap_unsigned. change (2 ^ 16) with 65536.
  unfold wrap_signed.
  change (2 ^ 16) with 65536. change (2 ^ (16 - 1)) with 32768.
  assert (E : z mod 256 + 256 * (z mod 65536 / 256 mod 256) = z mod 65536).
  { pose proof (Z.mod_pos_bound z 65536 ltac:(lia)).
    rewrite (Z.mod_small (z mod 65536 / 256)).
    2:{ split; [apply Z.div_pos; lia | apply Z.div_lt_upper_bound; lia]. }
    rewrite <- (mod_byte_of_word z).
    pose proof (Z.div_mod (z mod 65536) 256 ltac:(lia)). lia. }
  rewrite E.
  rewrite <- (Zplus_mod_idemp_l z). reflexivity.
Qed.

Lemma decode_encode (zs : list Z) :
  decode (flat_map qint16_bytes zs) = map (wrap_signed 16) zs.
Proof.
  induction zs as [|z zs IH]; [reflexivity|].
  cbn [flat_map map]. rewrite decode_qint16_bytes, IH. reflexivity.
Qed.

Lemma map_wrap_qint16 (zs : list Z) :
  Forall is_qint16 zs -> map (wrap_signed 16) zs = zs.
Proof.
  induction 1 as [|z zs Hz Hzs IH]; [reflexivity|].
  cbn [map]. rewrite IH. f_equal. unfold is_qint16 in Hz.
  apply wrap_signed_id; [lia|]. change (2 ^ (16 - 1)) with 32768. lia.
Qed.

(** The sample read from two bytes is written back as the same two
    bytes. *)
Lemma qint16_bytes_read (lo hi : byte) :
  qint16_bytes (wrap_signed 16 (byte_val lo + 256 * byte_val hi)) = [lo; hi].
Proof.
  pose proof (byte_val_range lo). pose proof (byte_val_range hi).
  unfold qint16_bytes, wrap_unsigned. change (2 ^ 16) with 65536.
  rewrite wrap_signed_mod.
  rewrite (Z.mod_small (_ + _) 65536) by lia.
  replace ((byte_val lo + 256 * byte_val hi) / 256) with (byte_val hi).
  2:{ replace (byte_val lo + 256 * byte_val hi)
        with (byte_val lo + byte_val hi * 256) by lia.
      rewrite Z.div_add by lia.
      rewrite (Z.div_small (byte_val lo)) by lia. lia. }
  rewrite byte_of_val. f_equal.
  unfold byte_of.
  replace (wrap_signed 16 (byte_val lo + 256 * byte_val hi) mod 256)
    with (byte_val lo).
  - unfold byte_val. rewrite N2Z.id, Byte.of_to_N. reflexivity.
  - pose proof (wrap_signed_mod (byte_val lo + 256 * byte_val hi)) as E.
    rewrite (Z.mod_small (_ + _) 65536) in E by lia.
    set (w := wrap_signed 16 _) in *.
    rewrite <- (mod_byte_of_word w), E.
    replace (byte_val lo + 256 * byte_val hi)
      with (byte_val lo + byte_val hi * 256) by lia.
    rewrite Z.mod_add by lia. symmetry. apply Z.mod_small. lia.
Qed.

Lemma encode_decode (data : list byte) :
  Nat.Even (length data) -> flat_map qint16_bytes (decode data) = data.
Proof.
  induction data as [|lo|lo hi rest IH] using pairs_ind; intros Hev.
  - reflexivity.
  - destruct Hev as [k Hk]. cbn [length] in Hk. lia.
  - cbn [decode flat_map]. rewrite qint16_bytes_read.
    cbn [app]. f_equal. f_equal. apply IH.
    destruct Hev as [k Hk]. cbn [length] in Hk. exists (k - 1)%nat. lia.
Qed.

Lemma flat_map_qint16_length (os : list Z) :
  length (flat_map qint16_bytes os) = (2 * length os)%nat.
Proof.
  induction os as [|o os IH]; [reflexivity|].
  cbn [flat_map length app qint16_bytes]. rewrite IH. lia.
Qed.

(** X1. For every list of 16-bit samples, the bytes [writeData] appends
    for them (two per sample, low byte first) read back, through the
    [qint16] view [writeData] takes of a block ([samples[i]]), as the same
    samples. *)
Theorem qint16_bytes_round_trip (zs : list Z) :
  Forall is_qint16 zs ->
  decode (flat_map qint16_bytes zs) = zs
  /\ (forall i : nat, (i < length zs)%nat ->
        read_qint16 (flat_map qint16_bytes zs) i = nth i zs 0)
  /\ length (flat_map qint16_bytes zs) = (2 * length zs)%nat.
Proof.
  intros Hzs.
  assert (Hd : decode (flat_map qint16_bytes zs) = zs)
    by (rewrite decode_encode; apply map_wrap_qint16; exact Hzs).
  split; [exact Hd|]. split.
  - intros i Hi. rewrite decode_read; rewrite Hd; [reflexivity | exact Hi].
  - apply flat_map_qint16_length.
Qed.

Lemma qint16_bytes_round_trip_witness :
  let zs := [-32768; -1; 0; 513; 32767] in
  decode (flat_map qint16_bytes zs) = zs
  /\ (forall i : nat, (i < length zs)%nat ->
        read_qint16 (flat_map qint16_bytes zs) i = nth i zs 0)
  /\ length (flat_map qint16_bytes zs) = (2 * length zs)%nat.
Proof.
  intros zs. apply (qint16_bytes_round_trip zs).
  repeat constructor; unfold is_qint16; lia.
Defined.

(** X2. For every block of whole samples (an even byte count), the samples
    [writeData] reads from it, written back two bytes each, are the block
    itself; with one more byte at the end they are the block without that
    byte. *)
Theorem decode_round_trip (data : list byte) :
  Nat.Even (length data) ->
  flat_map qint16_bytes (decode data) = data
  /\ Forall is_qint16 (decode data)
  /\ (forall b : byte, flat_map qint16_bytes (decode (data ++ [b])) = data).
Proof.
  intros Hev. split; [apply encode_decode; exact Hev|]. split.
  - clear Hev.
    induction data as [|lo|lo hi rest IH] using pairs_ind;
      cbn [decode]; constructor; [apply wrap_signed_qint16 | exact IH].
  - intros b. rewrite (decode_trailing_byte data b Hev).
    apply encode_decode. exact Hev.
Qed.

Lemma decode_round_trip_witness :
  flat_map qint16_bytes (decode [x01; x80; xff; x7f]) = [x01; x80; xff; x7f]
  /\ Forall is_qint16 (decode [x01; x80; xff; x7f])
  /\ (forall b : byte,
        flat_map qint16_bytes (decode ([x01; x80; xff; x7f] ++ [b])) =
        [x01; x80; xff; x7f]).
Proof.
  apply (decode_round_trip [x01; x80; xff; x7f]).
  exists 2%nat. reflexivity.
Defined.

(** ** Blocks, chunks and byte counts *)

Lemma decode_app (data1 data2 : list byte) :
  Nat.Even (length data1) ->
  decode (data1 ++ data2) = decode data1 ++ decode data2.
Proof.
  induction data1 as [|a|lo hi rest IH] using pairs_ind; intros Hev.
  - reflexivity.
  - destruct Hev as [k Hk]. cbn [length] in Hk. lia.
  - cbn [app decode]. f_equal. apply IH.
    destruct Hev as [k Hk]. cbn [length] in Hk. exists (k - 1)%nat. lia.
Qed.

Section Blocks.
Context {D : Type} `{Double D}.

Lemma pipeline_length (quantize : D -> Z) (zs : list Z) :
  forall flt shf,
    length (fst (fst (pipeline quantize flt shf zs))) = length zs.
Proof.
  induction zs as [|z zs IH]; intros flt shf; [reflexivity|].
  cbn [pipeline].
  destruct (pipeline_step quantize flt shf z) as [[o flt'] shf'].
  specialize (IH flt' shf').
  destruct (pipeline quantize flt' shf' zs) as [[os flt''] shf''].
  cbn [fst length] in *. rewrite IH. reflexivity.
Qed.

Lemma consumed_app (quantize : D -> Z) (s : AudioProcessor.t D)
    (data1 data2 : list byte) :
  Nat.Even (length data1) ->
  consumed quantize s (data1 ++ data2) =
  consumed quantize (consumed quantize s data1) data2.
Proof.
  intros Hev. unfold consumed. rewrite (decode_app _ _ Hev), pipeline_app.
  destruct (pipeline quantize _ _ (decode data1)) as [[os1 flt1] shf1].
  cbn [AudioProcessor.filter AudioProcessor.shifter
       AudioProcessor.outputBuffer AudioProcessor.openMode
       AudioProcessor.format].
  destruct (pipeline quantize flt1 shf1 (decode data2)) as [[os2 flt2] shf2].
  rewrite flat_map_app, app_assoc. reflexivity.
Qed.

Lemma half_app_le (data1 data2 : list byte) :
  Z.of_nat (length (data1 ++ data2)) / 2 < 2 ^ 31 ->
  Z.of_nat (length data1) / 2 < 2 ^ 31 /\ Z.of_nat (length data2) / 2 < 2 ^ 31.
Proof.
  rewrite length_app, Nat2Z.inj_add. intros Hfit.
  split; (eapply Z.le_lt_trans; [|exact Hfit]);
    apply Z.div_le_mono; lia.
Qed.

Lemma readData_filter_shifter (s : AudioProcessor.t D) (maxlen : Z) :
  AudioProcessor.filter (snd (AudioProcessor.readData s maxlen)) =
    AudioProcessor.filter s
  /\ AudioProcessor.shifter (snd (AudioProcessor.readData s maxlen)) =
     AudioProcessor.shifter s.
Proof.
  unfold AudioProcessor.readData.
  destruct (AudioProcessor.outputBuffer s); split; reflexivity.
Qed.

End Blocks.

(** X3. A block handed to [writeData] in two calls, cut at a sample
    boundary (the first part has an even byte count), leaves the processor
    in the state one call with the whole block leaves it in, and the two
    returned counts add up to the count of the whole block. *)
Theorem writeData_chunks {D : Type} `{Double D}
    (s : AudioProcessor.t D) (data1 data2 : list byte) :
  Nat.Even (length data1) ->
  Z.of_nat (length (data1 ++ data2)) / 2 < 2 ^ 31 ->
  let '(n1, s1) := AudioProcessor.writeData s data1 in
  let '(n2, s2) := AudioProcessor.writeData s1 data2 in
  AudioProcessor.writeData s (data1 ++ data2) = (n1 + n2, s2).
Proof.
  intros Hev Hfit. destruct (half_app_le _ _ Hfit) as [H1 H2].
  rewrite (writeData_consumed s data1 H1).
  rewrite (writeData_consumed _ data2 H2).
  rewrite (writeData_consumed s _ Hfit).
  rewrite (consumed_app _ _ _ _ Hev), length_app, Nat2Z.inj_add.
  reflexivity.
Qed.

Lemma writeData_chunks_witness :
  let s : AudioProcessor.t float := AudioProcessor.new default_format in
  let '(n1, s1) := AudioProcessor.writeData s [x01; x02] in
  let '(n2, s2) := AudioProcessor.writeData s1 [x03; x04; x05] in
  AudioProcessor.writeData s ([x01; x02] ++ [x03; x04; x05]) = (n1 + n2, s2).
Proof.
  intros s.
  apply (writeData_chunks s [x01; x02] [x03; x04; x05]).
  - exists 1%nat. reflexivity.
  - reflexivity.
Defined.

(** X4. [bytesAvailable] is the count of the base class plus the length of
    the output queue, and the two callbacks move it by what they report:
    a [writeData] of [len] bytes (the sample count fitting an [int]) raises
    it by [2 * (len / 2)], the bytes of the whole samples, and a
    [readData] with [maxlen >= 0] returns the smaller of [maxlen] and the
    queue's share of it, and lowers it by the count it returns. *)
Theorem bytesAvailable_accounting {D : Type} `{Double D}
    (s : AudioProcessor.t D) (base : Z) :
  (forall data : list byte,
     Z.of_nat (length data) / 2 < 2 ^ 31 ->
     AudioProcessor.bytesAvailable base
       (snd (AudioProcessor.writeData s data)) =
     AudioProcessor.bytesAvailable base s + 2 * (Z.of_nat (length data) / 2))
  /\ (forall maxlen : Z,
        0 <= maxlen ->
        let '(n, _, s') := AudioProcessor.readData s maxlen in
        n = Z.min maxlen (AudioProcessor.bytesAvailable base s - base)
        /\ AudioProcessor.bytesAvailable base s' =
           AudioProcessor.bytesAvailable base s - n).
Proof.
  split.
  - intros data Hfit. rewrite (writeData_consumed s data Hfit). cbn [snd].
    unfold consumed, AudioProcessor.bytesAvailable.
    pose proof (pipeline_length quantize_truncate (decode data)
                  (AudioProcessor.filter s) (AudioProcessor.shifter s)) as Hl.
    destruct (pipeline quantize_truncate _ _ (decode data)) as [[os flt] shf].
    cbn [fst AudioProcessor.outputBuffer] in *.
    rewrite length_app, flat_map_qint16_length, Hl, decode_length.
    rewrite Nat.div2_div, !Nat2Z.inj_add, Nat2Z.inj_mul, Nat2Z.inj_div.
    change (Z.of_nat 2) with 2. lia.
  - intros maxlen Hmax.
    unfold AudioProcessor.readData, AudioProcessor.bytesAvailable.
    destruct (AudioProcessor.outputBuffer s) as [|b q] eqn:E.
    + rewrite E. cbn [length]. lia.
    + cbn [AudioProcessor.outputBuffer].
      rewrite length_skipn.
      set (L := length (b :: q)) in *.
      assert (Hn : (Z.to_nat (Z.min maxlen (Z.of_nat L)) <= L)%nat) by lia.
      split; [f_equal; lia | lia].
Qed.

(** X5. Two reads in a row, with [maxlen1 >= 0] and [maxlen2 >= 0], hand
    out together what one read with [maxlen1 + maxlen2] hands out: the
    same bytes in the same order, the same total count, and the same
    processor afterwards. *)
Theorem readData_twice {D : Type} `{Double D}
    (s : AudioProcessor.t D) (maxlen1 maxlen2 : Z) :
  0 <= maxlen1 -> 0 <= maxlen2 ->
  let '(n1, out1, s1) := AudioProcessor.readData s maxlen1 in
  let '(n2, out2, s2) := AudioProcessor.readData s1 maxlen2 in
  AudioProcessor.readData s (maxlen1 + maxlen2) = (n1 + n2, out1 ++ out2, s2).
Proof.
  intros H1 H2. unfold AudioProcessor.readData at 1 3.
  destruct (AudioProcessor.outputBuffer s) as [|b q] eqn:E.
  - unfold AudioProcessor.readData. rewrite E. reflexivity.
  - set (buf := b :: q) in *. set (L := Z.of_nat (length buf)).
    assert (HL : 0 < L) by (unfold L, buf; cbn [length]; lia).
    unfold AudioProcessor.readData.
    cbn [AudioProcessor.outputBuffer AudioProcessor.openMode
         AudioProcessor.format AudioProcessor.filter AudioProcessor.shifter].
    fold L.
    destruct (skipn (Z.to_nat (Z.min maxlen1 L)) buf) as [|b' q'] eqn:Es.
    + (* the first read drained the queue *)
      assert (Hall : L <= maxlen1).
      { apply (f_equal (@length byte)) in Es. rewrite length_skipn in Es.
        cbn [length] in Es. unfold L. lia. }
      rewrite (Z.min_r maxlen1) by lia. rewrite Z.min_r by lia.
      rewrite Z.min_r in Es by lia. rewrite Es.
      rewrite Z.add_0_r, app_nil_r. reflexivity.
    + rewrite <- Es.
      assert (Hlt : maxlen1 < L).
      { apply (f_equal (@length byte)) in Es. rewrite length_skipn in Es.
        cbn [length] in Es. unfold L. lia. }
      rewrite (Z.min_l maxlen1 L) by lia.
      rewrite length_skipn.
      replace (Z.of_nat (length buf - Z.to_nat maxlen1)) with (L - maxlen1)
        by (unfold L; lia).
      replace (Z.min (maxlen1 + maxlen2) L)
        with (maxlen1 + Z.min maxlen2 (L - maxlen1)) by lia.
      set (n2 := Z.min maxlen2 (L - maxlen1)).
      assert (Hn2 : 0 <= n2) by lia.
      rewrite Z2Nat.inj_add by lia.
      rewrite firstn_plus, skipn_skipn.
      rewrite (Nat.add_comm (Z.to_nat n2)). reflexivity.
Qed.

Lemma readData_twice_witness :
  let s : AudioProcessor.t float :=
    snd (AudioProcessor.writeData (AudioProcessor.new default_format)
           [x01; x02; x03; x04; x05; x06]) in
  let '(n1, out1, s1) := AudioProcessor.readData s 1 in
  let '(n2, out2, s2) := AudioProcessor.readData s1 3 in
  AudioProcessor.readData s (1 + 3) = (n1 + n2, out1 ++ out2, s2).
Proof.
  intros s. apply (readData_twice s 1 3); lia.
Defined.

(** ** The shifter is a delay line *)

Section DelayLine.
Context {D : Type} `{Double D}.

(** With [gap] places of the queue still free, a run hands out [gap]
    times silence and then the queued and the new samples, oldest first. *)
Lemma shifter_run_delay (T : nat) (xs : list D) :
  forall s : PitchShifter.t D,
    PitchShifter.threshold s = Z.of_nat T ->
    (length (PitchShifter.buffer s) <= T)%nat ->
    let gap := (T - length (PitchShifter.buffer s))%nat in
    shifter_run s xs =
    (firstn (length xs)
       (repeat (of_int 0) gap ++ PitchShifter.buffer s ++ xs),
     {| PitchShifter.factor := PitchShifter.factor s;
        PitchShifter.phase := PitchShifter.phase s;
        PitchShifter.buffer :=
          skipn (length xs - gap) (PitchShifter.buffer s ++ xs) |}).
Proof.
  induction xs as [|x xs IH]; intros s Hthr Hlen gap.
  - cbn [shifter_run length firstn Nat.sub skipn]. rewrite app_nil_r.
    destruct s; reflexivity.
  - cbn [shifter_run].
    destruct (Nat.eq_dec (length (PitchShifter.buffer s)) T) as [Efull|Nfull].
    + (* the queue is full: the head comes out *)
      assert (Eg : gap = 0%nat) by (unfold gap; lia).
      rewrite Eg. cbn [repeat app]. rewrite Nat.sub_0_r.
      unfold PitchShifter.process. rewrite Hthr.
      destruct (Z.of_nat T <? _) eqn:E;
        [|apply Z.ltb_ge in E; rewrite length_app in E; cbn [length] in E;
          lia].
      rewrite IH.
      * cbn [PitchShifter.buffer PitchShifter.factor PitchShifter.phase].
        destruct (PitchShifter.buffer s) as [|h rest].
        -- cbn [length] in Efull. rewrite <- Efull.
           cbn [app hd tl length Nat.sub repeat firstn skipn].
           rewrite Nat.sub_0_r. reflexivity.
        -- cbn [app hd tl length firstn skipn].
           replace (T - length (rest ++ [x]))%nat with 0%nat
             by (rewrite length_app; cbn [length] in *; lia).
           cbn [repeat app]. rewrite Nat.sub_0_r, <- app_assoc. reflexivity.
      * exact Hthr.
      * cbn [PitchShifter.buffer].
        destruct (PitchShifter.buffer s) as [|h rest]; cbn [app tl length];
          [lia|]. rewrite length_app. cbn [length] in *. lia.
    + (* the queue still fills: silence comes out *)
      rewrite process_fill by lia.
      rewrite IH.
      * cbn [PitchShifter.buffer PitchShifter.factor PitchShifter.phase].
        rewrite length_app. cbn [length].
        destruct gap as [|g] eqn:Eg; [unfold gap in Eg; lia|].
        replace (T - (length (PitchShifter.buffer s) + 1))%nat with g
          by (unfold gap in Eg; lia).
        cbn [repeat app firstn Nat.sub]. rewrite <- app_assoc. reflexivity.
      * exact Hthr.
      * cbn [PitchShifter.buffer]. rewrite length_app. cbn [length]. lia.
Qed.

(** The loop of [writeData] runs the two stages sample by sample; the
    stages share no state, so a block can as well go through the shifter
    as a whole and then through the filter. *)
Lemma pipeline_stages (quantize : D -> Z) (zs : list Z) :
  forall (flt : LowPassFilter.t D) (shf : PitchShifter.t D),
    pipeline quantize flt shf zs =
    let '(pitched, shf') := shifter_run shf (map normalise zs) in
    let '(filtered, flt') := filter_run flt pitched in
    (map quantize filtered, flt', shf').
Proof.
  induction zs as [|z zs IH]; intros flt shf; [reflexivity|].
  cbn [pipeline map shifter_run]. unfold pipeline_step.
  fold (normalise (D := D) z).
  destruct (PitchShifter.process shf (normalise z)) as [p shf1].
  destruct (LowPassFilter.process flt p) as [o flt1] eqn:Ep.
  rewrite IH.
  destruct (shifter_run shf1 (map normalise zs)) as [ps shf2].
  cbn [filter_run]. rewrite Ep.
  destruct (filter_run flt1 ps) as [os flt2]. reflexivity.
Qed.

(** The bytes a session appends are the conversion of what the loop makes
    of all its samples, whatever the blocks they come in and whatever is
    read in between. *)
Lemma session_pipeline (calls : list call) :
  forall s : AudioProcessor.t D,
    blocks_fit calls ->
    snd (fst (session s calls)) =
    flat_map qint16_bytes
      (fst (fst (pipeline quantize_truncate (AudioProcessor.filter s)
                   (AudioProcessor.shifter s) (samples_of calls))))
    /\ AudioProcessor.filter (snd (session s calls)) =
       snd (fst (pipeline quantize_truncate (AudioProcessor.filter s)
                   (AudioProcessor.shifter s) (samples_of calls)))
    /\ AudioProcessor.shifter (snd (session s calls)) =
       snd (pipeline quantize_truncate (AudioProcessor.filter s)
              (AudioProcessor.shifter s) (samples_of calls)).
Proof.
  induction calls as [|[data|maxlen] calls IH]; intros s Hfit.
  - cbn. repeat split.
  - inversion Hfit as [|c cs Hdata Hrest]; subst.
    cbn [session samples_of].
    rewrite (writeData_consumed s data Hdata),
            (appended_by_pipeline s data Hdata).
    cbn [snd]. rewrite pipeline_app.
    specialize (IH (consumed quantize_truncate s data) Hrest).
    unfold consumed in *.
    destruct (pipeline quantize_truncate (AudioProcessor.filter s)
                (AudioProcessor.shifter s) (decode data))
      as [[os1 flt1] shf1].
    cbn [AudioProcessor.filter AudioProcessor.shifter fst snd] in *.
    destruct (pipeline quantize_truncate flt1 shf1 (samples_of calls))
      as [[os2 flt2] shf2].
    destruct IH as (E & Ef & Es).
    destruct (session _ calls) as [[produced appended] s'].
    cbn [fst snd] in *.
    rewrite flat_map_app, E. repeat split; assumption.
  - inversion Hfit as [|c cs _ Hrest]; subst.
    cbn [session samples_of].
    destruct (readData_filter_shifter s maxlen) as [Ef1 Es1].
    destruct (AudioProcessor.readData s maxlen) as [[n out] s1].
    cbn [snd] in Ef1, Es1.
    specialize (IH s1 Hrest). rewrite Ef1, Es1 in IH.
    destruct (pipeline quantize_truncate (AudioProcessor.filter s)
                (AudioProcessor.shifter s) (samples_of calls))
      as [[os flt] shf].
    destruct IH as (E & Ef & Es).
    destruct (session s1 calls) as [[produced appended] s'].
    cbn [fst snd] in *. repeat split; assumption.
Qed.
End DelayLine.

(** X6. For every shifter whose comparison threshold is [T] and whose
    queue holds at most [T] samples, and every sequence of inputs,
    [process] hands out, call after call, [T - length(queue)] times 0.0 and
    then the queued samples followed by the inputs, oldest first and
    unchanged; what has not come out yet stays queued; the factor and the
    phase are never changed.  The shifter is a delay line of [T] samples:
    it does no resampling. *)
Theorem PitchShifter_delay_line {D : Type} `{Double D}
    (s : PitchShifter.t D) (xs : list D) (T : nat) :
  PitchShifter.threshold s = Z.of_nat T ->
  (length (PitchShifter.buffer s) <= T)%nat ->
  let gap := (T - length (PitchShifter.buffer s))%nat in
  fst (shifter_run s xs) =
    firstn (length xs) (repeat (of_int 0) gap ++ PitchShifter.buffer s ++ xs)
  /\ PitchShifter.buffer (snd (shifter_run s xs)) =
     skipn (length xs - gap) (PitchShifter.buffer s ++ xs)
  /\ PitchShifter.factor (snd (shifter_run s xs)) = PitchShifter.factor s
  /\ PitchShifter.phase (snd (shifter_run s xs)) = PitchShifter.phase s.
Proof.
  intros Hthr Hlen gap.
  rewrite (shifter_run_delay T xs s Hthr Hlen). repeat split.
Qed.

Lemma PitchShifter_delay_line_witness :
  let s : PitchShifter.t float := PitchShifter.new (of_int 22050) in
  fst (shifter_run s [of_int 1; of_int 2; of_int 3]) =
    [of_int 0; of_int 0; of_int 1]
  /\ PitchShifter.buffer (snd (shifter_run s [of_int 1; of_int 2; of_int 3]))
     = [of_int 2; of_int 3].
Proof.
  intros s.
  assert (Hthr : PitchShifter.threshold s = Z.of_nat 2)
    by (vm_compute; reflexivity).
  assert (Hlen : (length (PitchShifter.buffer s) <= 2)%nat)
    by (cbn; lia).
  destruct (PitchShifter_delay_line s [of_int 1; of_int 2; of_int 3] 2
              Hthr Hlen) as (Hout & Hbuf & _).
  split; [exact Hout | exact Hbuf].
Defined.

(** X7. For every state of the processor and every block whose sample
    count fits an [int], [writeData] gives what the two stages give one
    after the other on the whole block: the normalised samples through the
    shifter, its outputs through the filter, the filter's outputs
    converted and appended.  The loop interleaves the stages sample by
    sample, but they share no state. *)
Theorem writeData_stages {D : Type} `{Double D}
    (s : AudioProcessor.t D) (data : list byte) :
  Z.of_nat (length data) / 2 < 2 ^ 31 ->
  let '(pitched, shf) :=
    shifter_run (AudioProcessor.shifter s) (map normalise (decode data)) in
  let '(filtered, flt) := filter_run (AudioProcessor.filter s) pitched in
  AudioProcessor.writeData s data =
  (Z.of_nat (length data),
   {| AudioProcessor.openMode := AudioProcessor.openMode s;
      AudioProcessor.format := AudioProcessor.format s;
      AudioProcessor.filter := flt;
      AudioProcessor.shifter := shf;
      AudioProcessor.outputBuffer :=
        AudioProcessor.outputBuffer s ++
        flat_map qint16_bytes (map quantize_truncate filtered) |}).
Proof.
  intros Hfit. rewrite (writeData_consumed s data Hfit). unfold consumed.
  rewrite pipeline_stages.
  destruct (shifter_run _ _) as [pitched shf].
  destruct (filter_run _ pitched) as [filtered flt]. reflexivity.
Qed.

Lemma writeData_stages_witness :
  let s : AudioProcessor.t float := AudioProcessor.new default_format in
  let data := [x01; x02; x03] in
  let '(pitched, shf) :=
    shifter_run (AudioProcessor.shifter s) (map normalise (decode data)) in
  let '(filtered, flt) := filter_run (AudioProcessor.filter s) pitched in
  AudioProcessor.writeData s data =
  (Z.of_nat (length data),
   {| AudioProcessor.openMode := AudioProcessor.openMode s;
      AudioProcessor.format := AudioProcessor.format s;
      AudioProcessor.filter := flt;
      AudioProcessor.shifter := shf;
      AudioProcessor.outputBuffer :=
        AudioProcessor.outputBuffer s ++
        flat_map qint16_bytes (map quantize_truncate filtered) |}).
Proof.
  intros s data.
  apply (writeData_stages s data). reflexivity.
Defined.

(** ** The program's own session: a delay of 55125 samples, then the filter *)

(** The program's shifter: [1.0 / 0.8 * 44100] is 55125. *)
Lemma threshold_new :
  PitchShifter.threshold (PitchShifter.new lit_0_8 : PitchShifter.t float) =
  Z.of_nat (Z.to_nat 55125).
Proof. vm_compute. reflexivity. Qed.

(** X8. In binary64, for the processor as the program constructs it
    (cutoff 300, rate 44100, factor 0.8) and every sequence of [writeData]
    and [readData] calls after construction (each block's sample count
    fitting an [int]): the bytes appended to the output queue are the
    conversion of what the filter, started at rest, makes of the input
    delayed by 55125 samples (1.25 s), that is of 55125 times 0.0 followed
    by the normalised samples of all the blocks in order, cut to as many
    samples as came in.  How the input is cut into blocks, and what is
    read in between, makes no difference; what the reads handed out,
    followed by what is still queued, is that byte stream; the samples not
    yet out are the shifter's queue. *)
Theorem session_delayed_and_filtered
    (fmt : QAudioFormat) (calls : list call) :
  blocks_fit calls ->
  let s : AudioProcessor.t float := AudioProcessor.new fmt in
  let xs : list float := map normalise (samples_of calls) in
  let delayed :=
    firstn (length xs) (repeat (of_int 0) (Z.to_nat 55125) ++ xs) in
  let '(produced, appended, s') := session s calls in
  appended =
    flat_map qint16_bytes
      (map quantize_truncate
         (fst (filter_run (AudioProcessor.filter s) delayed)))
  /\ produced ++ AudioProcessor.outputBuffer s' = appended
  /\ AudioProcessor.filter s' =
     snd (filter_run (AudioProcessor.filter s) delayed)
  /\ PitchShifter.buffer (AudioProcessor.shifter s') =
     skipn (length xs - Z.to_nat 55125) xs.
Proof.
  intros Hfit s xs delayed.
  destruct (session_pipeline calls s Hfit) as (E & Ef & Es).
  rewrite pipeline_stages in E, Ef, Es. fold xs in E, Ef, Es.
  pose proof (shifter_run_delay (Z.to_nat 55125) xs
                (AudioProcessor.shifter s) threshold_new
                (Nat.le_0_l _)) as Hd.
  cbn zeta in Hd.
  change (PitchShifter.buffer (AudioProcessor.shifter s)) with (@nil float)
    in Hd.
  cbn [length app] in Hd. rewrite Nat.sub_0_r in Hd.
  rewrite Hd in E, Ef, Es. fold delayed in E, Ef, Es.
  pose proof (session_fifo calls s) as Hfifo.
  change (AudioProcessor.outputBuffer s) with (@nil byte) in Hfifo.
  destruct (filter_run (AudioProcessor.filter s) delayed) as [filtered flt].
  destruct (session s calls) as [[produced appended] s'].
  cbn [fst snd app] in *.
  rewrite Ef, Es. cbn [PitchShifter.buffer].
  split; [exact E|]. split; [exact Hfifo|]. split; reflexivity.
Qed.

Lemma session_delayed_and_filtered_witness :
  let s : AudioProcessor.t float := AudioProcessor.new default_format in
  let calls := [Consume [x01; x02; x03]; Produce 1; Consume [x04; x05]] in
  let xs : list float := map normalise (samples_of calls) in
  let delayed :=
    firstn (length xs) (repeat (of_int 0) (Z.to_nat 55125) ++ xs) in
  let '(produced, appended, s') := session s calls in
  appended =
    flat_map qint16_bytes
      (map quantize_truncate
         (fst (filter_run (AudioProcessor.filter s) delayed)))
  /\ produced ++ AudioProcessor.outputBuffer s' = appended
  /\ AudioProcessor.filter s' =
     snd (filter_run (AudioProcessor.filter s) delayed)
  /\ PitchShifter.buffer (AudioProcessor.shifter s') =
     skipn (length xs - Z.to_nat 55125) xs.
Proof.
  intros s calls.
  apply (session_delayed_and_filtered default_format calls).
  repeat constructor.
Defined.

(** X9. In binary64, for the processor as the program constructs it: as
    long as no more than 55125 samples have been written since
    construction, in however many blocks and with whatever reads in
    between, every byte appended to the output queue is zero, two for each
    sample written; the filter is still as constructed and the shifter's
    queue holds all the normalised samples written. *)
Theorem session_startup_silence (fmt : QAudioFormat) (calls : list call) :
  blocks_fit calls ->
  Z.of_nat (length (samples_of calls)) <= 55125 ->
  let s : AudioProcessor.t float := AudioProcessor.new fmt in
  let '(_, appended, s') := session s calls in
  appended = repeat x00 (2 * length (samples_of calls))
  /\ AudioProcessor.filter s' = AudioProcessor.filter s
  /\ PitchShifter.buffer (AudioProcessor.shifter s') =
     map normalise (samples_of calls).
Proof.
  intros Hfit Hlen s.
  assert (Hrest : LowPassFilter.process (AudioProcessor.filter s) (of_int 0) =
                  (of_int 0, AudioProcessor.filter s))
    by (vm_compute; reflexivity).
  assert (Hroom : Z.of_nat (length (PitchShifter.buffer
                                      (AudioProcessor.shifter s)) +
                            length (samples_of calls)) <=
                  PitchShifter.threshold (AudioProcessor.shifter s)).
  { change (PitchShifter.threshold (AudioProcessor.shifter s))
      with (PitchShifter.threshold
              (PitchShifter.new lit_0_8 : PitchShifter.t float)).
    rewrite threshold_new.
    change (PitchShifter.buffer (AudioProcessor.shifter s)) with (@nil float).
    cbn [length Nat.add]. rewrite Z2Nat.id by lia. exact Hlen. }
  destruct (session_pipeline calls s Hfit) as (E & Ef & Es).
  rewrite (pipeline_fill quantize_truncate (AudioProcessor.filter s) Hrest
             (samples_of calls) (AudioProcessor.shifter s) Hroom)
    in E, Ef, Es.
  destruct (session s calls) as [[produced appended] s'].
  cbn [fst snd] in *.
  assert (Hq : quantize_truncate (of_int 0 : float) = 0)
    by (vm_compute; reflexivity).
  rewrite Hq, flat_map_zero_samples in E.
  rewrite Ef, Es. cbn [PitchShifter.buffer]. repeat split. exact E.
Qed.

Lemma session_startup_silence_witness :
  let s : AudioProcessor.t float := AudioProcessor.new default_format in
  let calls := [Consume [xff; x7f; x00]; Produce 1; Consume [x00; x80]] in
  let '(_, appended, s') := session s calls in
  appended = repeat x00 (2 * length (samples_of calls))
  /\ AudioProcessor.filter s' = AudioProcessor.filter s
  /\ PitchShifter.buffer (AudioProcessor.shifter s') =
     map normalise (samples_of calls).
Proof.
  intros s calls.
  apply (session_startup_silence default_format calls).
  - repeat constructor.
  - vm_compute. discriminate.
Defined.

(** ** The range of the conversion back to integers *)

Module TruncationFacts.
Import Rounding RoundingFacts.

Lemma SFtrunc_value (f : spec_float) :
  SFtrunc f = option_map Qtrunc (Binary64.SFvalue f).
Proof.
  destruct f as [s|s| |s m e]; try reflexivity.
  cbn [SFtrunc Binary64.SFvalue option_map]. f_equal.
  destruct (0 <=? e) eqn:E; [apply Z.leb_le in E | apply Z.leb_gt in E].
  - rewrite Z.shiftl_mul_pow2 by lia.
    destruct s; unfold Qtrunc, inject_Z; cbn [Qopp Qnum Qden];
      rewrite Z.quot_1_r; reflexivity.
  - rewrite Z.shiftr_div_pow2 by lia.
    assert (Ed : Z.pos (2 ^ Z.to_pos (- e)) = 2 ^ (- e)).
    { rewrite Pos2Z.inj_pow, Z2Pos.id by lia. reflexivity. }
    assert (Hd : 0 < 2 ^ (- e)) by (apply Z.pow_pos_nonneg; lia).
    destruct s; unfold Qtrunc; cbn [Qopp Qnum Qden]; rewrite Ed.
    + change (- Z.pos m) with (Z.opp (Z.pos m)).
      rewrite Z.quot_opp_l by lia. rewrite Z.quot_div_nonneg by lia.
      reflexivity.
    + rewrite Z.quot_div_nonneg by lia. reflexivity.
Qed.

(** A float of magnitude at most [N] truncates to an integer of magnitude
    at most [N]. *)
Lemma SFtrunc_bound (f : spec_float) (N : Z) :
  is_fin f -> Z.abs (sval f) <= N * One ->
  exists z, SFtrunc f = Some z /\ Z.abs z <= N.
Proof.
  assert (HO : 0 < One) by (apply Z.pow_pos_nonneg; lia).
  destruct f as [s|s| |s m e]; cbn [is_fin]; try contradiction.
  - intros _ Hb. exists 0. split; [reflexivity|]. cbn [sval] in Hb.
    change (Z.abs 0) with 0 in *. nia.
  - intros He Hb.
    assert (Habs : Z.abs (sval (S754_finite s m e)) = Z.pos m * 2 ^ (e + 1074)).
    { cbn [sval]. assert (0 < 2 ^ (e + 1074)) by (apply Z.pow_pos_nonneg; lia).
      pose proof (Pos2Z.is_pos m). destruct s; nia. }
    rewrite Habs in Hb. clear Habs.
    cbn [SFtrunc].
    set (a := if 0 <=? e then Z.shiftl (Z.pos m) e
              else Z.shiftr (Z.pos m) (- e)).
    assert (Ha : 0 <= a <= N).
    { unfold a. destruct (0 <=? e) eqn:E;
        [apply Z.leb_le in E | apply Z.leb_gt in E].
      - rewrite Z.shiftl_mul_pow2 by lia.
        assert (He2 : 2 ^ (e + 1074) = 2 ^ e * One)
          by (unfold One; apply pow2_split; lia).
        rewrite He2, Z.mul_assoc in Hb.
        assert (0 < 2 ^ e) by (apply Z.pow_pos_nonneg; lia).
        split; [lia|].
        apply (Z.mul_le_mono_pos_r _ _ One); [exact HO | exact Hb].
      - rewrite Z.shiftr_div_pow2 by lia.
        assert (Hd : 0 < 2 ^ (- e)) by (apply Z.pow_pos_nonneg; lia).
        assert (He2 : One = 2 ^ (- e) * 2 ^ (e + 1074)).
        { unfold One. rewrite <- pow2_split by lia. f_equal. lia. }
        assert (Hp : 0 < 2 ^ (e + 1074)) by (apply Z.pow_pos_nonneg; lia).
        rewrite He2, Z.mul_assoc in Hb.
        apply Z.mul_le_mono_pos_r in Hb; [|exact Hp].
        split; [apply Z.div_pos; lia|].
        apply Z.div_le_upper_bound; lia. }
    exists (if s then - a else a). split; [reflexivity|].
    destruct s; lia.
Qed.

(** Scaling a value of [-1, 1] by a positive float [c]: the rounded
    product is at most [c] in magnitude. *)
Lemma SFmul_scale (x c : spec_float) (mc : positive) (ec B : Z) :
  c = S754_finite false mc ec -> vfin x -> vfin c ->
  Z.abs (sval x) <= One -> 0 <= B <= 972 -> sval c < 2 ^ B * One ->
  let t := SF64mul x c in
  is_fin t /\ Z.abs (sval t) <= sval c.
Proof.
  intros -> Hx Hc Bx HB Bc t. subst t.
  pose proof (vfin_is_fin _ Hx) as Fx. pose proof (vfin_is_fin _ Hc) as Fc.
  assert (HO : 0 < One) by (apply Z.pow_pos_nonneg; lia).
  cbn [is_fin vfin] in Hc, Fc.
  assert (PC : 0 < 2 ^ (ec + 1074)) by (apply Z.pow_pos_nonneg; lia).
  pose proof (Pos2Z.is_pos mc) as Pmc.
  cbn [sval] in *. rewrite Z.mul_1_l in *.
  set (C := Z.pos mc * 2 ^ (ec + 1074)) in *.
  assert (HC : 0 < C) by (apply Z.mul_pos_pos; lia).
  unfold SF64mul, SFmul.
  destruct x as [sx| | |sx mx ex]; try contradiction.
  - split; [exact I|]. change (0 <= C). lia.
  - cbn [is_fin vfin] in *.
    assert (PX : 0 < 2 ^ (ex + 1074)) by (apply Z.pow_pos_nonneg; lia).
    pose proof (Pos2Z.is_pos mx) as Pmx.
    assert (AbsX : Z.abs (sval (S754_finite sx mx ex)) =
                   Z.pos mx * 2 ^ (ex + 1074)).
    { cbn [sval].
      assert (0 <= Z.pos mx * 2 ^ (ex + 1074))
        by (apply Z.mul_nonneg_nonneg; lia).
      destruct sx; lia. }
    rewrite AbsX in Bx. clear AbsX.
    set (X := Z.pos mx * 2 ^ (ex + 1074)) in *.
    assert (HX : 0 < X) by (apply Z.mul_pos_pos; lia).
    assert (PB : 0 < 2 ^ B) by (apply Z.pow_pos_nonneg; lia).
    (* the exact product at scale 2^-2148, the scale kept as a variable *)
    remember 2148 as K eqn:EK.
    assert (E : Z.pos (mx * mc) * 2 ^ (ex + ec + K) = X * C).
    { replace (ex + ec + K) with ((ex + 1074) + (ec + 1074)) by lia.
      rewrite pow2_split by lia. rewrite Pos2Z.inj_mul. unfold X, C. ring. }
    assert (EC : Z.pos mc * 2 ^ (ec + K) = One * C).
    { replace (ec + K) with (1074 + (ec + 1074)) by lia.
      rewrite pow2_split by lia. unfold One, C. ring. }
    assert (E4 : 2 ^ (K + B) = One * (2 ^ B * One)).
    { replace (K + B) with (1074 + (B + 1074)) by lia.
      rewrite !pow2_split by lia. reflexivity. }
    assert (HV : Z.pos (mx * mc) * 2 ^ (ex + ec + K) < 2 ^ (K + B)).
    { rewrite E, E4.
      apply Z.le_lt_trans with (One * C).
      - apply Z.mul_le_mono_nonneg_r; lia.
      - apply Z.mul_lt_mono_pos_l; lia. }
    assert (HVU : Z.pos (mx * mc) * 2 ^ (ex + ec + K) <=
                  Z.pos mc * 2 ^ (ec + K)).
    { rewrite E, EC. apply Z.mul_le_mono_nonneg_r; lia. }
    destruct (round_aux_mag_below K B (xorb sx false) (mx * mc) (ex + ec)
                ltac:(lia) ltac:(lia) HB HV) as [Hs _].
    pose proof (rounded_le_float_below K B (xorb sx false) (mx * mc) (ex + ec)
                  mc ec ltac:(lia) ltac:(lia) HB HV Hc HVU) as Hle.
    rewrite EC in Hle. clear HV HVU E EC E4.
    destruct (binary_round_aux prec emax (xorb sx false) (Z.pos (mx * mc))
                (ex + ec) loc_Exact)
      as [s| | |s m e]; cbn [finite_signed] in Hs; try contradiction.
    + split; [exact I|]. change (0 <= C). lia.
    + destruct Hs as [_ He]. cbn [is_fin]. split; [exact He|].
      cbn [mag] in Hle.
      assert (PM : 0 < 2 ^ (e + 1074)) by (apply Z.pow_pos_nonneg; lia).
      pose proof (Pos2Z.is_pos m) as Pm.
      assert (EM : Z.pos m * 2 ^ (e + K) = One * (Z.pos m * 2 ^ (e + 1074))).
      { replace (e + K) with (1074 + (e + 1074)) by lia.
        rewrite pow2_split by lia. unfold One. ring. }
      rewrite EM in Hle. clear EM.
      set (T := Z.pos m * 2 ^ (e + 1074)) in *.
      assert (HT : 0 < T) by (apply Z.mul_pos_pos; lia).
      assert (Hmag : T <= C).
      { apply (Z.mul_le_mono_pos_l _ _ One); [exact HO | exact Hle]. }
      cbn [sval]. fold T.
      destruct s; lia.
Qed.

End TruncationFacts.

Lemma all_in_spec (f : Z -> bool) (k : nat) :
  forall lo, all_in k lo f = true ->
  forall z, lo <= z < lo + 2 ^ Z.of_nat k -> f z = true.
Proof.
  induction k as [|k IH]; intros lo Hall z Hz.
  - cbn in *. replace z with lo by lia. exact Hall.
  - cbn [all_in] in Hall. apply andb_prop in Hall. destruct Hall as [H1 H2].
    rewrite Nat2Z.inj_succ, Z.pow_succ_r in Hz by lia.
    destruct (Z_lt_ge_dec z (lo + 2 ^ Z.of_nat k)) as [L|G].
    + apply (IH lo H1). lia.
    + apply (IH _ H2). lia.
Qed.

Lemma all_qint16 (f : Z -> bool) :
  all_in 16 (-32768) f = true -> forall z, is_qint16 z -> f z = true.
Proof.
  intros Hall z Hz. apply (all_in_spec f 16 (-32768) Hall).
  unfold is_qint16 in Hz. change (2 ^ Z.of_nat 16) with 65536. lia.
Qed.

Lemma trunc_SFtrunc (d : float) : trunc d = Rounding.SFtrunc (Prim2SF d).
Proof. symmetry. apply TruncationFacts.SFtrunc_value. Qed.

(** Every 16-bit sample is normalised into [-1, 1]. *)
Lemma normalise_in_unit_range (z : Z) :
  is_qint16 z -> in_unit_range (normalise z : float).
Proof.
  intros Hz.
  assert (Hall : all_in 16 (-32768) unit_normalised = true)
    by (vm_compute; reflexivity).
  pose proof (all_qint16 _ Hall z Hz) as Hc.
  unfold unit_normalised in Hc. apply andb_prop in Hc. exact Hc.
Qed.

(** The conversion back of a value of [-1, 1] is defined: the product with
    32767.0 is finite and truncates into [-32767, 32767]. *)
Lemma quantize_in_range (v : float) :
  in_unit_range v ->
  exists z, trunc (v * of_int 32767)%D = Some z
            /\ -32767 <= z <= 32767
            /\ quantize_truncate v = z.
Proof.
  intros [Hlo Hhi].
  cbn [dleb binary64 of_int] in Hlo, Hhi.
  rewrite FloatAxioms.leb_spec in Hlo, Hhi.
  change (Prim2SF (Binary64.of_int 1)) with Rounding.SFone in Hhi.
  change (Prim2SF (Binary64.of_int (-1))) with Rounding.SFmone in Hlo.
  destruct (RoundingFacts.SFleb_one_inv _ (Prim2SF_valid v) Hlo Hhi)
    as [Vv Bv].
  assert (Ec : Prim2SF (of_int 32767) =
               S754_finite false 9006924376834048 (-38))
    by (vm_compute; reflexivity).
  destruct (TruncationFacts.SFmul_scale (Prim2SF v) _ 9006924376834048 (-38)
              15 Ec Vv eq_refl ltac:(lia) ltac:(lia) eq_refl) as [Ft Bt].
  rewrite Ec in Ft, Bt.
  change (Rounding.sval (S754_finite false 9006924376834048 (-38)))
    with (32767 * Rounding.One) in Bt.
  destruct (TruncationFacts.SFtrunc_bound _ 32767 Ft Bt) as (z & Ez & Hz).
  exists z.
  assert (Et : trunc (v * of_int 32767)%D = Some z).
  { rewrite trunc_SFtrunc. cbn [dmul binary64].
    rewrite FloatAxioms.mul_spec, Ec. exact Ez. }
  split; [exact Et|]. split; [lia|].
  unfold quantize_truncate, static_cast_qint16. rewrite Et.
  apply wrap_signed_id; lia.
Qed.

(** The shifter hands out silence or a queued sample. *)
Lemma process_keeps {D : Type} `{Double D} (P : D -> Prop)
    (s : PitchShifter.t D) (x : D) :
  P (of_int 0) -> P x -> Forall P (PitchShifter.buffer s) ->
  P (fst (PitchShifter.process s x))
  /\ Forall P (PitchShifter.buffer (snd (PitchShifter.process s x))).
Proof.
  intros H0 Hx Hb.
  assert (Hp : Forall P (PitchShifter.buffer s ++ [x]))
    by (apply Forall_app; split;
        [exact Hb | constructor; [exact Hx|constructor]]).
  unfold PitchShifter.process.
  destruct (PitchShifter.threshold s <? _); cbn [fst snd PitchShifter.buffer].
  - destruct (PitchShifter.buffer s ++ [x]) as [|h rest];
      cbn [hd tl]; [split; [exact H0 | constructor]|].
    inversion Hp; subst. split; assumption.
  - split; [exact H0 | exact Hp].
Qed.

(** The loop of [writeData] from a well-ranged state: every product
    converted is in range, and the state stays well-ranged. *)
Lemma writeData_loop_ranged (data : list byte) (n : nat) :
  forall (i : nat) (flt : LowPassFilter.t float) (shf : PitchShifter.t float)
         (acc : list byte),
    (of_int 0 <? LowPassFilter.alpha flt)%D = true ->
    (LowPassFilter.alpha flt <=? of_int 1)%D = true ->
    in_unit_range (LowPassFilter.prev flt) ->
    Forall in_unit_range (PitchShifter.buffer shf) ->
    let '(flt', shf', out) :=
      AudioProcessor.writeData_loop n i data flt shf acc in
    LowPassFilter.alpha flt' = LowPassFilter.alpha flt
    /\ in_unit_range (LowPassFilter.prev flt')
    /\ Forall in_unit_range (PitchShifter.buffer shf')
    /\ exists os, out = acc ++ flat_map qint16_bytes os
                  /\ Forall (fun z => -32767 <= z <= 32767) os.
Proof.
  induction n as [|n IH]; intros i flt shf acc Ha0 Ha1 Hp Hb.
  - cbn [AudioProcessor.writeData_loop].
    split; [reflexivity|]. split; [exact Hp|]. split; [exact Hb|].
    exists (@nil Z). rewrite app_nil_r. split; [reflexivity | constructor].
  - cbn [AudioProcessor.writeData_loop].
    fold (normalise (D := float) (read_qint16 data i)).
    pose proof (normalise_in_unit_range _ (read_qint16_range data i)) as Hx.
    assert (H0 : in_unit_range (of_int 0 : float))
      by (split; vm_compute; reflexivity).
    destruct (process_keeps in_unit_range shf _ H0 Hx Hb) as [Hpitched Hb'].
    destruct (PitchShifter.process shf _) as [pitched shf'].
    cbn [fst snd] in Hpitched, Hb'.
    pose proof (process_in_unit_range_binary64 _ _ _ Ha0 Ha1 Hp Hpitched)
      as Hfiltered.
    unfold LowPassFilter.process.
    set (filtered := (LowPassFilter.prev flt +
                      LowPassFilter.alpha flt *
                      (pitched - LowPassFilter.prev flt))%D) in *.
    destruct (quantize_in_range filtered Hfiltered) as (z & _ & Hz & Eq).
    unfold quantize_truncate in Eq. rewrite Eq.
    specialize (IH (S i) {| LowPassFilter.alpha := LowPassFilter.alpha flt;
                            LowPassFilter.prev := filtered |} shf'
                  (acc ++ qint16_bytes z) Ha0 Ha1 Hfiltered Hb').
    destruct (AudioProcessor.writeData_loop n (S i) data _ shf' _)
      as [[flt'' shf''] out].
    destruct IH as (Ea & Hp'' & Hb'' & os & Eout & Hos).
    split; [exact Ea|]. split; [exact Hp''|]. split; [exact Hb''|].
    exists (z :: os). cbn [flat_map]. rewrite Eout, <- app_assoc.
    split; [reflexivity | constructor; assumption].
Qed.

(** The iteration of index [i + k] starts where [k] iterations from index
    [i] leave the filter, the shifter and the bytes. *)
Lemma writeData_loop_snoc {D : Type} `{Double D} (data : list byte)
    (k : nat) :
  forall (i : nat) (flt : LowPassFilter.t D) (shf : PitchShifter.t D)
         (acc : list byte),
    AudioProcessor.writeData_loop (S k) i data flt shf acc =
    let '(flt1, shf1, out) :=
      AudioProcessor.writeData_loop k i data flt shf acc in
    let '(pitched, shf2) :=
      PitchShifter.process shf1 (normalise (read_qint16 data (i + k))) in
    let '(filtered, flt2) := LowPassFilter.process flt1 pitched in
    (flt2, shf2,
     out ++ qint16_bytes (static_cast_qint16 (filtered * of_int 32767)%D)).
Proof.
  induction k as [|k IH]; intros i flt shf acc.
  - cbn [AudioProcessor.writeData_loop]. rewrite Nat.add_0_r.
    unfold normalise.
    destruct (PitchShifter.process shf _) as [pitched shf2].
    destruct (LowPassFilter.process flt pitched) as [filtered flt2].
    reflexivity.
  - specialize (IH (S i)).
    replace (S i + k)%nat with (i + S k)%nat in IH by lia.
    change (AudioProcessor.writeData_loop (S (S k)) i data flt shf acc)
      with (let '(pitched, shf') :=
              PitchShifter.process shf
                (of_int (read_qint16 data i) / of_int 32768)%D in
            let '(filtered, flt') := LowPassFilter.process flt pitched in
            AudioProcessor.writeData_loop (S k) (S i) data flt' shf'
              (acc ++ qint16_bytes
                        (static_cast_qint16 (filtered * of_int 32767)%D))).
    change (AudioProcessor.writeData_loop (S k) i data flt shf acc)
      with (let '(pitched, shf') :=
              PitchShifter.process shf
                (of_int (read_qint16 data i) / of_int 32768)%D in
            let '(filtered, flt') := LowPassFilter.process flt pitched in
            AudioProcessor.writeData_loop k (S i) data flt' shf'
              (acc ++ qint16_bytes
                        (static_cast_qint16 (filtered * of_int 32767)%D))).
    destruct (PitchShifter.process shf _) as [pitched shf'].
    destruct (LowPassFilter.process flt pitched) as [filtered flt'].
    apply IH.
Qed.

(** One iteration of the loop from a well-ranged filter and shifter: the
    filtered sample is in [-1, 1], its product with 32767.0 is finite and
    truncates into [-32767, 32767], and the conversion is that
    truncation. *)
Lemma iteration_in_range (flt : LowPassFilter.t float)
    (shf : PitchShifter.t float) (z : Z) :
  (of_int 0 <? LowPassFilter.alpha flt)%D = true ->
  (LowPassFilter.alpha flt <=? of_int 1)%D = true ->
  in_unit_range (LowPassFilter.prev flt) ->
  Forall in_unit_range (PitchShifter.buffer shf) ->
  is_qint16 z ->
  let filtered :=
    fst (LowPassFilter.process flt
           (fst (PitchShifter.process shf (normalise z)))) in
  in_unit_range filtered
  /\ exists t, trunc (filtered * of_int 32767)%D = Some t
               /\ -32767 <= t <= 32767
               /\ static_cast_qint16 (filtered * of_int 32767)%D = t.
Proof.
  intros Ha0 Ha1 Hp Hb Hz filtered.
  pose proof (normalise_in_unit_range z Hz) as Hx.
  assert (H0 : in_unit_range (of_int 0 : float))
    by (split; vm_compute; reflexivity).
  destruct (process_keeps in_unit_range shf _ H0 Hx Hb) as [Hpitched _].
  pose proof (process_in_unit_range_binary64 _ _ _ Ha0 Ha1 Hp Hpitched)
    as Hfiltered.
  split; [exact Hfiltered|].
  destruct (quantize_in_range filtered Hfiltered) as (t & Et & Ht & Eq).
  exists t. split; [exact Et|]. split; [exact Ht | exact Eq].
Qed.

Lemma well_ranged_new (fmt : QAudioFormat) :
  well_ranged (AudioProcessor.new fmt : AudioProcessor.t float).
Proof.
  unfold well_ranged. cbn [AudioProcessor.new AudioProcessor.open
    AudioProcessor.filter AudioProcessor.shifter PitchShifter.new
    PitchShifter.buffer].
  repeat split; try (vm_compute; reflexivity). constructor.
Qed.

Lemma writeData_well_ranged (s : AudioProcessor.t float) (data : list byte) :
  well_ranged s ->
  well_ranged (snd (AudioProcessor.writeData s data))
  /\ exists os, appended_by s data = flat_map qint16_bytes os
                /\ Forall (fun z => -32767 <= z <= 32767) os.
Proof.
  intros (Ha0 & Ha1 & Hp & Hb).
  unfold AudioProcessor.writeData, appended_by.
  pose proof (writeData_loop_ranged data
                (Z.to_nat (to_int (Z.quot (Z.of_nat (length data)) 2))) 0
                (AudioProcessor.filter s) (AudioProcessor.shifter s) []
                Ha0 Ha1 Hp Hb) as Hloop.
  destruct (AudioProcessor.writeData_loop _ 0 data _ _ [])
    as [[flt shf] out].
  destruct Hloop as (Ea & Hp' & Hb' & os & Eout & Hos).
  cbn [snd]. split.
  - unfold well_ranged.
    cbn [AudioProcessor.filter AudioProcessor.shifter].
    rewrite Ea.
    split; [exact Ha0|]. split; [exact Ha1|]. split; [exact Hp' | exact Hb'].
  - exists os. split; [exact Eout | exact Hos].
Qed.

Lemma readData_well_ranged {D : Type} `{Double D}
    (s : AudioProcessor.t D) (maxlen : Z) :
  well_ranged s -> well_ranged (snd (AudioProcessor.readData s maxlen)).
Proof.
  unfold AudioProcessor.readData.
  destruct (AudioProcessor.outputBuffer s); intros Hs; exact Hs.
Qed.

Lemma session_well_ranged (calls : list call) :
  forall s : AudioProcessor.t float,
    well_ranged s ->
    well_ranged (snd (session s calls))
    /\ exists os, snd (fst (session s calls)) = flat_map qint16_bytes os
                  /\ Forall (fun z => -32767 <= z <= 32767) os.
Proof.
  induction calls as [|[data|maxlen] calls IH]; intros s Hs.
  - cbn [session fst snd]. split; [exact Hs|].
    exists (@nil Z). split; [reflexivity | constructor].
  - cbn [session].
    destruct (writeData_well_ranged s data Hs) as (Hs1 & os1 & E1 & H1).
    destruct (IH _ Hs1) as (Hs' & os & E & Hos).
    destruct (session _ calls) as [[produced appended] s'].
    cbn [fst snd] in *. split; [exact Hs'|].
    exists (os1 ++ os). rewrite flat_map_app, E1, E.
    split; [reflexivity | apply Forall_app; split; assumption].
  - cbn [session].
    pose proof (readData_well_ranged s maxlen Hs) as Hs1.
    destruct (AudioProcessor.readData s maxlen) as [[n out] s1].
    cbn [snd] in Hs1.
    destruct (IH _ Hs1) as (Hs' & os & E & Hos).
    destruct (session s1 calls) as [[produced appended] s'].
    cbn [fst snd] in *. split; [exact Hs'|].
    exists os. split; assumption.
Qed.

(** X10. In binary64, the processor as the program constructs it is
    well-ranged (the filter coefficient in (0, 1], [prev] and every queued
    sample in [-1, 1]), and from a well-ranged processor every sequence of
    [writeData] and [readData] calls, whatever the bytes and the counts,
    leaves it well-ranged and appends whole samples only, each of them in
    [-32767, 32767].  In every iteration of the loop of [writeData] on a
    well-ranged processor (iteration [k] starts where [k] iterations leave
    the filter, the shifter and the bytes), the filtered sample is in
    [-1, 1] and the product [filteredSample * 32767.0] is finite and
    truncates to an integer of [-32767, 32767], within the range of
    [qint16]; the conversion [static_cast<qint16>] gives that integer and
    its two bytes are what the iteration appends.  So the conversion never
    overflows, a clamp would change nothing, and the sample -32768 is never
    produced. *)
Theorem session_samples_in_range (fmt : QAudioFormat) :
  well_ranged (AudioProcessor.new fmt : AudioProcessor.t float)
  /\ (forall (s : AudioProcessor.t float) (calls : list call),
        well_ranged s ->
        let '(_, appended, s') := session s calls in
        well_ranged s'
        /\ Forall (fun z => -32767 <= z <= 32767) (decode appended)
        /\ flat_map qint16_bytes (decode appended) = appended)
  /\ (forall (s : AudioProcessor.t float) (data : list byte) (k : nat),
        well_ranged s ->
        let '(flt, shf, out) :=
          AudioProcessor.writeData_loop k 0 data
            (AudioProcessor.filter s) (AudioProcessor.shifter s) [] in
        let '(pitched, shf') :=
          PitchShifter.process shf (normalise (read_qint16 data k)) in
        let '(filtered, flt') := LowPassFilter.process flt pitched in
        in_unit_range pitched
        /\ in_unit_range filtered
        /\ exists t : Z,
             trunc (filtered * of_int 32767)%D = Some t
             /\ -32767 <= t <= 32767
             /\ static_cast_qint16 (filtered * of_int 32767)%D = t
             /\ AudioProcessor.writeData_loop (S k) 0 data
                  (AudioProcessor.filter s) (AudioProcessor.shifter s) [] =
                (flt', shf', out ++ qint16_bytes t)).
Proof.
  split; [apply well_ranged_new|]. split.
  - intros s calls Hs.
    destruct (session_well_ranged calls s Hs) as (Hs' & os & E & Hos).
    destruct (session s calls) as [[produced appended] s'].
    cbn [fst snd] in *. split; [exact Hs'|].
    assert (Ed : decode appended = os).
    { rewrite E, decode_encode.
      clear E. induction Hos as [|z os Hz Hos IH]; [reflexivity|].
      cbn [map]. rewrite IH. f_equal. apply wrap_signed_id; lia. }
    rewrite Ed. split; [exact Hos | symmetry; exact E].
  - intros s data k (Ha0 & Ha1 & Hp & Hb).
    pose proof (writeData_loop_ranged data k 0 (AudioProcessor.filter s)
                  (AudioProcessor.shifter s) [] Ha0 Ha1 Hp Hb) as Hloop.
    pose proof (writeData_loop_snoc data k 0 (AudioProcessor.filter s)
                  (AudioProcessor.shifter s) []) as Hsnoc.
    destruct (AudioProcessor.writeData_loop k 0 data _ _ [])
      as [[flt shf] out].
    destruct Hloop as (Ea & Hp' & Hb' & _).
    rewrite <- Ea in Ha0, Ha1.
    pose proof (iteration_in_range flt shf (read_qint16 data k)
                  Ha0 Ha1 Hp' Hb' (read_qint16_range data k)) as Hit.
    assert (H0 : in_unit_range (of_int 0 : float))
      by (split; vm_compute; reflexivity).
    destruct (process_keeps in_unit_range shf _ H0
                (normalise_in_unit_range _ (read_qint16_range data k)) Hb')
      as [Hpitched _].
    cbn [Nat.add] in Hsnoc.
    cbn zeta in Hit.
    destruct (PitchShifter.process shf (normalise (read_qint16 data k)))
      as [pitched shf'].
    cbn [fst] in Hit, Hpitched.
    destruct (LowPassFilter.process flt pitched) as [filtered flt'].
    cbn [fst] in Hit.
    destruct Hit as (Hf & t & Et & Ht & Ec).
    split; [exact Hpitched|]. split; [exact Hf|].
    exists t. split; [exact Et|]. split; [exact Ht|]. split; [exact Ec|].
    rewrite Hsnoc, Ec. reflexivity.
Qed.

(** X11. In binary64, for every 16-bit sample [z]: [z / 32768.0] is in
    [-1, 1], and converting it straight back, [static_cast<qint16>(z /
    32768.0 * 32767.0)], gives [z] moved one step toward zero ([z - 1] for
    a positive sample, [z + 1] for a negative one, 0 for 0).  The two
    conversions of [writeData] are not inverse to each other: the divisor
    is 32768 and the multiplier 32767. *)
Theorem normalise_quantize_loses_one_step (z : Z) :
  is_qint16 z ->
  in_unit_range (normalise z : float)
  /\ quantize_truncate (normalise z : float) = z - Z.sgn z.
Proof.
  intros Hz. split; [apply normalise_in_unit_range; exact Hz|].
  assert (Hall : all_in 16 (-32768) loses_one_step = true)
    by (vm_compute; reflexivity).
  pose proof (all_qint16 _ Hall z Hz) as Hc.
  unfold loses_one_step in Hc.
  unfold quantize_truncate, static_cast_qint16. rewrite trunc_SFtrunc.
  destruct (Rounding.SFtrunc _) as [t|]; [|discriminate].
  apply Z.eqb_eq in Hc. subst t.
  apply wrap_signed_id; [lia|]. unfold is_qint16 in Hz.
  change (2 ^ (16 - 1)) with 32768. lia.
Qed.

Lemma normalise_quantize_loses_one_step_witness :
  quantize_truncate (normalise 32767 : float) = 32767 - Z.sgn 32767
  /\ quantize_truncate (normalise (-32768) : float) =
     -32768 - Z.sgn (-32768).
Proof.
  split.
  - apply (normalise_quantize_loses_one_step 32767). unfold is_qint16. lia.
  - apply (normalise_quantize_loses_one_step (-32768)). unfold is_qint16. lia.
Defined.

(** ** A filter at its steady state *)

Lemma SFfinite_value (f : spec_float) :
  Binary64.SFvalue f <> None -> Rounding.SFfinite f.
Proof. destruct f; cbn; auto. Qed.

Lemma same_number_value (p x : spec_float) :
  Rounding.same_number p x -> Binary64.SFvalue p = Binary64.SFvalue x.
Proof.
  intros [->|(s1 & s2 & -> & ->)]; reflexivity.
Qed.

(** [p + a * (x - p)] when [p] and [x] are the same number: the difference
    is a zero, so is the product, and the sum is [p]. *)
Lemma SF_hold_step (a p x : spec_float) :
  Rounding.SFfinite a -> Rounding.SFfinite x -> Rounding.same_number p x ->
  Rounding.same_number (SF64add p (SF64mul a (SF64sub x p))) x.
Proof.
  intros Ha Hx Hpx.
  assert (Hsub : exists s, SF64sub x p = S754_zero s).
  { destruct Hpx as [->|(s1 & s2 & -> & ->)].
    - destruct x as [sx| | |sx mx ex]; try contradiction.
      + destruct sx; eexists; reflexivity.
      + unfold SF64sub, SFsub. rewrite Z.sub_diag. eexists. reflexivity.
    - destruct s1, s2; eexists; reflexivity. }
  destruct Hsub as [s0 ->].
  assert (Hmul : exists s, SF64mul a (S754_zero s0) = S754_zero s).
  { destruct a as [sa| | |sa ma ea]; try contradiction;
      eexists; reflexivity. }
  destruct Hmul as [s1 ->].
  destruct Hpx as [->|(s2 & s3 & -> & ->)].
  - destruct x as [sx| | |sx mx ex]; try contradiction.
    + right. destruct sx, s1; eexists; eexists; split; reflexivity.
    + left. reflexivity.
  - right. destruct s2, s1; eexists; eexists; split; reflexivity.
Qed.

Lemma float_hold_step (a p x : float) :
  dvalue a <> None -> dvalue x <> None ->
  Rounding.same_number (Prim2SF p) (Prim2SF x) ->
  Rounding.same_number (Prim2SF (p + a * (x - p))%D) (Prim2SF x).
Proof.
  intros Ha Hx Hpx. cbn [dadd dmul dsub binary64].
  rewrite FloatAxioms.add_spec, FloatAxioms.mul_spec, FloatAxioms.sub_spec.
  apply SF_hold_step; try assumption; apply SFfinite_value; assumption.
Qed.

Lemma filter_run_hold (x : float) (n : nat) :
  forall f : LowPassFilter.t float,
    dvalue (LowPassFilter.alpha f) <> None -> dvalue x <> None ->
    Rounding.same_number (Prim2SF (LowPassFilter.prev f)) (Prim2SF x) ->
    Forall (fun o : float => dvalue o = dvalue x)
      (fst (filter_run f (repeat x n)))
    /\ dvalue (LowPassFilter.prev (snd (filter_run f (repeat x n)))) =
       dvalue x.
Proof.
  induction n as [|n IH]; intros f Ha Hx Hp.
  - cbn [repeat filter_run fst snd]. split; [constructor|].
    apply same_number_value. exact Hp.
  - cbn [repeat filter_run]. unfold LowPassFilter.process.
    pose proof (float_hold_step _ _ _ Ha Hx Hp) as Ho.
    set (o := (LowPassFilter.prev f +
               LowPassFilter.alpha f * (x - LowPassFilter.prev f))%D) in *.
    destruct (IH {| LowPassFilter.alpha := LowPassFilter.alpha f;
                    LowPassFilter.prev := o |} Ha Hx Ho) as [Hall Hlast].
    destruct (filter_run _ (repeat x n)) as [os f'].
    cbn [fst snd] in *. split; [|exact Hlast].
    constructor; [|exact Hall].
    apply same_number_value. exact Ho.
Qed.

(** X12. In binary64, for every filter with a finite [alpha] (of whatever
    sign or size) whose [prev] is a finite value [x]: fed [x] again and
    again, [process] returns the number [x] every time and [prev] stays
    that number.  The difference [input - prev] is an exact zero, so no
    rounding error builds up at the steady state. *)
Theorem LowPassFilter_holds_steady
    (f : LowPassFilter.t float) (x : float) (n : nat) :
  dvalue (LowPassFilter.alpha f) <> None ->
  dvalue x <> None ->
  LowPassFilter.prev f = x ->
  Forall (fun o : float => dvalue o = dvalue x)
    (fst (filter_run f (repeat x n)))
  /\ dvalue (LowPassFilter.prev (snd (filter_run f (repeat x n)))) =
     dvalue x.
Proof.
  intros Ha Hx Hp. apply filter_run_hold; try assumption.
  left. rewrite Hp. reflexivity.
Qed.

Lemma LowPassFilter_holds_steady_witness :
  let f : LowPassFilter.t float :=
    {| LowPassFilter.alpha :=
         LowPassFilter.alpha
           (LowPassFilter.new (of_int 300) (of_int SAMPLE_RATE));
       LowPassFilter.prev := normalise 12345 |} in
  Forall (fun o : float => dvalue o = dvalue (normalise 12345 : float))
    (fst (filter_run f (repeat (normalise 12345) 3))).
Proof.
  intros f.
  refine (proj1 (LowPassFilter_holds_steady f (normalise 12345) 3 _ _ _)).
  - vm_compute. discriminate.
  - vm_compute. discriminate.
  - reflexivity.
Defined.

(** ** A cutoff of zero *)

(** A float above zero is a positive finite number or plus infinity. *)
Lemma SFltb_zero_cases (x : spec_float) :
  SFltb (S754_zero false) x = true ->
  x = S754_infinity false \/ exists m e, x = S754_finite false m e.
Proof.
  destruct x as [s|[|]| |[|] m e]; cbn; intros Hlt; try discriminate.
  - left. reflexivity.
  - right. exists m, e. reflexivity.
Qed.

(** A cutoff of 0.0: [RC] is plus infinity and [alpha] is 0.0. *)
Lemma zero_cutoff_alpha (sampleRate : float) :
  (of_int 0 <? sampleRate)%D = true ->
  LowPassFilter.alpha (LowPassFilter.new (of_int 0) sampleRate) = of_int 0.
Proof.
  intros Hpos. cbn [dltb binary64 of_int] in Hpos.
  rewrite FloatAxioms.ltb_spec in Hpos.
  change (Prim2SF (Binary64.of_int 0)) with (S754_zero false) in Hpos.
  apply FloatAxioms.Prim2SF_inj.
  unfold LowPassFilter.new. cbn [LowPassFilter.alpha].
  cbn [ddiv dadd dmul binary64].
  rewrite FloatAxioms.div_spec, FloatAxioms.add_spec, FloatAxioms.mul_spec.
  assert (ERC : Prim2SF (of_int 1 / (of_int 2 * PI * of_int 0))%D =
                S754_infinity false) by (vm_compute; reflexivity).
  cbn [ddiv dmul binary64] in ERC. rewrite ERC.
  destruct (SFltb_zero_cases _ Hpos) as [->|(m & e & ->)]; reflexivity.
Qed.

(** With [alpha = 0.0] and [prev = 0.0] a finite input leaves [prev] at
    0.0. *)
Lemma zero_alpha_step (x : float) :
  dvalue x <> None ->
  (of_int 0 + of_int 0 * (x - of_int 0))%D = (of_int 0 : float).
Proof.
  intros Hx. apply FloatAxioms.Prim2SF_inj.
  cbn [dadd dmul dsub binary64].
  rewrite FloatAxioms.add_spec, FloatAxioms.mul_spec, FloatAxioms.sub_spec.
  cbn [dvalue binary64] in Hx. unfold Binary64.value in Hx.
  change (Prim2SF (of_int 0)) with (S754_zero false).
  destruct (Prim2SF x) as [s|s| |s m e]; cbn in Hx; try congruence.
  - destruct s; reflexivity.
  - destruct s; reflexivity.
Qed.

(** X13. In binary64, for every sample rate above zero (plus infinity
    included), the constructor called with a cutoff of 0.0 divides by zero
    without failing: [RC] is plus infinity and [alpha] comes out as 0.0;
    the filter it builds returns 0.0 for every finite input and never
    leaves [prev = 0.0]: it mutes the signal. *)
Theorem LowPassFilter_zero_cutoff_mutes
    (sampleRate : float) (xs : list float) :
  (of_int 0 <? sampleRate)%D = true ->
  Forall (fun x : float => dvalue x <> None) xs ->
  let f := LowPassFilter.new (of_int 0) sampleRate in
  f = {| LowPassFilter.alpha := of_int 0; LowPassFilter.prev := of_int 0 |}
  /\ filter_run f xs = (repeat (of_int 0) (length xs), f).
Proof.
  intros Hpos Hxs f.
  assert (Ef : f = {| LowPassFilter.alpha := of_int 0;
                      LowPassFilter.prev := of_int 0 |}).
  { unfold f, LowPassFilter.new. f_equal.
    exact (zero_cutoff_alpha sampleRate Hpos). }
  split; [exact Ef|]. rewrite Ef. clear Ef f Hpos.
  induction Hxs as [|x xs Hx Hxs IH]; [reflexivity|].
  cbn [filter_run length repeat]. unfold LowPassFilter.process.
  cbn [LowPassFilter.alpha LowPassFilter.prev].
  rewrite (zero_alpha_step x Hx), IH. reflexivity.
Qed.

Lemma LowPassFilter_zero_cutoff_mutes_witness :
  let f : LowPassFilter.t float :=
    LowPassFilter.new (of_int 0) (of_int SAMPLE_RATE) in
  filter_run f [of_int 1; normalise (-5)] = ([of_int 0; of_int 0], f).
Proof.
  intros f.
  refine (proj2 (LowPassFilter_zero_cutoff_mutes (of_int SAMPLE_RATE)
                   [of_int 1; normalise (-5)] _ _)).
  - vm_compute. reflexivity.
  - repeat constructor; vm_compute; discriminate.
Defined.
